(** * Timed multi-round challenge engine: model and properties

    A shallow embedding of the two game components of the assessment
    front end:

    - [BubbleSort] (src/BubbleSort.tsx): the local challenge engine, with
      its stimulus generator, the selection scorer and the round/session
      controller;
    - [PipePuzzle] (src/PipePuzzle.tsx): the remote-backed engine, with the
      handlers that forward select/rotate/flip/submit to the remote
      authority;

    and, built on these, of the rest of the front end:

    - [TimedSession]: the local engine together with the times at which
      its intervals and timeouts fire;
    - [PathfinderGame]: the game component of the pipe puzzle as a whole,
      with the calls it has in flight, its countdown and its tutorial;
    - [PipePuzzleView]: what the pipe puzzle draws (countdown display,
      tile arrows, rocket animation);
    - [AssessmentFlow]: the three levels of the pipe puzzle and the saving
      of their results;
    - [App] (src/main.tsx): the system checks and the way into the games.

    React state is modelled as a record, one field per [useState] / [useRef]
    cell; an event handler is a function from state to state.  State
    updates queued by a handler are applied in program order (the
    production semantics; the development-only double invocation of
    StrictMode is not modelled).  [Math.random()] is a stream of rationals
    read through a cursor, [Date.now()] is an argument of the handlers that
    read the clock, and timeouts are kept in a queue together with the
    values their callback closed over.

    Numbers are the integers the program computes with; a draw of
    [Math.random()] is a rational in [[0, 1)] and [Math.floor(u * n)] is
    taken exactly.  Floating-point rounding of [u * n] can move a single
    draw to a neighbouring integer, but never outside [[0, n - 1]], so
    every outcome of the program is the outcome of the model for some
    random source; the properties below hold for all of them. *)

From Stdlib Require Import ZArith QArith Qround String Ascii Lia.
From Stdlib Require Import DecimalString DecimalPos DecimalZ.
From Stdlib Require Import Lqa.
From stdpp Require Import base option list sorting gmap.

Local Open Scope Z_scope.

(** ** JavaScript helpers shared by both components *)

(** [arr[i]] for a number [i]: [undefined] (here [None]) outside the array,
    also for a negative index. *)
Definition arr_get {A : Type} (arr : list A) (i : Z) : option A :=
  if i <? 0 then None else arr !! Z.to_nat i.

(** [`${n}`] for an integer [n]: its decimal numeral. *)
Definition show_Z (n : Z) : string :=
  NilZero.string_of_int (Z.to_int n).

(** [Math.round(x / 1000)] for an integer [x]: the nearest integer, halves
    rounded up. *)
Definition round_div_1000 (x : Z) : Z := (x + 500) / 1000.

(** ** The random source

    The [k]-th call of [Math.random()] returns [random k]; a computation
    that draws random numbers threads the cursor [k]. *)

Definition Rand (A : Type) : Type := nat -> A * nat.

Definition rret {A : Type} (a : A) : Rand A := fun k => (a, k).

Definition rbind {A B : Type} (m : Rand A) (f : A -> Rand B) : Rand B :=
  fun k => let (a, k') := m k in f a k'.

Notation "x <~ m ;; f" := (rbind m (fun x => f))
  (at level 100, m at next level, right associativity).

(** A random source is well-formed when every draw lies in [[0, 1)]. *)
Definition unit_interval (random : nat -> Q) : Prop :=
  forall k, (0 <= random k)%Q /\ (random k < 1)%Q.

Module BubbleSort.

(** *** Types *)

Inductive Operator : Type := OpAdd | OpSub | OpMul | OpDiv.

(** The result [{ expression, value }] of [generateExpression]. *)
Record Expr : Type := mkExpr {
  e_expression : string;
  e_value : Z
}.

Record BubbleData : Type := mkBubble {
  b_id : Z;
  b_expression : string;
  b_value : Z;
  b_selected : bool;
  b_offsetX : Z;
  b_offsetY : Z;
  b_size : Z
}.

Record RoundResult : Type := mkResult {
  r_round : Z;
  r_correct : Z;
  r_wrong : Z;
  r_score : Z;
  r_timeUsed : Z;
  r_completed : bool
}.

Record DifficultyConfig : Type := mkConfig {
  bubbleCount : Z;
  operators : list Operator;
  maxNumber : Z;
  cfg_roundTime : Z
}.

Inductive GameScreen : Type := INSTRUCTIONS | PLAYING | COMPLETE.

Record Spot : Type := mkSpot { x : Z; y : Z; s : Z }.

(** *** Constants *)

Definition SESSION_DURATION : Z := 420.
Definition ROUND_TIME : Z := 15.
Definition TOTAL_QUESTIONS : Z := 20.
Definition CORRECT_DELAY_MS : Z := 250.

Definition DIFFICULTY_TABLE : list DifficultyConfig :=
  [ mkConfig 3 [OpAdd] 20 ROUND_TIME;
    mkConfig 3 [OpAdd] 30 ROUND_TIME;
    mkConfig 3 [OpAdd; OpSub] 20 ROUND_TIME;
    mkConfig 3 [OpAdd; OpSub] 30 ROUND_TIME;
    mkConfig 3 [OpAdd; OpSub; OpMul] 15 ROUND_TIME;
    mkConfig 3 [OpAdd; OpSub; OpMul] 20 ROUND_TIME;
    mkConfig 3 [OpAdd; OpSub; OpMul; OpDiv] 20 ROUND_TIME;
    mkConfig 3 [OpAdd; OpSub; OpMul; OpDiv] 30 ROUND_TIME ].

Definition SCATTER_POSITIONS : list (list Spot) :=
  [ [ mkSpot 50 20 130; mkSpot 28 58 130; mkSpot 72 58 130 ];
    [ mkSpot 28 30 130; mkSpot 72 30 130; mkSpot 50 68 130 ];
    [ mkSpot 72 58 130; mkSpot 50 20 130; mkSpot 28 58 130 ];
    [ mkSpot 50 68 130; mkSpot 28 30 130; mkSpot 72 30 130 ] ].

(** *** Expression generator *)

Definition operatorSymbol (op : Operator) : string :=
  match op with
  | OpAdd => "+"
  | OpSub => "-"
  | OpMul => "×"
  | OpDiv => "÷"
  end.

(** The template literal [`${a}<op>${b}`]. *)
Definition template (a : Z) (op : Operator) (b : Z) : string :=
  (show_Z a ++ operatorSymbol op ++ show_Z b)%string.

Section Generator.

Variable random : nat -> Q.

Definition Math_random : Rand Q := fun k => (random k, S k).

(** [Math.floor(Math.random() * n)] *)
Definition randomBelow (n : Z) : Rand Z :=
  u <~ Math_random ;; rret (Qfloor (u * inject_Z n)).

Definition randomInt (min max : Z) : Rand Z :=
  r <~ randomBelow (max - min + 1) ;; rret (r + min).

Definition generateAddition (maxNum : Z) : Rand Expr :=
  a <~ randomInt 1 maxNum ;;
  b <~ randomInt 1 maxNum ;;
  rret (mkExpr (template a OpAdd b) (a + b)).

(** [operators[...]] is [undefined] for an empty operator list; the switch
    then takes its [default] branch, which is the addition branch. *)
Definition generateExpression (ops : list Operator) (maxNum : Z) : Rand Expr :=
  idx <~ randomBelow (Z.of_nat (length ops)) ;;
  match arr_get ops idx with
  | Some OpAdd => generateAddition maxNum
  | Some OpSub =>
      a <~ randomInt 2 maxNum ;;
      b <~ randomInt 0 a ;;
      rret (mkExpr (template a OpSub b) (a - b))
  | Some OpMul =>
      a <~ randomInt 1 (Z.min maxNum 12) ;;
      b <~ randomInt 1 (Z.min maxNum 9) ;;
      rret (mkExpr (template a OpMul b) (a * b))
  | Some OpDiv =>
      b <~ randomInt 2 (Z.min maxNum 10) ;;
      value <~ randomInt 1 (Z.min maxNum 12) ;;
      let a := b * value in
      rret (mkExpr (template a OpDiv b) value)
  | None => generateAddition maxNum
  end.

(** The [do { ... } while (usedValues.has(expr.value) && attempts < 50)]
    loop of one slot.  [attempts] is the counter of the source; [budget]
    only makes the recursion structural: started as [retryLoop 49 used 0]
    the loop test fails before the budget is used up ([retryLoop_attempts]).
    The result carries the final value of [attempts]. *)
Fixpoint retryLoop (budget : nat) (ops : list Operator) (maxNum : Z)
    (usedValues : gset Z) (attempts : Z) : Rand (Expr * Z) :=
  expr <~ generateExpression ops maxNum ;;
  let attempts := attempts + 1 in
  if bool_decide (e_value expr ∈ usedValues) && (attempts <? 50) then
    match budget with
    | S budget' => retryLoop budget' ops maxNum usedValues attempts
    | O => rret (expr, attempts)
    end
  else rret (expr, attempts).

(** The [for] loop of [generateBubbles], from slot [i] on, with [n] slots
    to go.  [layout] is [None] when [SCATTER_POSITIONS[...]] is
    [undefined]; reading [layout[i].x] then throws, as it does when
    [layout[i]] is [undefined]: the result is [None].  Next to each bubble
    the loop records the number of attempts its slot took. *)
Fixpoint fillSlots (n : nat) (config : DifficultyConfig)
    (layout : option (list Spot)) (i : Z) (usedValues : gset Z)
    (bubbles : list (BubbleData * Z)) : Rand (option (list (BubbleData * Z))) :=
  match n with
  | O => rret (Some bubbles)
  | S n' =>
      r <~ retryLoop 49 (operators config) (maxNumber config) usedValues 0 ;;
      let expr := r.1 in
      let usedValues := {[ e_value expr ]} ∪ usedValues in
      match layout ≫= (fun l => arr_get l i) with
      | None => rret None
      | Some spot =>
          fillSlots n' config layout (i + 1) usedValues
            (bubbles ++ [ (mkBubble i (e_expression expr) (e_value expr) false
                             (x spot) (y spot) (s spot), r.2) ])
      end
  end.

Definition generateBubblesLog (config : DifficultyConfig) (round : Z)
    : Rand (option (list (BubbleData * Z))) :=
  let layout :=
    arr_get SCATTER_POSITIONS
            (Z.rem (round - 1) (Z.of_nat (length SCATTER_POSITIONS))) in
  fillSlots (Z.to_nat (bubbleCount config)) config layout 0 ∅ [].

Definition generateBubbles (config : DifficultyConfig) (round : Z)
    : Rand (option (list BubbleData)) :=
  r <~ generateBubblesLog config round ;; rret (fmap (M:=list) fst <$> r).

End Generator.

(** *** Component state

    One field per [useState] cell and per [useRef] cell of the component,
    the queue of pending [setTimeout] callbacks (oldest first) and the
    cursor of the random source. *)

(** The values an [endRound] callback closed over: [endRound] is rebuilt by
    [useCallback] whenever [round], [correctCount], [wrongCount] or
    [sessionTime] change, and reads the values of the render that built
    it. *)
Record Closure : Type := mkClosure {
  c_round : Z;
  c_correctCount : Z;
  c_wrongCount : Z;
  c_sessionTime : Z
}.

Record State : Type := mkState {
  screen : GameScreen;
  round : Z;
  sessionTime : Z;
  roundTime : Z;
  bubbles : list BubbleData;
  selectionOrder : Z;
  roundResults : list RoundResult;
  correctCount : Z;
  wrongCount : Z;
  totalScore : Z;
  processing : bool;
  roundStartRef : Z;
  roundEndedRef : bool;
  timeouts : list (Z * Closure);
  cursor : nat
}.

Definition set_screen (v : GameScreen) (st : State) : State :=
  mkState v (round st) (sessionTime st) (roundTime st) (bubbles st)
    (selectionOrder st) (roundResults st) (correctCount st) (wrongCount st)
    (totalScore st) (processing st) (roundStartRef st) (roundEndedRef st)
    (timeouts st) (cursor st).

Definition set_round (v : Z) (st : State) : State :=
  mkState (screen st) v (sessionTime st) (roundTime st) (bubbles st)
    (selectionOrder st) (roundResults st) (correctCount st) (wrongCount st)
    (totalScore st) (processing st) (roundStartRef st) (roundEndedRef st)
    (timeouts st) (cursor st).

Definition set_sessionTime (v : Z) (st : State) : State :=
  mkState (screen st) (round st) v (roundTime st) (bubbles st)
    (selectionOrder st) (roundResults st) (correctCount st) (wrongCount st)
    (totalScore st) (processing st) (roundStartRef st) (roundEndedRef st)
    (timeouts st) (cursor st).

Definition set_roundTime (v : Z) (st : State) : State :=
  mkState (screen st) (round st) (sessionTime st) v (bubbles st)
    (selectionOrder st) (roundResults st) (correctCount st) (wrongCount st)
    (totalScore st) (processing st) (roundStartRef st) (roundEndedRef st)
    (timeouts st) (cursor st).

Definition set_bubbles (v : list BubbleData) (st : State) : State :=
  mkState (screen st) (round st) (sessionTime st) (roundTime st) v
    (selectionOrder st) (roundResults st) (correctCount st) (wrongCount st)
    (totalScore st) (processing st) (roundStartRef st) (roundEndedRef st)
    (timeouts st) (cursor st).

Definition set_selectionOrder (v : Z) (st : State) : State :=
  mkState (screen st) (round st) (sessionTime st) (roundTime st)
    (bubbles st) v (roundResults st) (correctCount st) (wrongCount st)
    (totalScore st) (processing st) (roundStartRef st) (roundEndedRef st)
    (timeouts st) (cursor st).

Definition set_roundResults (v : list RoundResult) (st : State) : State :=
  mkState (screen st) (round st) (sessionTime st) (roundTime st)
    (bubbles st) (selectionOrder st) v (correctCount st) (wrongCount st)
    (totalScore st) (processing st) (roundStartRef st) (roundEndedRef st)
    (timeouts st) (cursor st).

Definition set_correctCount (v : Z) (st : State) : State :=
  mkState (screen st) (round st) (sessionTime st) (roundTime st)
    (bubbles st) (selectionOrder st) (roundResults st) v (wrongCount st)
    (totalScore st) (processing st) (roundStartRef st) (roundEndedRef st)
    (timeouts st) (cursor st).

Definition set_wrongCount (v : Z) (st : State) : State :=
  mkState (screen st) (round st) (sessionTime st) (roundTime st)
    (bubbles st) (selectionOrder st) (roundResults st) (correctCount st) v
    (totalScore st) (processing st) (roundStartRef st) (roundEndedRef st)
    (timeouts st) (cursor st).

Definition set_totalScore (v : Z) (st : State) : State :=
  mkState (screen st) (round st) (sessionTime st) (roundTime st)
    (bubbles st) (selectionOrder st) (roundResults st) (correctCount st)
    (wrongCount st) v (processing st) (roundStartRef st) (roundEndedRef st)
    (timeouts st) (cursor st).

Definition set_processing (v : bool) (st : State) : State :=
  mkState (screen st) (round st) (sessionTime st) (roundTime st)
    (bubbles st) (selectionOrder st) (roundResults st) (correctCount st)
    (wrongCount st) (totalScore st) v (roundStartRef st) (roundEndedRef st)
    (timeouts st) (cursor st).

Definition set_roundStartRef (v : Z) (st : State) : State :=
  mkState (screen st) (round st) (sessionTime st) (roundTime st)
    (bubbles st) (selectionOrder st) (roundResults st) (correctCount st)
    (wrongCount st) (totalScore st) (processing st) v (roundEndedRef st)
    (timeouts st) (cursor st).

Definition set_roundEndedRef (v : bool) (st : State) : State :=
  mkState (screen st) (round st) (sessionTime st) (roundTime st)
    (bubbles st) (selectionOrder st) (roundResults st) (correctCount st)
    (wrongCount st) (totalScore st) (processing st) (roundStartRef st) v
    (timeouts st) (cursor st).

Definition set_timeouts (v : list (Z * Closure)) (st : State) : State :=
  mkState (screen st) (round st) (sessionTime st) (roundTime st)
    (bubbles st) (selectionOrder st) (roundResults st) (correctCount st)
    (wrongCount st) (totalScore st) (processing st) (roundStartRef st)
    (roundEndedRef st) v (cursor st).

Definition set_cursor (v : nat) (st : State) : State :=
  mkState (screen st) (round st) (sessionTime st) (roundTime st)
    (bubbles st) (selectionOrder st) (roundResults st) (correctCount st)
    (wrongCount st) (totalScore st) (processing st) (roundStartRef st)
    (roundEndedRef st) (timeouts st) v.

Definition initialState : State :=
  mkState INSTRUCTIONS 1 SESSION_DURATION ROUND_TIME [] 0 [] 0 0 0 false 0
    false [] 0%nat.

(** The closure of the [endRound] built by the latest render. *)
Definition currentClosure (st : State) : Closure :=
  mkClosure (round st) (correctCount st) (wrongCount st) (sessionTime st).

Definition isPlaying (st : State) : bool :=
  match screen st with PLAYING => true | _ => false end.

(** *** Selection scorer *)

(** [Array.prototype.sort] with a comparator: a stable sort, here by
    insertion.  [a] goes before the first [b] with [cmp a b <= 0]. *)
Fixpoint sortInsert {A : Type} (cmp : A -> A -> Z) (a : A) (l : list A) : list A :=
  match l with
  | [] => [a]
  | b :: l' => if cmp a b <=? 0 then a :: l else b :: sortInsert cmp a l'
  end.

Definition sort {A : Type} (cmp : A -> A -> Z) (l : list A) : list A :=
  foldr (sortInsert cmp) [] l.

Definition byValue (a b : BubbleData) : Z := b_value a - b_value b.

Definition unselectedOf (l : list BubbleData) : list BubbleData :=
  List.filter (fun b => negb (b_selected b)) l.

Definition markSelected (b : BubbleData) : BubbleData :=
  mkBubble (b_id b) (b_expression b) (b_value b) true
    (b_offsetX b) (b_offsetY b) (b_size b).

Definition handleBubbleClick (bubbleId : Z) (st : State) : State :=
  if processing st || negb (isPlaying st) then st else
  match List.find (fun b => b_id b =? bubbleId) (bubbles st) with
  | None => st
  | Some bubble =>
      if b_selected bubble then st else
      match sort byValue (unselectedOf (bubbles st)) with
      | [] => st
      | first :: _ =>
          if b_id bubble =? b_id first then
            let st1 := set_correctCount (correctCount st + 1) st in
            let st2 := set_selectionOrder (selectionOrder st + 1) st1 in
            let updated :=
              map (fun b => if b_id b =? bubbleId then markSelected b else b)
                  (bubbles st) in
            let st3 :=
              if (length (unselectedOf updated) =? 0)%nat then
                set_timeouts
                  (timeouts st2 ++ [ (CORRECT_DELAY_MS, currentClosure st) ])
                  (set_processing true st2)
              else st2 in
            set_bubbles updated st3
          else set_wrongCount (wrongCount st + 1) st
      end
  end.

(** *** Session controller *)

Section Controller.

Variable random : nat -> Q.

(** [None] stands for a [TypeError]: the difficulty lookup or a layout
    lookup gave [undefined]. *)
Definition startRound (roundNum now : Z) (st : State) : option State :=
  cfg ← arr_get DIFFICULTY_TABLE
          (Z.min (roundNum - 1) (Z.of_nat (length DIFFICULTY_TABLE) - 1));
  let (generated, k) := generateBubbles random cfg roundNum (cursor st) in
  bs ← generated;
  let st := set_cursor k st in
  let st := set_bubbles bs st in
  let st := set_roundTime (cfg_roundTime cfg) st in
  let st := set_selectionOrder 0 st in
  let st := set_correctCount 0 st in
  let st := set_wrongCount 0 st in
  let st := set_processing false st in
  let st := set_roundEndedRef false st in
  let st := set_roundStartRef now st in
  Some st.

(** [endRound(completed)] as built by the render whose values are [cl]. *)
Definition endRound (cl : Closure) (completed : bool) (now : Z) (st : State)
    : option State :=
  if roundEndedRef st then Some st else
  let st := set_roundEndedRef true st in
  let timeUsed := round_div_1000 (now - roundStartRef st) in
  let roundScore := c_correctCount cl - c_wrongCount cl in
  let st := set_totalScore (totalScore st + roundScore) st in
  let st :=
    set_roundResults
      (roundResults st ++
         [ mkResult (c_round cl) (c_correctCount cl) (c_wrongCount cl)
                    roundScore timeUsed completed ]) st in
  if (c_sessionTime cl <=? 0) || (c_round cl >=? TOTAL_QUESTIONS) then
    Some (set_screen COMPLETE st)
  else
    let st := set_round (round st + 1) st in
    startRound (c_round cl + 1) now st.

(** One firing of the session interval.  The interval exists only while
    the screen is [PLAYING]. *)
Definition sessionTick (st : State) : State :=
  if negb (isPlaying st) then st else
  if sessionTime st <=? 1 then set_sessionTime 0 (set_screen COMPLETE st)
  else set_sessionTime (sessionTime st - 1) st.

(** One firing of the round interval; it calls [endRoundRef.current], the
    [endRound] of the latest render.  The updater returns 0 after
    [endRound] has run; a [setRoundTime] queued by [startRound] inside it
    is applied after that, hence the order below. *)
Definition roundTick (now : Z) (st : State) : option State :=
  if negb (isPlaying st) then Some st else
  if roundTime st <=? 1 then
    endRound (currentClosure st) false now (set_roundTime 0 st)
  else Some (set_roundTime (roundTime st - 1) st).

(** The oldest pending [setTimeout(() => endRound(true), CORRECT_DELAY_MS)]
    fires.  Nothing ever clears a pending timeout. *)
Definition settle (now : Z) (st : State) : option State :=
  match timeouts st with
  | [] => Some st
  | (_, cl) :: rest => endRound cl true now (set_timeouts rest st)
  end.

Definition handleStart (now : Z) (st : State) : option State :=
  let st := set_screen PLAYING st in
  let st := set_round 1 st in
  let st := set_sessionTime SESSION_DURATION st in
  let st := set_roundResults [] st in
  let st := set_totalScore 0 st in
  startRound 1 now st.

Definition handleSubmit (now : Z) (st : State) : State :=
  let timeUsed := round_div_1000 (now - roundStartRef st) in
  let roundScore := correctCount st - wrongCount st in
  let st' := set_totalScore (totalScore st + roundScore) st in
  let st' :=
    set_roundResults
      (roundResults st ++
         [ mkResult (round st) (correctCount st) (wrongCount st) roundScore
                    timeUsed (forallb b_selected (bubbles st)) ]) st' in
  set_screen COMPLETE st'.

(** *** Events

    What can happen to a mounted component.  The render function decides
    which controls exist: the start button on the instructions screen,
    the bubbles and the submit button on the playing screen, nothing but
    "next" on the complete screen. *)
Inductive Event : Type :=
  | Start (now : Z)
  | SessionTick
  | RoundTick (now : Z)
  | Click (bubbleId : Z)
  | Settle (now : Z)
  | Submit (now : Z).

Definition step (st : State) (ev : Event) : option State :=
  match ev with
  | Start now =>
      match screen st with INSTRUCTIONS => handleStart now st | _ => Some st end
  | SessionTick => Some (sessionTick st)
  | RoundTick now => roundTick now st
  | Click bubbleId => Some (handleBubbleClick bubbleId st)
  | Settle now => settle now st
  | Submit now => if isPlaying st then Some (handleSubmit now st) else Some st
  end.

Fixpoint run (st : State) (evs : list Event) : option State :=
  match evs with
  | [] => Some st
  | ev :: evs' => st' ← step st ev; run st' evs'
  end.

Inductive reachable : State -> Prop :=
  | reachable_init : reachable initialState
  | reachable_step st ev st' :
      reachable st -> step st ev = Some st' -> reachable st'.

End Controller.

End BubbleSort.

Module PipePuzzle.

(** *** Types *)

Inductive Direction : Type := UP | DOWN | LEFT | RIGHT.
Inductive TileType : Type := STRAIGHT | CORNER | EMPTY.
Inductive GameStatus : Type := PLAYING | ANIMATING | WON | LOST.

Record TileState : Type := mkTile {
  t_id : string;
  t_row : Z;
  t_col : Z;
  t_type : TileType;
  t_openings : list Direction
}.

Record EntryExit : Type := mkEntry {
  ee_row : Z;
  ee_col : Z;
  ee_direction : Direction
}.

Record Position : Type := mkPosition { p_row : Z; p_col : Z }.

Definition GridState : Type := list (list TileState).

Record GameState : Type := mkGame {
  grid : GridState;
  start : EntryExit;
  end_ : EntryExit;
  status : GameStatus;
  selectedTile : option Position;
  timeRemaining : Z;
  attempts : Z;
  moves : Z;
  rotations : Z;
  flips : Z
}.

(** *** API payloads *)

Record ApiTile : Type := mkApiTile {
  a_id : string;
  a_row : Z;
  a_col : Z;
  a_type : TileType;
  a_openings : list Direction
}.

Record GameStartResponse : Type := mkStartResponse {
  session_id : string;
  start_grid : list (list ApiTile);
  start_start : EntryExit;
  start_end : EntryExit;
  start_status : string
}.

(** [rotations?] and [flips?] are optional fields. *)
Record GridResponse : Type := mkGridResponse {
  res_grid : list (list ApiTile);
  res_rotations : option Z;
  res_flips : option Z
}.

Record PathCell : Type := mkCell { c_row : Z; c_col : Z }.

(** [path] is tested for truthiness by [handleSubmit], so it may be
    missing: [None]. *)
Record SubmitResponse : Type := mkSubmitResponse {
  valid : bool;
  res_status : string;
  path : option (list PathCell)
}.

Record SelectResponse : Type := mkSelectResponse { res_moves : Z }.

(** How a promise settles. *)
Inductive Outcome (A : Type) : Type :=
  | Fulfilled (res : A)
  | Rejected (err : string).
Arguments Fulfilled {A} res.
Arguments Rejected {A} err.

(** The calls of the [api] object that the game component issues. *)
Inductive Request : Type :=
  | StartGame (rows cols : Z)
  | SelectTile (sessionId : string) (row col : Z)
  | RotateTile (sessionId : string) (row col : Z)
  | FlipTile (sessionId : string) (row col : Z)
  | SubmitPath (sessionId : string).

(** *** Constants *)

Definition GAME_DURATION : Z := 240.
Definition ANIMATION_STEP_MS : Z := 400.
Definition ANIMATION_END_BUFFER_MS : Z := 800.

Definition EMPTY_ENTRY : EntryExit := mkEntry 0 0 LEFT.

Definition toGrid (apiGrid : list (list ApiTile)) : GridState :=
  map (fun row =>
         map (fun t => mkTile (a_id t) (a_row t) (a_col t) (a_type t)
                              (a_openings t)) row)
      apiGrid.

(** *** Component state of [PathfinderGame]

    The [useState] cells, the console, and the pending [setTimeout]
    callbacks with the time at which each is due (milliseconds on the
    clock that [setTimeout] reads).  The only callback ever scheduled is
    the one of [handleSubmit]. *)

Inductive LogLevel : Type := Warn | Error.

Record LogEntry : Type := mkLog {
  level : LogLevel;
  message : string;
  detail : string
}.

Record Component : Type := mkComponent {
  sessionId : string;
  gameState : GameState;
  tutorialStep : Z;
  showTutorial : bool;
  animationPath : list PathCell;
  console : list LogEntry;
  timers : list Z
}.

Definition initialGameState : GameState :=
  mkGame [] EMPTY_ENTRY EMPTY_ENTRY PLAYING None GAME_DURATION 0 0 0 0.

Definition initialComponent : Component :=
  mkComponent "" initialGameState 0 true [] [] [].

(** [setGameState(f)] *)
Definition setGameState (f : GameState -> GameState) (c : Component) : Component :=
  mkComponent (sessionId c) (f (gameState c)) (tutorialStep c) (showTutorial c)
    (animationPath c) (console c) (timers c).

Definition setSessionId (v : string) (c : Component) : Component :=
  mkComponent v (gameState c) (tutorialStep c) (showTutorial c)
    (animationPath c) (console c) (timers c).

Definition setAnimationPath (v : list PathCell) (c : Component) : Component :=
  mkComponent (sessionId c) (gameState c) (tutorialStep c) (showTutorial c)
    v (console c) (timers c).

Definition consoleLog (e : LogEntry) (c : Component) : Component :=
  mkComponent (sessionId c) (gameState c) (tutorialStep c) (showTutorial c)
    (animationPath c) (console c ++ [e]) (timers c).

Definition setTimers (v : list Z) (c : Component) : Component :=
  mkComponent (sessionId c) (gameState c) (tutorialStep c) (showTutorial c)
    (animationPath c) (console c) v.

Definition isPlaying (c : Component) : bool :=
  match status (gameState c) with PLAYING => true | _ => false end.

(** [!sessionId]: the empty string is falsy. *)
Definition noSession (c : Component) : bool :=
  match sessionId c with EmptyString => true | _ => false end.

(** *** Session start (the mount effect) *)

Definition startSettled (cancelled : bool) (o : Outcome GameStartResponse)
    (c : Component) : Component :=
  match o with
  | Fulfilled res =>
      if cancelled then c else
      setGameState
        (fun _ => mkGame (toGrid (start_grid res)) (start_start res)
                         (start_end res) PLAYING None GAME_DURATION 0 0 0 0)
        (setSessionId (session_id res) c)
  | Rejected err => consoleLog (mkLog Error "Failed to start game:" err) c
  end.

(** *** Countdown: one firing of the interval, which exists only while the
    status is [PLAYING]. *)
Definition countdownTick (c : Component) : Component :=
  if negb (isPlaying c) then c else
  setGameState
    (fun prev =>
       if timeRemaining prev <=? 1 then
         mkGame (grid prev) (start prev) (end_ prev) LOST (selectedTile prev)
           0 (attempts prev) (moves prev) (rotations prev) (flips prev)
       else
         mkGame (grid prev) (start prev) (end_ prev) (status prev)
           (selectedTile prev) (timeRemaining prev - 1) (attempts prev)
           (moves prev) (rotations prev) (flips prev))
    c.

(** *** Action handlers

    Each handler has a synchronous part, which returns the component state
    and the request it issued (if any), and a continuation run when the
    promise of that request settles. *)

Definition handleTileClick (pos : Position) (c : Component)
    : Component * option Request :=
  if negb (isPlaying c) || noSession c then (c, None) else
  ( setGameState
      (fun prev =>
         mkGame (grid prev) (start prev) (end_ prev) (status prev) (Some pos)
           (timeRemaining prev) (attempts prev) (moves prev + 1)
           (rotations prev) (flips prev))
      c,
    Some (SelectTile (sessionId c) (p_row pos) (p_col pos)) ).

Definition selectSettled (o : Outcome SelectResponse) (c : Component) : Component :=
  match o with
  | Fulfilled _ => c
  | Rejected err => consoleLog (mkLog Warn "Select tile failed:" err) c
  end.

Definition handleRotate (c : Component) : Component * option Request :=
  if negb (isPlaying c) then (c, None) else
  match selectedTile (gameState c) with
  | None => (c, None)
  | Some pos =>
      if noSession c then (c, None)
      else (c, Some (RotateTile (sessionId c) (p_row pos) (p_col pos)))
  end.

Definition rotateSettled (o : Outcome GridResponse) (c : Component) : Component :=
  match o with
  | Fulfilled res =>
      setGameState
        (fun prev =>
           mkGame (toGrid (res_grid res)) (start prev) (end_ prev)
             (status prev) (selectedTile prev) (timeRemaining prev)
             (attempts prev) (moves prev)
             (match res_rotations res with
              | Some r => r
              | None => rotations prev + 1
              end)
             (flips prev))
        c
  | Rejected err => consoleLog (mkLog Error "Rotate failed:" err) c
  end.

Definition handleFlip (c : Component) : Component * option Request :=
  if negb (isPlaying c) then (c, None) else
  match selectedTile (gameState c) with
  | None => (c, None)
  | Some pos =>
      if noSession c then (c, None)
      else (c, Some (FlipTile (sessionId c) (p_row pos) (p_col pos)))
  end.

Definition flipSettled (o : Outcome GridResponse) (c : Component) : Component :=
  match o with
  | Fulfilled res =>
      setGameState
        (fun prev =>
           mkGame (toGrid (res_grid res)) (start prev) (end_ prev)
             (status prev) (selectedTile prev) (timeRemaining prev)
             (attempts prev) (moves prev) (rotations prev)
             (match res_flips res with
              | Some f => f
              | None => flips prev + 1
              end))
        c
  | Rejected err => consoleLog (mkLog Error "Flip failed:" err) c
  end.

Definition handleSubmit (c : Component) : Component * option Request :=
  if negb (isPlaying c) || noSession c then (c, None)
  else (c, Some (SubmitPath (sessionId c))).

Definition setStatus (v : GameStatus) (prev : GameState) : GameState :=
  mkGame (grid prev) (start prev) (end_ prev) v (selectedTile prev)
    (timeRemaining prev) (attempts prev) (moves prev) (rotations prev)
    (flips prev).

Definition bumpAttempts (prev : GameState) : GameState :=
  mkGame (grid prev) (start prev) (end_ prev) (status prev) (selectedTile prev)
    (timeRemaining prev) (attempts prev + 1) (moves prev) (rotations prev)
    (flips prev).

(** The delay handed to [setTimeout] for a path of the given length. *)
Definition animationDelay (pathLength : Z) : Z :=
  pathLength * ANIMATION_STEP_MS + ANIMATION_END_BUFFER_MS.

(** [now] is the clock reading when the response arrives. *)
Definition submitSettled (now : Z) (o : Outcome SubmitResponse) (c : Component)
    : Component :=
  match o with
  | Fulfilled res =>
      match valid res, path res with
      | true, Some p =>
          let c := setAnimationPath p c in
          let c := setGameState (fun prev => bumpAttempts (setStatus ANIMATING prev)) c in
          setTimers (timers c ++ [ now + animationDelay (Z.of_nat (length p)) ]) c
      | _, _ => setGameState bumpAttempts c
      end
  | Rejected err => consoleLog (mkLog Error "Submit failed:" err) c
  end.

(** The callback scheduled by [handleSubmit]. *)
Definition animationDone (c : Component) : Component :=
  setGameState (setStatus WON) (setAnimationPath [] c).

(** The clock reaches [now]: every timeout that is due by then fires, in
    the order in which they were scheduled. *)
Definition fireDue (now : Z) (c : Component) : Component :=
  foldl (fun c due => if due <=? now then animationDone c else c)
        (setTimers (List.filter (fun due => negb (due <=? now)) (timers c)) c)
        (timers c).

End PipePuzzle.

Import BubbleSort.

(** ** Reading a displayed expression

    The source only prints expressions.  What "evaluating the displayed
    expression" means is fixed here, following the spec's words: the
    string is read back as [<digits><operator><digits>] and the operator
    is applied to the two numbers; a division is defined only when it is
    exact. *)

Definition is_digit (c : ascii) : bool :=
  let n := nat_of_ascii c in (48 <=? n)%nat && (n <=? 57)%nat.

Fixpoint span_digits (str : string) : string * string :=
  match str with
  | String c rest =>
      if is_digit c then
        let (digits, rest') := span_digits rest in (String c digits, rest')
      else (EmptyString, str)
  | EmptyString => (EmptyString, EmptyString)
  end.

Fixpoint strip_prefix (p str : string) : option string :=
  match p, str with
  | EmptyString, _ => Some str
  | String a p', String b str' =>
      if Ascii.eqb a b then strip_prefix p' str' else None
  | String _ _, EmptyString => None
  end.

Definition read_operator (str : string) : option (Operator * string) :=
  match strip_prefix (operatorSymbol OpAdd) str with
  | Some rest => Some (OpAdd, rest)
  | None =>
  match strip_prefix (operatorSymbol OpSub) str with
  | Some rest => Some (OpSub, rest)
  | None =>
  match strip_prefix (operatorSymbol OpMul) str with
  | Some rest => Some (OpMul, rest)
  | None =>
  match strip_prefix (operatorSymbol OpDiv) str with
  | Some rest => Some (OpDiv, rest)
  | None => None
  end end end end.

Definition read_number (str : string) : option Z :=
  Z.of_uint <$> NilZero.uint_of_string str.

Definition parseExpression (str : string) : option (Z * Operator * Z) :=
  let (digits, rest) := span_digits str in
  a ← read_number digits;
  r ← read_operator rest;
  b ← read_number r.2;
  Some (a, r.1, b).

Definition applyOperator (a : Z) (op : Operator) (b : Z) : option Z :=
  match op with
  | OpAdd => Some (a + b)
  | OpSub => Some (a - b)
  | OpMul => Some (a * b)
  | OpDiv =>
      if b =? 0 then None
      else if a mod b =? 0 then Some (a / b) else None
  end.

Definition evalExpression (str : string) : option Z :=
  r ← parseExpression str; applyOperator r.1.1 r.1.2 r.2.

(** ** Orders on the stimuli of a round *)

(** [firstMinimum b l]: [b] occurs in [l], is not consumed, no unconsumed
    stimulus has a smaller value, and every unconsumed stimulus generated
    before [b] has a strictly larger one. *)
Definition firstMinimum (b : BubbleData) (l : list BubbleData) : Prop :=
  exists l1 l2,
    l = l1 ++ b :: l2 /\ b_selected b = false /\
    (forall u, u ∈ l1 -> b_selected u = false -> b_value b < b_value u) /\
    (forall u, u ∈ l2 -> b_selected u = false -> b_value b <= b_value u).

(** Ascending by value, equal values in generation order ([b_id] is the
    slot number). *)
Definition precedes (a b : BubbleData) : Prop :=
  b_value a < b_value b \/ (b_value a = b_value b /\ b_id a < b_id b).

Definition ascendingOrder (l order : list BubbleData) : Prop :=
  order ≡ₚ l /\ StronglySorted precedes order.

Definition clickAll (order : list BubbleData) (st : State) : State :=
  foldl (fun st b => handleBubbleClick (b_id b) st) st order.

(** ** Generated rounds *)

(** What a generated expression has to satisfy for a given [maxNum]: it
    prints two non-negative operands around an operator, applying the
    operator gives the stored value, and a division has its divisor and
    quotient in range and an exact dividend. *)
Definition wellFormed (maxNum : Z) (e : Expr) : Prop :=
  exists a op b,
    e_expression e = template a op b /\ 0 <= a /\ 0 <= b /\
    applyOperator a op b = Some (e_value e) /\
    (op = OpDiv ->
       2 <= b <= Z.min maxNum 10 /\ 1 <= e_value e <= Z.min maxNum 12 /\
       a = b * e_value e).

Definition exprOf (b : BubbleData) : Expr :=
  mkExpr (b_expression b) (b_value b).

(** What the slot loop of [generateBubbles] produces from slot [i] on,
    given the values already placed: consecutive ids, nothing consumed, an
    expression satisfying [P], between 1 and 50 attempts, and all 50 of
    them whenever the value was already placed. *)
Fixpoint slotsFrom (P : Expr -> Prop) (i : Z) (usedValues : gset Z)
    (log : list (BubbleData * Z)) : Prop :=
  match log with
  | [] => True
  | (b, attempts) :: rest =>
      b_id b = i /\ b_selected b = false /\ P (exprOf b) /\
      0 < attempts <= 50 /\
      (b_value b ∈ usedValues -> attempts = 50) /\
      slotsFrom P (i + 1) ({[ b_value b ]} ∪ usedValues) rest
  end.


(** ** The invariant of the engine *)

Definition selectedCount (l : list BubbleData) : Z :=
  Z.of_nat (length (List.filter b_selected l)).

(** The configuration selected by [useMemo] for the current round. *)
Definition configOf (st : State) : option DifficultyConfig :=
  arr_get DIFFICULTY_TABLE
    (Z.min (round st - 1) (Z.of_nat (length DIFFICULTY_TABLE) - 1)).

(** The ids of the stimuli of a round are their slot numbers. *)
Definition slotIds (l : list BubbleData) : Prop :=
  forall j b, l !! j = Some b -> b_id b = Z.of_nat j.

(** The list after a correct selection of the stimulus with id [bubbleId]. *)
Definition markId (bubbleId : Z) (l : list BubbleData) : list BubbleData :=
  map (fun b => if b_id b =? bubbleId then markSelected b else b) l.

(** What holds in every state a mounted component can be in. *)
Definition Inv (st : State) : Prop :=
  slotIds (bubbles st) /\
  correctCount st = selectedCount (bubbles st) /\
  (processing st = true -> unselectedOf (bubbles st) = []) /\
  (screen st = INSTRUCTIONS -> st = initialState) /\
  (screen st <> INSTRUCTIONS -> length (bubbles st) = 3%nat) /\
  1 <= round st /\
  Forall (fun t => 1 <= c_round t.2) (timeouts st) /\
  (screen st = PLAYING -> Z.of_nat (length (roundResults st)) = round st - 1).

(** ** Concrete inputs *)

(** A periodic random source used to run the model on concrete input. *)
Definition sampleRandom (k : nat) : Q :=
  match (k mod 5)%nat with
  | 0%nat => 3 # 4
  | 1%nat => 1 # 10
  | 2%nat => 1 # 2
  | 3%nat => 9 # 10
  | _ => 1 # 3
  end.

(** The source that always returns 0: every expression comes out the same. *)
Definition stuckRandom (k : nat) : Q := 0.

(** A state in the middle of round 1, used to run the properties on
    concrete input: the stimuli are 3+11, 7+16 and 11+19; the second was
    selected first (wrong), then the first (correct). *)
Definition sampleState : State :=
  default initialState
    (run sampleRandom initialState [Start 0; Click 1; Click 0]).

(** Round 1 just started, same stimuli. *)
Definition sampleRoundStart : State :=
  default initialState (run sampleRandom initialState [Start 0]).

(** A session of the remote-backed engine in play, used to run the
    handlers on concrete input: session "s1", an empty grid snapshot,
    nothing selected, all counters at zero. *)
Definition sampleComponent : PipePuzzle.Component :=
  PipePuzzle.mkComponent "s1" PipePuzzle.initialGameState 0 true [] [] [].

(** Round 1 is completed by the candidate just before its countdown runs
    out: fourteen round ticks, the three stimuli selected in ascending
    order (14, 23, 30), the fifteenth round tick within the settle delay,
    and then the settle timeout. *)
Definition raceTrace : list Event :=
  [ Start 0 ] ++
  map (fun i => RoundTick (1000 * Z.of_nat i)) (seq 1 14) ++
  [ Click 0; Click 1; Click 2; RoundTick 15000; Settle 15100 ].


(** ** Further invariants of the local engine *)

Definition scoreSum (results : list RoundResult) : Z :=
  foldr (fun r acc => r_score r + acc) 0 results.

(** The layout chosen by [generateBubbles] for a round. *)
Definition layoutOf (round : Z) : option (list Spot) :=
  arr_get SCATTER_POSITIONS
    (Z.rem (round - 1) (Z.of_nat (length SCATTER_POSITIONS))).

(** Clocks, scores and the latch in every state a mounted component can
    be in. *)
Definition ClockInv (st : State) : Prop :=
  0 <= sessionTime st <= SESSION_DURATION /\
  (screen st = PLAYING -> 1 <= sessionTime st) /\
  0 <= roundTime st <= ROUND_TIME /\
  (screen st = PLAYING -> 1 <= roundTime st) /\
  totalScore st = scoreSum (roundResults st) /\
  Forall (fun r => r_score r = r_correct r - r_wrong r) (roundResults st) /\
  selectionOrder st = correctCount st /\
  0 <= wrongCount st /\
  (screen st = PLAYING -> roundEndedRef st = false).

(** The configuration that [startRound] looks up for a round number. *)
Definition configFor (roundNum : Z) : option DifficultyConfig :=
  arr_get DIFFICULTY_TABLE
    (Z.min (roundNum - 1) (Z.of_nat (length DIFFICULTY_TABLE) - 1)).

(** *** The timer ring ([CircleTimer]) *)

Section CircleTimer.

(** [2 * Math.PI * radius] *)
Variable circumference : Q.

Definition progress (seconds total : Z) : Q :=
  if 0 <? total then (inject_Z seconds / inject_Z total)%Q else 0%Q.

Definition strokeOffset (seconds total : Z) : Q :=
  (circumference * (1 - progress seconds total))%Q.

End CircleTimer.

(** Round 1 with one second left on the round clock. *)
Definition sampleLastSecond : State :=
  default initialState
    (run sampleRandom initialState
       (Start 0 :: map (fun i => RoundTick (1000 * Z.of_nat i)) (seq 1 14))).

(** The session given up in round 1 after one wrong and one correct
    selection. *)
Definition sampleComplete : State :=
  default initialState
    (run sampleRandom initialState [Start 0; Click 1; Click 0; Submit 4200]).

(** *** A session in which nothing is selected *)

Definition isRoundTick (ev : Event) : bool :=
  match ev with RoundTick _ => true | _ => false end.

Definition isSessionTick (ev : Event) : bool :=
  match ev with SessionTick => true | _ => false end.

(** The event is a firing of one of the two intervals. *)
Definition tickOnly (ev : Event) : Prop :=
  isRoundTick ev || isSessionTick ev = true.

(** The record of a round in which nothing was selected. *)
Definition blank (r : RoundResult) : Prop :=
  r_correct r = 0 /\ r_wrong r = 0 /\ r_score r = 0 /\ r_completed r = false.

(** Round numbers 1 .. n. *)
Definition roundsUpTo (n : Z) : list Z := Z.of_nat <$> seq 1 (Z.to_nat n).

(** A round in progress in a session in which nothing has been selected
    so far. *)
Definition unanswered (st : State) : Prop :=
  screen st = PLAYING /\ correctCount st = 0 /\ wrongCount st = 0 /\
  roundEndedRef st = false /\ 1 <= round st <= TOTAL_QUESTIONS /\
  1 <= roundTime st <= ROUND_TIME /\ totalScore st = 0 /\
  r_round <$> roundResults st = roundsUpTo (round st - 1) /\
  Forall blank (roundResults st).

(** * The local engine on the clock

    The events of [BubbleSort] with the times at which they happen.  The
    session interval is created when the screen becomes PLAYING, the round
    interval when the screen becomes PLAYING and again whenever [round]
    changes (the dependencies of the two effects); both fire every
    [TICK_MS] after their creation.  A settle timeout fires its delay after
    the selection that scheduled it.  Timers fire when they are due, a
    timer that is due fires before anything later happens, and
    [Date.now()] in a callback is the time at which it fires; an effect
    runs at the time of the event that changed its dependencies. *)

Module TimedSession.

Definition TICK_MS : Z := 1000.

Inductive Action : Type :=
  | PressStart
  | Select (bubbleId : Z)
  | PressSubmit.

Inductive TimedEvent : Type :=
  | User (t : Z) (u : Action)
  | SessionFires
  | RoundFires
  | SettleFires.

(** The component, the time of the last event, the time at which the
    session started, and the times at which the session interval, the
    round interval and the pending settle timeouts (oldest first) are
    due. *)
Record Timed : Type := mkTimed {
  engine : State;
  clock : Z;
  startedAt : Z;
  sessionDue : Z;
  roundDue : Z;
  settleDue : list Z
}.

Definition mounted : Timed := mkTimed initialState 0 0 0 0 [].

(** No timer is due before [t].  The intervals exist while the screen is
    PLAYING. *)
Definition nothingBefore (t : Z) (ts : Timed) : bool :=
  (negb (isPlaying (engine ts)) ||
   ((t <=? sessionDue ts) && (t <=? roundDue ts))) &&
  forallb (fun due => t <=? due) (settleDue ts).

(** The time at which the event happens; [None] when it cannot happen. *)
Definition timeOf (ts : Timed) (ev : TimedEvent) : option Z :=
  match ev with
  | User t _ => if clock ts <=? t then Some t else None
  | SessionFires =>
      if isPlaying (engine ts) then Some (sessionDue ts) else None
  | RoundFires => if isPlaying (engine ts) then Some (roundDue ts) else None
  | SettleFires => head (settleDue ts)
  end.

(** What the event is for the component. *)
Definition eventOf (t : Z) (ev : TimedEvent) : Event :=
  match ev with
  | User _ PressStart => Start t
  | User _ (Select bubbleId) => Click bubbleId
  | User _ PressSubmit => Submit t
  | SessionFires => SessionTick
  | RoundFires => RoundTick t
  | SettleFires => Settle t
  end.

Section Clock.

Variable random : nat -> Q.

Definition tstep (ts : Timed) (ev : TimedEvent) : option Timed :=
  t ← timeOf ts ev;
  if negb (nothingBefore t ts) then None else
  let st := engine ts in
  st' ← step random st (eventOf t ev);
  let started := isPlaying st' && negb (isPlaying st) in
  let roundChanged := negb (round st' =? round st) in
  let kept :=
    match ev with
    | SettleFires => tail (settleDue ts)
    | _ => settleDue ts
    end in
  Some (mkTimed st' t
          (if started then t else startedAt ts)
          (if started then t + TICK_MS
           else match ev with
                | SessionFires => sessionDue ts + TICK_MS
                | _ => sessionDue ts
                end)
          (if started || roundChanged then t + TICK_MS
           else match ev with
                | RoundFires => roundDue ts + TICK_MS
                | _ => roundDue ts
                end)
          (kept ++
           ((fun p : Z * Closure => t + p.1) <$>
              drop (length kept) (timeouts st')))).

Fixpoint trun (ts : Timed) (evs : list TimedEvent) : option Timed :=
  match evs with
  | [] => Some ts
  | ev :: evs' => ts' ← tstep ts ev; trun ts' evs'
  end.


End Clock.





(** The schedule of [raceTrace]: the round is completed 100 ms before its
    countdown runs out. *)
Definition raceSchedule : list TimedEvent :=
  [ User 0 PressStart ] ++
  concat (replicate 14 [ SessionFires; RoundFires ]) ++
  [ User 14700 (Select 0); User 14800 (Select 1); User 14900 (Select 2);
    SessionFires; RoundFires; SettleFires ].

End TimedSession.

(** * The game component with its calls in flight

    [PathfinderGame] as a whole: the handlers of [PipePuzzle] above, the
    tutorial bar, the statistics handed to [onComplete], and the calls that
    have been issued and have not settled yet.  As in [countdownTick], the
    countdown interval is taken to be cleared as soon as the status is no
    longer PLAYING. *)

Module PathfinderGame.

Import PipePuzzle.

Definition TUTORIAL_STEPS : list string :=
  [ "Connect the path from 🚀 Rocket to 🌍 Earth by rotating the pipe tiles."%string;
    "Click a tile to select it. Each tile is a 3×3 block with 3 arrows."%string;
    "Use ↻ Rotate to turn the tile's connections 90° clockwise."%string;
    "Use ⇄ Swap to reverse the arrow direction (flow), keeping the shape."%string;
    "Corner tiles have 45° diagonal arrows — use them to turn the path."%string;
    "Submit ✓ when the path is complete!"%string ].

Definition setTutorialStep (v : Z) (c : Component) : Component :=
  mkComponent (sessionId c) (gameState c) v (showTutorial c)
    (animationPath c) (console c) (timers c).

Definition setShowTutorial (v : bool) (c : Component) : Component :=
  mkComponent (sessionId c) (gameState c) (tutorialStep c) v
    (animationPath c) (console c) (timers c).

(** The two buttons of the tutorial bar. *)
Definition tutorialPrev (c : Component) : Component :=
  setTutorialStep (Z.max 0 (tutorialStep c - 1)) c.

Definition tutorialNext (c : Component) : Component :=
  if tutorialStep c <? Z.of_nat (length TUTORIAL_STEPS) - 1
  then setTutorialStep (tutorialStep c + 1) c
  else setShowTutorial false c.

(** [TUTORIAL_STEPS[tutorialStep]], the text in the bar. *)
Definition tutorialText (c : Component) : option string :=
  arr_get TUTORIAL_STEPS (tutorialStep c).

Record LevelStats : Type := mkStats {
  s_moves : Z;
  s_rotations : Z;
  s_flips : Z;
  s_time : Z
}.

Definition stats (c : Component) : LevelStats :=
  let g := gameState c in
  mkStats (moves g) (rotations g) (flips g) (GAME_DURATION - timeRemaining g).

(** The "Next Question" button: it exists in the WON and in the LOST
    overlay, and calls [onComplete] with these arguments. *)
Definition nextQuestion (c : Component) : option (bool * LevelStats) :=
  match status (gameState c) with
  | WON => Some (true, stats c)
  | LOST => Some (false, stats c)
  | _ => None
  end.

(** The mounted component and the calls it has issued that have not
    settled. *)
Record World : Type := mkWorld {
  comp : Component;
  inflight : list Request
}.

(** The mount effect issues the start call. *)
Definition mount (rows cols : Z) : World :=
  mkWorld initialComponent [ StartGame rows cols ].

(** A handler ran: its state change is applied and its call, if it issued
    one, is in flight. *)
Definition dispatch (r : Component * option Request) (w : World) : World :=
  mkWorld r.1 (inflight w ++ match r.2 with Some q => [q] | None => [] end).

Definition isStartGame (q : Request) : bool :=
  match q with StartGame _ _ => true | _ => false end.
Definition isSelectTile (q : Request) : bool :=
  match q with SelectTile _ _ _ => true | _ => false end.
Definition isRotateTile (q : Request) : bool :=
  match q with RotateTile _ _ _ => true | _ => false end.
Definition isFlipTile (q : Request) : bool :=
  match q with FlipTile _ _ _ => true | _ => false end.
Definition isSubmitPath (q : Request) : bool :=
  match q with SubmitPath _ => true | _ => false end.

(** The oldest call of one kind leaves the calls in flight; [None] when no
    call of that kind is in flight. *)
Fixpoint take (kind : Request -> bool) (l : list Request)
    : option (list Request) :=
  match l with
  | [] => None
  | q :: l' => if kind q then Some l' else cons q <$> take kind l'
  end.

(** A call of the given kind settles and its continuation runs. *)
Definition settled (kind : Request -> bool) (k : Component -> Component)
    (w : World) : option World :=
  rest ← take kind (inflight w);
  Some (mkWorld (k (comp w)) rest).

(** What can happen to the mounted component.  A response can only arrive
    for a call in flight: [step] is [None] otherwise.  The controls are
    modelled without their [disabled] attribute: the handlers repeat its
    test, so that a press of a disabled control changes nothing. *)
Inductive Event : Type :=
  | TileClick (pos : Position)
  | Rotate
  | Flip
  | Submit
  | Tick
  | Clock (now : Z)
  | TutorialPrev
  | TutorialNext
  | StartSettles (o : Outcome GameStartResponse)
  | SelectSettles (o : Outcome SelectResponse)
  | RotateSettles (o : Outcome GridResponse)
  | FlipSettles (o : Outcome GridResponse)
  | SubmitSettles (now : Z) (o : Outcome SubmitResponse).

Definition step (w : World) (ev : Event) : option World :=
  match ev with
  | TileClick pos => Some (dispatch (handleTileClick pos (comp w)) w)
  | Rotate => Some (dispatch (handleRotate (comp w)) w)
  | Flip => Some (dispatch (handleFlip (comp w)) w)
  | Submit => Some (dispatch (handleSubmit (comp w)) w)
  | Tick => Some (mkWorld (countdownTick (comp w)) (inflight w))
  | Clock now => Some (mkWorld (fireDue now (comp w)) (inflight w))
  | TutorialPrev =>
      if showTutorial (comp w)
      then Some (mkWorld (tutorialPrev (comp w)) (inflight w)) else Some w
  | TutorialNext =>
      if showTutorial (comp w)
      then Some (mkWorld (tutorialNext (comp w)) (inflight w)) else Some w
  | StartSettles o => settled isStartGame (startSettled false o) w
  | SelectSettles o => settled isSelectTile (selectSettled o) w
  | RotateSettles o => settled isRotateTile (rotateSettled o) w
  | FlipSettles o => settled isFlipTile (flipSettled o) w
  | SubmitSettles now o => settled isSubmitPath (submitSettled now o) w
  end.

Fixpoint run (w : World) (evs : list Event) : option World :=
  match evs with
  | [] => Some w
  | ev :: evs' => w' ← step w ev; run w' evs'
  end.

Inductive reachable (rows cols : Z) : World -> Prop :=
  | reachable_mount : reachable rows cols (mount rows cols)
  | reachable_next w ev w' :
      reachable rows cols w -> step w ev = Some w' -> reachable rows cols w'.

(** The session id a call is addressed to; the start call has none. *)
Definition sessionOf (q : Request) : option string :=
  match q with
  | StartGame _ _ => None
  | SelectTile s _ _ | RotateTile s _ _ | FlipTile s _ _ | SubmitPath s => Some s
  end.

(** What holds of every state of a mounted game component. *)
Definition GameInv (w : World) : Prop :=
  let c := comp w in
  let g := gameState c in
  0 <= timeRemaining g <= GAME_DURATION /\
  (status g = PLAYING -> 1 <= timeRemaining g) /\
  (status g = LOST -> timeRemaining g = 0) /\
  (status g = ANIMATING -> timers c <> []) /\
  0 <= tutorialStep c < Z.of_nat (length TUTORIAL_STEPS) /\
  (sessionId c = EmptyString ->
   (inflight w = [] \/ exists rows cols, inflight w = [ StartGame rows cols ]) /\
   timers c = [] /\ (status g = PLAYING \/ status g = LOST) /\
   selectedTile g = None /\ moves g = 0 /\ attempts g = 0) /\
  (sessionId c <> EmptyString ->
   Forall (fun q => sessionOf q = Some (sessionId c)) (inflight w)).

(** A session that has started, for running the component on concrete
    input. *)
Definition sampleStart : GameStartResponse :=
  mkStartResponse "s1"
    [ [ mkApiTile "t0" 0 0 STRAIGHT [LEFT; RIGHT];
        mkApiTile "t1" 0 1 CORNER [LEFT; DOWN] ] ]
    (mkEntry 0 0 LEFT) (mkEntry 0 1 DOWN) "PLAYING".

Definition samplePath : SubmitResponse :=
  mkSubmitResponse true "WON" (Some [ mkCell 0 0; mkCell 0 1 ]).

Definition sampleWorld : World :=
  default (mount 1 2)
    (run (mount 1 2)
       [ StartSettles (Fulfilled sampleStart); TileClick (mkPosition 0 1);
         Rotate; Tick; Submit ]).

(** The same session after the submission was accepted. *)
Definition sampleAnimating : World :=
  default (mount 1 2)
    (run sampleWorld [ SubmitSettles 10000 (Fulfilled samplePath) ]).

(** A session on one row of three tiles in which Submit is pressed twice
    before the first answer arrives; both submissions are accepted, the
    first at 0 ms and the second at 1000 ms. *)
Definition threeTileStart : GameStartResponse :=
  mkStartResponse "s2"
    [ [ mkApiTile "t0" 0 0 STRAIGHT [LEFT; RIGHT];
        mkApiTile "t1" 0 1 STRAIGHT [LEFT; RIGHT];
        mkApiTile "t2" 0 2 STRAIGHT [LEFT; RIGHT] ] ]
    (mkEntry 0 0 LEFT) (mkEntry 0 2 RIGHT) "PLAYING".

Definition threeTilePath : SubmitResponse :=
  mkSubmitResponse true "WON" (Some [ mkCell 0 0; mkCell 0 1; mkCell 0 2 ]).

Definition doubleSubmitTrace : list Event :=
  [ StartSettles (Fulfilled threeTileStart); Submit; Submit;
    SubmitSettles 0 (Fulfilled threeTilePath);
    SubmitSettles 1000 (Fulfilled threeTilePath) ].

End PathfinderGame.

(** The game state with the given status and countdown value, everything
    else as in [prev]. *)
Definition clockAt (v : PipePuzzle.GameStatus) (t : Z)
    (prev : PipePuzzle.GameState) : PipePuzzle.GameState :=
  PipePuzzle.mkGame (PipePuzzle.grid prev) (PipePuzzle.start prev)
    (PipePuzzle.end_ prev) v (PipePuzzle.selectedTile prev) t
    (PipePuzzle.attempts prev) (PipePuzzle.moves prev)
    (PipePuzzle.rotations prev) (PipePuzzle.flips prev).

(** * What the pipe game draws

    The pure parts of [Controls], [Tile] and [GameGrid]. *)

Module PipePuzzleView.

Import PipePuzzle.

(** ** The countdown display of [Controls] *)

(** [s.padStart(n, pad)] for a pad of one character. *)
Definition padStart (n : nat) (pad : ascii) (s : string) : string :=
  String.append (string_of_list_ascii (replicate (n - String.length s) pad)) s.

(** [timeRemaining] is an integer: [Math.floor(t / 60)] is the floored
    quotient and [t % 60] the remainder with the sign of [t]. *)
Definition formattedTime (timeRemaining : Z) : string :=
  let minutes := timeRemaining / 60 in
  let seconds := padStart 2 "0" (show_Z (Z.rem timeRemaining 60)) in
  String.append (show_Z minutes) (String.append ":" seconds).

(** Reading a display back: digits, a colon, digits; the value in
    seconds. *)
Definition parseTime (str : string) : option Z :=
  let (minutes, rest) := span_digits str in
  m ← read_number minutes;
  secs ← strip_prefix ":" rest;
  s ← read_number secs;
  Some (m * 60 + s).

(** ** The arrows of a tile *)

Definition OPENING_CELL_MAP (d : Direction) : string :=
  match d with
  | UP => "0-1"
  | DOWN => "2-1"
  | LEFT => "1-0"
  | RIGHT => "1-2"
  end.

Definition TOWARD_CENTER (d : Direction) : Z :=
  match d with UP => 90 | DOWN => 270 | LEFT => 0 | RIGHT => 180 end.

Definition AWAY_CENTER (d : Direction) : Z :=
  match d with UP => 270 | DOWN => 90 | LEFT => 180 | RIGHT => 0 end.

(** [x % m] on numbers: the remainder has the sign of [x], the quotient is
    truncated towards zero. *)
Definition Qtrunc (q : Q) : Z := if Qle_bool 0 q then Qfloor q else Qceiling q.

Definition js_rem (x m : Q) : Q := (x - inject_Z (Qtrunc (x / m)) * m)%Q.

Definition midAngle (a b : Q) : Q :=
  let diff := (b - a)%Q in
  let diff := if negb (Qle_bool diff 180) then (diff - 360)%Q else diff in
  let diff := if negb (Qle_bool (-180) diff) then (diff + 360)%Q else diff in
  js_rem (a + diff / 2 + 360)%Q 360.

(** An angle handed to [ArrowSVG]: a number, or [NaN] when it was computed
    from a missing opening.  [undefined] is [None]. *)
Inductive Angle : Type :=
  | Deg (q : Q)
  | NaN.

(** [table[o]] for an opening that may be [undefined]. *)
Definition angleOf (table : Direction -> Z) (o : option Direction)
    : option Angle :=
  (fun d => Deg (inject_Z (table d))) <$> o.

(** [midAngle] on values that may be [undefined]: arithmetic on
    [undefined] gives [NaN], and both comparisons are false on [NaN]. *)
Definition midAngleOf (a b : option Angle) : Angle :=
  match a, b with
  | Some (Deg x), Some (Deg y) => Deg (midAngle x y)
  | _, _ => NaN
  end.

(** A [Map] with [set] and [get]; a key may be [undefined] ([None]). *)
Fixpoint map_set {V : Type} (k : option string) (v : V)
    (m : list (option string * V)) : list (option string * V) :=
  match m with
  | [] => [ (k, v) ]
  | (k', v') :: m' =>
      if bool_decide (k' = k) then (k, v) :: m' else (k', v') :: map_set k v m'
  end.

Definition map_get {V : Type} (k : option string)
    (m : list (option string * V)) : option V :=
  snd <$> List.find (fun kv => bool_decide (kv.1 = k)) m.

(** One of the nine sub-cells: its key and its arrow, if it has one. *)
Record SubCell : Type := mkSubCell {
  k_key : string;
  k_arrow : option Angle
}.

Definition cellKey (r c : Z) : string :=
  String.append (show_Z r) (String.append "-" (show_Z c)).

(** The [cells] of a tile that is not EMPTY. *)
Definition cells (tile : TileState) : list SubCell :=
  let o0 := t_openings tile !! 0%nat in
  let o1 := t_openings tile !! 1%nat in
  let '(angle0, angleCenter, angle1) :=
    match t_type tile with
    | STRAIGHT =>
        let flowAngle := angleOf AWAY_CENTER o1 in
        (flowAngle, flowAngle, flowAngle)
    | _ =>
        let angle0 := angleOf TOWARD_CENTER o0 in
        let angle1 := angleOf AWAY_CENTER o1 in
        (angle0, Some (midAngleOf angle0 angle1), angle1)
    end in
  let filled := map_set (OPENING_CELL_MAP <$> o0) angle0 [] in
  let filled := map_set (Some "1-1"%string) angleCenter filled in
  let filled := map_set (OPENING_CELL_MAP <$> o1) angle1 filled in
  r ← [0; 1; 2];
  c ← [0; 1; 2];
  [ mkSubCell (cellKey r c) (mjoin (map_get (Some (cellKey r c)) filled)) ].

(** [Tile]: an EMPTY tile is a plain box ([None]), any other tile shows its
    nine sub-cells. *)
Definition Tile (tile : TileState) : option (list SubCell) :=
  match t_type tile with
  | EMPTY => None
  | _ => Some (cells tile)
  end.

(** The number of arrows drawn. *)
Definition arrowCount (cs : list SubCell) : nat :=
  length (List.filter (fun k => bool_decide (is_Some (k_arrow k))) cs).

(** The arrow drawn in the sub-cell with the given key, if any. *)
Definition arrowAt (key : string) (cs : list SubCell) : option Angle :=
  k ← List.find (fun k => String.eqb (k_key k) key) cs; k_arrow k.

(** The keys of the nine sub-cells, row by row, and those of the four
    corner cells. *)
Definition cellKeys : list string :=
  [ "0-0"; "0-1"; "0-2"; "1-0"; "1-1"; "1-2"; "2-0"; "2-1"; "2-2" ]%string.

Definition cornerKeys : list string := [ "0-0"; "0-2"; "2-0"; "2-2" ]%string.

(** ** The rocket of [GameGrid] *)

Section Rocket.

(** Positions are percentages computed by [cellCenter] and by the offset
    of the entry and exit markers; the schedule does not look at them. *)
Context {A : Type}.
Variable cellCenter : Z -> Z -> A.
Variables startOffset endOffset : A.

(** The rocket effect: the position set at once, and the timeouts it
    schedules, each with its delay and the position it sets. *)
Definition rocketEffect (animating : bool) (animationPath : list PathCell)
    : option A * list (Z * A) :=
  if negb animating || (length animationPath =? 0)%nat then (None, []) else
  let waypoints :=
    startOffset :: map (fun p => cellCenter (c_row p) (c_col p)) animationPath
      ++ [ endOffset ] in
  ( Some startOffset,
    omap (fun i => (fun w => (Z.of_nat i * ANIMATION_STEP_MS, w)) <$> waypoints !! i)
         (seq 1 (length waypoints - 1)) ).

End Rocket.

End PipePuzzleView.

(** * The assessment flow of the pipe game

    The exported component [PipePuzzle]: instructions, system check, the
    three levels, the results page, and the call that saves the results.
    The game of the level in progress is the component of
    [PathfinderGame] above; it is mounted anew for every level (its [key]
    is the level index).  The webcam box is not modelled. *)

Module AssessmentFlow.

Import PipePuzzle PathfinderGame.

Inductive Step : Type := INSTRUCTIONS | SYSTEM_CHECK | GAME | RESULTS.

Record Level : Type := mkLevel {
  l_rows : Z;
  l_cols : Z;
  l_label : string
}.

Definition LEVELS : list Level :=
  [ mkLevel 3 3 "Section 1"; mkLevel 5 5 "Section 2"; mkLevel 7 7 "Section 3" ].

(** [{ level, success, ...stats }] *)
Record LevelResult : Type := mkLevelResult {
  lr_level : Z;
  lr_success : bool;
  lr_moves : Z;
  lr_rotations : Z;
  lr_flips : Z;
  lr_time : Z
}.

(** An entry of the list kept under [assessment_results] in local
    storage. *)
Record StoredEntry : Type := mkStored {
  se_timestamp : string;
  se_scores : list LevelResult
}.

(** The [useState] cells, the mounted game (if any), every [saveResults]
    call made so far with its argument, those of them that have not
    settled, and the list in local storage ([None]: the key is absent).
    The stored text is taken to be a list written by this code. *)
Record Flow : Type := mkFlow {
  f_step : Step;
  currentLevel : Z;
  results : list LevelResult;
  game : option World;
  saveCalls : list (list LevelResult);
  pendingSaves : list (list LevelResult);
  stored : option (list StoredEntry)
}.

Definition initialFlow (storage : option (list StoredEntry)) : Flow :=
  mkFlow INSTRUCTIONS 0 [] None [] [] storage.

Definition setStep (v : Step) (f : Flow) : Flow :=
  mkFlow v (currentLevel f) (results f) (game f) (saveCalls f)
    (pendingSaves f) (stored f).

Definition setCurrentLevel (v : Z) (f : Flow) : Flow :=
  mkFlow (f_step f) v (results f) (game f) (saveCalls f) (pendingSaves f)
    (stored f).

Definition setResults (v : list LevelResult) (f : Flow) : Flow :=
  mkFlow (f_step f) (currentLevel f) v (game f) (saveCalls f)
    (pendingSaves f) (stored f).

Definition setGame (v : option World) (f : Flow) : Flow :=
  mkFlow (f_step f) (currentLevel f) (results f) v (saveCalls f)
    (pendingSaves f) (stored f).

Definition setPendingSaves (v : list (list LevelResult)) (f : Flow) : Flow :=
  mkFlow (f_step f) (currentLevel f) (results f) (game f) (saveCalls f) v
    (stored f).

Definition setStored (v : option (list StoredEntry)) (f : Flow) : Flow :=
  mkFlow (f_step f) (currentLevel f) (results f) (game f) (saveCalls f)
    (pendingSaves f) v.

(** [api.saveResults(scores)] is called. *)
Definition saveResults (scores : list LevelResult) (f : Flow) : Flow :=
  mkFlow (f_step f) (currentLevel f) (results f) (game f)
    (saveCalls f ++ [scores]) (pendingSaves f ++ [scores]) (stored f).

Definition handleLevelComplete (success : bool) (st : LevelStats) (f : Flow)
    : Flow :=
  let newResults :=
    results f ++
      [ mkLevelResult (currentLevel f + 1) success (s_moves st)
          (s_rotations st) (s_flips st) (s_time st) ] in
  let f1 :=
    if currentLevel f >=? Z.of_nat (length LEVELS) - 1
    then saveResults newResults f else f in
  let f1 := setResults newResults f1 in
  if currentLevel f <? Z.of_nat (length LEVELS) - 1
  then setCurrentLevel (currentLevel f + 1) f1
  else setStep RESULTS f1.

(** The [.catch] handler of the save call. *)
Definition saveFailed (timestamp : string) (scores : list LevelResult)
    (f : Flow) : Flow :=
  let existing := default [] (stored f) in
  setStored (Some (existing ++ [ mkStored timestamp scores ])) f.

(** What an event leads to: a next state, nothing (the control is not on
    the page, or nothing of the kind can arrive), or a [TypeError]. *)
Inductive Result (A : Type) : Type :=
  | Next (a : A)
  | Disabled
  | Raises.
Arguments Next {A} a.
Arguments Disabled {A}.
Arguments Raises {A}.

(** The game step is rendered: [levelConfig = LEVELS[currentLevel]] is
    read and the game of that level is mounted. *)
Definition enterGame (f : Flow) : Result Flow :=
  match arr_get LEVELS (currentLevel f) with
  | Some levelConfig =>
      Next (setGame (Some (mount (l_rows levelConfig) (l_cols levelConfig))) f)
  | None => Raises
  end.

Inductive FlowEvent : Type :=
  | StartSystemCheck
  | Ready
  | InGame (ev : Event)
  | NextQuestion
  | SaveSettles (o : Outcome unit) (timestamp : string).

Definition flowStep (f : Flow) (ev : FlowEvent) : Result Flow :=
  match ev with
  | StartSystemCheck =>
      match f_step f with
      | INSTRUCTIONS => Next (setStep SYSTEM_CHECK f)
      | _ => Disabled
      end
  | Ready =>
      match f_step f with
      | SYSTEM_CHECK => enterGame (setStep GAME f)
      | _ => Disabled
      end
  | InGame ev' =>
      match f_step f, game f with
      | GAME, Some w =>
          match step w ev' with
          | Some w' => Next (setGame (Some w') f)
          | None => Disabled
          end
      | _, _ => Disabled
      end
  | NextQuestion =>
      match f_step f, game f with
      | GAME, Some w =>
          match nextQuestion (comp w) with
          | Some (success, st) =>
              let f' := handleLevelComplete success st f in
              match f_step f' with
              | GAME => enterGame f'
              | _ => Next (setGame None f')
              end
          | None => Disabled
          end
      | _, _ => Disabled
      end
  | SaveSettles o timestamp =>
      match pendingSaves f with
      | [] => Disabled
      | scores :: rest =>
          let f' := setPendingSaves rest f in
          match o with
          | Fulfilled _ => Next f'
          | Rejected _ => Next (saveFailed timestamp scores f')
          end
      end
  end.

Inductive flowReachable (storage : option (list StoredEntry)) : Flow -> Prop :=
  | flow_init : flowReachable storage (initialFlow storage)
  | flow_next f ev f' :
      flowReachable storage f -> flowStep f ev = Next f' ->
      flowReachable storage f'.

Fixpoint flowRun (f : Flow) (evs : list FlowEvent) : Result Flow :=
  match evs with
  | [] => Next f
  | ev :: evs' =>
      match flowStep f ev with
      | Next f' => flowRun f' evs'
      | Disabled => Disabled
      | Raises => Raises
      end
  end.

(** A recorded level: its time is within the level's duration, and a
    failed level used all of it. *)
Definition recordOk (r : LevelResult) : Prop :=
  0 <= lr_time r <= GAME_DURATION /\
  (lr_success r = false -> lr_time r = GAME_DURATION).

(** What holds of every state of the flow. *)
Definition FlowInv (f : Flow) : Prop :=
  Forall recordOk (results f) /\
  match f_step f with
  | INSTRUCTIONS | SYSTEM_CHECK =>
      currentLevel f = 0 /\ results f = [] /\ game f = None /\
      saveCalls f = [] /\ pendingSaves f = []
  | GAME =>
      (exists levelConfig w,
         arr_get LEVELS (currentLevel f) = Some levelConfig /\
         game f = Some w /\
         reachable (l_rows levelConfig) (l_cols levelConfig) w) /\
      lr_level <$> results f = roundsUpTo (currentLevel f) /\
      saveCalls f = [] /\ pendingSaves f = []
  | RESULTS =>
      lr_level <$> results f = roundsUpTo (Z.of_nat (length LEVELS)) /\
      game f = None /\ saveCalls f = [ results f ] /\
      (pendingSaves f = [] \/ pendingSaves f = [ results f ])
  end.

(** A run through the three levels: the first two won, the last one lost
    on time. *)
Definition winLevel : list FlowEvent :=
  [ InGame (StartSettles (Fulfilled sampleStart)); InGame Tick; InGame Submit;
    InGame (SubmitSettles 5000 (Fulfilled samplePath)); InGame (Clock 7000);
    NextQuestion ].

Definition loseLevel : list FlowEvent :=
  replicate 240 (InGame Tick) ++ [ NextQuestion ].

Definition sampleFlowTrace : list FlowEvent :=
  [ StartSystemCheck; Ready ] ++ winLevel ++ winLevel ++ loseLevel.

Definition sampleFlow : Flow :=
  match flowRun (initialFlow None) sampleFlowTrace with
  | Next f => f
  | _ => initialFlow None
  end.

End AssessmentFlow.

(** * The application shell (src/main.tsx)

    [App]: the welcome page, the four system checks, the launcher and the
    two games.  [runChecks] is an [async] function: it is modelled by the
    point at which each invocation in progress is waiting, together with
    the streams it holds in its local variables.  A stream returned by
    [getUserMedia] has one track for each kind of media asked for; a track
    is named by the order in which it was handed out.

    The pipe puzzle asks for the camera and the microphone once more, in
    its webcam box ([Proctoring], src/PipePuzzle.tsx): the box is part of
    this model, with the request it has pending and the stream it shows.
    Which page of the pipe puzzle shows the box is left open: it can be
    mounted and unmounted at any moment on that screen, one box at a
    time. *)

Module App.

Inductive AppScreen : Type :=
  WELCOME | SYSTEM_CHECKS | LAUNCHER | PIPE_PUZZLE | BUBBLE_SORT.

Inductive CheckStatus : Type := idle | checking | passed | failed.

Definition Track : Type := nat.
Definition MediaStream : Type := list Track.

(** An invocation of [runChecks] waiting at one of its [await]s. *)
Inductive Run : Type :=
  | AwaitVideo
  | AwaitAudio (videoStream : MediaStream)
  | AwaitSystem (videoStream audioStream : MediaStream)
  | AwaitSecure (videoStream audioStream : MediaStream)
  | AwaitFullscreen (videoStream audioStream : MediaStream).

(** A [MediaRecorder] that was created and started. *)
Record Recording : Type := mkRecording {
  rec_stream : MediaStream;
  rec_mimeType : string
}.

(** What the browser does when [startRecording] runs: whether the global
    [MediaRecorder] exists, what [isTypeSupported] answers for the first
    format, and whether [new MediaRecorder] and [start] return normally. *)
Record RecorderSupport : Type := mkSupport {
  hasMediaRecorder : bool;
  supportsVp9 : bool;
  recorderStarts : bool
}.

(** A mounted webcam box: [video.srcObject], whether the error text is
    shown, and whether its [getUserMedia] request is still pending. *)
Record Proctoring : Type := mkProctoring {
  pr_srcObject : option MediaStream;
  pr_error : bool;
  pr_pending : bool
}.

(** The [useState] cells of [App]; then the invocations of [runChecks] in
    progress, the number of tracks handed out so far, the tracks that have
    been stopped, the recorders that were started, the number of
    "Error starting recording" lines on the console and the number of
    warnings shown; then the webcam box of the pipe puzzle, if one is
    mounted, the number of requests of unmounted boxes that are still
    pending, and the tracks attached to the video element of a box after
    it was unmounted. *)
Record AppState : Type := mkApp {
  screen : AppScreen;
  mediaStream : option MediaStream;
  isLoading : bool;
  systemCheck : CheckStatus;
  videoCheck : CheckStatus;
  audioCheck : CheckStatus;
  secureBrowserCheck : CheckStatus;
  runs : list Run;
  nextTrack : nat;
  stopped : list Track;
  recordings : list Recording;
  recordingErrors : nat;
  alerts : nat;
  proctoring : option Proctoring;
  latePending : nat;
  leaked : list Track
}.

Definition initialApp : AppState :=
  mkApp WELCOME None false idle idle idle idle [] 0 [] [] 0 0 None 0 [].

Definition isPassed (c : CheckStatus) : bool :=
  match c with passed => true | _ => false end.

Definition isChecking (c : CheckStatus) : bool :=
  match c with checking => true | _ => false end.

Definition allPassed (a : AppState) : bool :=
  isPassed (systemCheck a) && isPassed (videoCheck a) &&
  isPassed (audioCheck a) && isPassed (secureBrowserCheck a).

Definition setScreen (v : AppScreen) (a : AppState) : AppState :=
  mkApp v (mediaStream a) (isLoading a) (systemCheck a) (videoCheck a)
    (audioCheck a) (secureBrowserCheck a) (runs a) (nextTrack a) (stopped a)
    (recordings a) (recordingErrors a) (alerts a) (proctoring a)
    (latePending a) (leaked a).

Definition setMediaStream (v : option MediaStream) (a : AppState) : AppState :=
  mkApp (screen a) v (isLoading a) (systemCheck a) (videoCheck a)
    (audioCheck a) (secureBrowserCheck a) (runs a) (nextTrack a) (stopped a)
    (recordings a) (recordingErrors a) (alerts a) (proctoring a)
    (latePending a) (leaked a).

Definition setIsLoading (v : bool) (a : AppState) : AppState :=
  mkApp (screen a) (mediaStream a) v (systemCheck a) (videoCheck a)
    (audioCheck a) (secureBrowserCheck a) (runs a) (nextTrack a) (stopped a)
    (recordings a) (recordingErrors a) (alerts a) (proctoring a)
    (latePending a) (leaked a).

Definition setSystemCheck (v : CheckStatus) (a : AppState) : AppState :=
  mkApp (screen a) (mediaStream a) (isLoading a) v (videoCheck a)
    (audioCheck a) (secureBrowserCheck a) (runs a) (nextTrack a) (stopped a)
    (recordings a) (recordingErrors a) (alerts a) (proctoring a)
    (latePending a) (leaked a).

Definition setVideoCheck (v : CheckStatus) (a : AppState) : AppState :=
  mkApp (screen a) (mediaStream a) (isLoading a) (systemCheck a) v
    (audioCheck a) (secureBrowserCheck a) (runs a) (nextTrack a) (stopped a)
    (recordings a) (recordingErrors a) (alerts a) (proctoring a)
    (latePending a) (leaked a).

Definition setAudioCheck (v : CheckStatus) (a : AppState) : AppState :=
  mkApp (screen a) (mediaStream a) (isLoading a) (systemCheck a)
    (videoCheck a) v (secureBrowserCheck a) (runs a) (nextTrack a)
    (stopped a) (recordings a) (recordingErrors a) (alerts a) (proctoring a)
    (latePending a) (leaked a).

Definition setSecureBrowserCheck (v : CheckStatus) (a : AppState) : AppState :=
  mkApp (screen a) (mediaStream a) (isLoading a) (systemCheck a)
    (videoCheck a) (audioCheck a) v (runs a) (nextTrack a) (stopped a)
    (recordings a) (recordingErrors a) (alerts a) (proctoring a)
    (latePending a) (leaked a).

Definition setRuns (v : list Run) (a : AppState) : AppState :=
  mkApp (screen a) (mediaStream a) (isLoading a) (systemCheck a)
    (videoCheck a) (audioCheck a) (secureBrowserCheck a) v (nextTrack a)
    (stopped a) (recordings a) (recordingErrors a) (alerts a) (proctoring a)
    (latePending a) (leaked a).

Definition setRecordings (v : list Recording) (a : AppState) : AppState :=
  mkApp (screen a) (mediaStream a) (isLoading a) (systemCheck a)
    (videoCheck a) (audioCheck a) (secureBrowserCheck a) (runs a)
    (nextTrack a) (stopped a) v (recordingErrors a) (alerts a)
    (proctoring a) (latePending a) (leaked a).

Definition setRecordingErrors (v : nat) (a : AppState) : AppState :=
  mkApp (screen a) (mediaStream a) (isLoading a) (systemCheck a)
    (videoCheck a) (audioCheck a) (secureBrowserCheck a) (runs a)
    (nextTrack a) (stopped a) (recordings a) v (alerts a) (proctoring a)
    (latePending a) (leaked a).

Definition setProctoring (v : option Proctoring) (a : AppState) : AppState :=
  mkApp (screen a) (mediaStream a) (isLoading a) (systemCheck a)
    (videoCheck a) (audioCheck a) (secureBrowserCheck a) (runs a)
    (nextTrack a) (stopped a) (recordings a) (recordingErrors a) (alerts a)
    v (latePending a) (leaked a).

Definition setLatePending (v : nat) (a : AppState) : AppState :=
  mkApp (screen a) (mediaStream a) (isLoading a) (systemCheck a)
    (videoCheck a) (audioCheck a) (secureBrowserCheck a) (runs a)
    (nextTrack a) (stopped a) (recordings a) (recordingErrors a) (alerts a)
    (proctoring a) v (leaked a).

Definition setLeaked (v : list Track) (a : AppState) : AppState :=
  mkApp (screen a) (mediaStream a) (isLoading a) (systemCheck a)
    (videoCheck a) (audioCheck a) (secureBrowserCheck a) (runs a)
    (nextTrack a) (stopped a) (recordings a) (recordingErrors a) (alerts a)
    (proctoring a) (latePending a) v.

(** [getUserMedia] resolves: the stream it returns has [count] new
    tracks. *)
Definition getUserMedia (count : nat) (a : AppState) : MediaStream * AppState :=
  ( seq (nextTrack a) count,
    mkApp (screen a) (mediaStream a) (isLoading a) (systemCheck a)
      (videoCheck a) (audioCheck a) (secureBrowserCheck a) (runs a)
      (count + nextTrack a)%nat (stopped a) (recordings a)
      (recordingErrors a) (alerts a) (proctoring a) (latePending a)
      (leaked a) ).

(** [stream.getTracks().forEach(t => t.stop())] *)
Definition stopTracks (s : MediaStream) (a : AppState) : AppState :=
  mkApp (screen a) (mediaStream a) (isLoading a) (systemCheck a)
    (videoCheck a) (audioCheck a) (secureBrowserCheck a) (runs a)
    (nextTrack a) (stopped a ++ s) (recordings a) (recordingErrors a)
    (alerts a) (proctoring a) (latePending a) (leaked a).

(** [startRecording(stream)].  The test of the format is outside the
    [try]: without a [MediaRecorder] global it raises (here [None]).
    Inside the [try] a recorder is created and started; when that throws,
    the error is logged and the function returns normally. *)
Definition startRecording (support : RecorderSupport) (s : MediaStream)
    (a : AppState) : option AppState :=
  if negb (hasMediaRecorder support) then None else
  let mimeType :=
    if supportsVp9 support then "video/webm;codecs=vp9,opus"%string
    else "video/webm;codecs=vp8,opus"%string in
  if recorderStarts support
  then Some (setRecordings (recordings a ++ [ mkRecording s mimeType ]) a)
  else Some (setRecordingErrors (S (recordingErrors a)) a).

Definition alert (a : AppState) : AppState :=
  mkApp (screen a) (mediaStream a) (isLoading a) (systemCheck a)
    (videoCheck a) (audioCheck a) (secureBrowserCheck a) (runs a)
    (nextTrack a) (stopped a) (recordings a) (recordingErrors a)
    (S (alerts a)) (proctoring a) (latePending a) (leaked a).

(** *** [runChecks], one piece per [await] *)

(** Up to the first [await]. *)
Definition runChecks (a : AppState) : AppState :=
  let a := setIsLoading true a in
  let a := setVideoCheck checking a in
  let a := setAudioCheck idle a in
  let a := setSystemCheck idle a in
  setRuns (runs a ++ [ AwaitVideo ]) a.

(** The video request settles. *)
Definition videoSettled (granted : bool) (a : AppState) : AppState * option Run :=
  if granted then
    let (videoStream, a) := getUserMedia 1 a in
    let a := setVideoCheck passed a in
    let a := setAudioCheck checking a in
    (a, Some (AwaitAudio videoStream))
  else
    (setIsLoading false (setVideoCheck failed a), None).

(** The audio request settles. *)
Definition audioSettled (videoStream : MediaStream) (granted : bool)
    (a : AppState) : AppState * option Run :=
  if granted then
    let (audioStream, a) := getUserMedia 1 a in
    let a := setAudioCheck passed a in
    let a := setSystemCheck checking a in
    (a, Some (AwaitSystem videoStream audioStream))
  else
    let a := setAudioCheck failed a in
    let a := stopTracks videoStream a in
    (setIsLoading false a, None).

(** The 800 ms are over; [hasMediaDevices] is what the browser offers. *)
Definition systemChecked (videoStream audioStream : MediaStream)
    (hasMediaDevices : bool) (a : AppState) : AppState * option Run :=
  if negb hasMediaDevices then
    let a := setSystemCheck failed a in
    let a := stopTracks videoStream a in
    let a := stopTracks audioStream a in
    (setIsLoading false a, None)
  else
    let a := setSystemCheck passed a in
    let a := setSecureBrowserCheck checking a in
    (a, Some (AwaitSecure videoStream audioStream)).

(** The end of [runChecks] after the secure-browser check has passed. *)
Definition checksPassed (videoStream audioStream : MediaStream)
    (a : AppState) : AppState :=
  let a := setSecureBrowserCheck passed a in
  let combinedStream := videoStream ++ audioStream in
  let a := setMediaStream (Some combinedStream) a in
  setIsLoading false a.

Definition secureFailed (videoStream audioStream : MediaStream)
    (a : AppState) : AppState :=
  let a := setSecureBrowserCheck failed a in
  let a := stopTracks videoStream a in
  let a := stopTracks audioStream a in
  setIsLoading false a.

(** The 100 ms are over and the confirm dialog has been answered;
    [canRequest] tells whether [requestFullscreen] exists. *)
Definition secureConfirmed (videoStream audioStream : MediaStream)
    (allowFullscreen canRequest : bool) (a : AppState) : AppState * option Run :=
  if negb allowFullscreen then (secureFailed videoStream audioStream a, None)
  else if canRequest then (a, Some (AwaitFullscreen videoStream audioStream))
  else (checksPassed videoStream audioStream a, None).

(** The full-screen request settles. *)
Definition fullscreenSettled (videoStream audioStream : MediaStream)
    (entered : bool) (a : AppState) : AppState * option Run :=
  if entered then (checksPassed videoStream audioStream a, None)
  else (secureFailed videoStream audioStream a, None).

(** [None]: [startRecording] raised, and [setScreen] was not reached. *)
Definition proceedToAssessment (support : RecorderSupport) (a : AppState)
    : option AppState :=
  if allPassed a then
    match mediaStream a with
    | Some s => a' ← startRecording support s a; Some (setScreen LAUNCHER a')
    | None => Some a
    end
  else Some a.

Definition handleVisibilityChange (hidden : bool) (a : AppState) : AppState :=
  if hidden then
    match screen a with
    | LAUNCHER | PIPE_PUZZLE | BUBBLE_SORT => alert a
    | _ => a
    end
  else a.

(** *** The webcam box of the pipe puzzle *)

(** The mount effect of [Proctoring]: the request is sent. *)
Definition mountProctoring (a : AppState) : AppState :=
  setProctoring (Some (mkProctoring None false true)) a.

(** The request of the mounted box settles: the stream, with a video and
    an audio track, becomes [video.srcObject]; a refusal sets the error
    text. *)
Definition webcamSettled (granted : bool) (p : Proctoring) (a : AppState)
    : AppState :=
  if granted then
    let (stream, a) := getUserMedia 2 a in
    setProctoring (Some (mkProctoring (Some stream) (pr_error p) false)) a
  else
    setProctoring (Some (mkProctoring (pr_srcObject p) true false)) a.

(** The cleanup of the mount effect: the tracks of [video.srcObject] are
    stopped if there is one.  A request that is still pending stays
    pending. *)
Definition unmountProctoring (a : AppState) : AppState :=
  match proctoring a with
  | None => a
  | Some p =>
      let a := match pr_srcObject p with
               | Some s => stopTracks s a
               | None => a
               end in
      let a := if pr_pending p then setLatePending (S (latePending a)) a
               else a in
      setProctoring None a
  end.

(** The request of a box that has been unmounted settles: the stream is
    attached to the video element the effect captured, and nothing stops
    it; a refusal sets the state of an unmounted component, which has no
    effect. *)
Definition lateWebcamSettled (granted : bool) (a : AppState) : AppState :=
  let a := setLatePending (pred (latePending a)) a in
  if granted then
    let (stream, a) := getUserMedia 2 a in
    setLeaked (leaked a ++ stream) a
  else a.

(** *** Events *)

Inductive Event : Type :=
  | TakeTest
  | RunChecks
  | VideoSettles (granted : bool)
  | AudioSettles (granted : bool)
  | SystemDelayOver (hasMediaDevices : bool)
  | SecureDelayOver (allowFullscreen canRequest : bool)
  | FullscreenSettles (entered : bool)
  | Proceed (support : RecorderSupport)
  | OpenPipePuzzle
  | OpenBubbleSort
  | Back
  | VisibilityChange (hidden : bool)
  | ProctoringMounts
  | ProctoringUnmounts
  | WebcamSettles (granted : bool)
  | LateWebcamSettles (granted : bool)
  | Reload.

(** The oldest invocation waiting at the given kind of [await] resumes
    with [k]; [None] when there is none. *)
Fixpoint resume (k : Run -> option (AppState -> AppState * option Run))
    (before after : list Run) (a : AppState) : option AppState :=
  match after with
  | [] => None
  | r :: after' =>
      match k r with
      | Some continue =>
          let (a', next) := continue a in
          Some (setRuns (before ++ match next with
                                   | Some r' => r' :: after'
                                   | None => after'
                                   end) a')
      | None => resume k (before ++ [r]) after' a
      end
  end.

Definition anyChecking (a : AppState) : bool :=
  isChecking (systemCheck a) || isChecking (videoCheck a) ||
  isChecking (audioCheck a) || isChecking (secureBrowserCheck a).

(** [None]: the control is not on the page or is disabled, or nothing is
    waiting for what arrives.  The way back from the bubble game is offered
    by that game on its last page only; here it is open on the whole
    screen, which allows more than the page does.  A handler that raises
    leaves the state as it was.  Leaving the pipe puzzle unmounts its
    webcam box; reloading the page starts the application afresh, and the
    browser releases what the old page held. *)
Definition step (a : AppState) (ev : Event) : option AppState :=
  match ev with
  | TakeTest =>
      match screen a with
      | WELCOME => Some (setScreen SYSTEM_CHECKS a)
      | _ => None
      end
  | RunChecks =>
      match screen a with
      | SYSTEM_CHECKS =>
          if negb (allPassed a) && negb (anyChecking a)
          then Some (runChecks a) else None
      | _ => None
      end
  | VideoSettles granted =>
      resume (fun r => match r with
                       | AwaitVideo => Some (videoSettled granted)
                       | _ => None
                       end) [] (runs a) a
  | AudioSettles granted =>
      resume (fun r => match r with
                       | AwaitAudio v => Some (audioSettled v granted)
                       | _ => None
                       end) [] (runs a) a
  | SystemDelayOver hasMediaDevices =>
      resume (fun r => match r with
                       | AwaitSystem v s => Some (systemChecked v s hasMediaDevices)
                       | _ => None
                       end) [] (runs a) a
  | SecureDelayOver allowFullscreen canRequest =>
      resume (fun r => match r with
                       | AwaitSecure v s =>
                           Some (secureConfirmed v s allowFullscreen canRequest)
                       | _ => None
                       end) [] (runs a) a
  | FullscreenSettles entered =>
      resume (fun r => match r with
                       | AwaitFullscreen v s => Some (fullscreenSettled v s entered)
                       | _ => None
                       end) [] (runs a) a
  | Proceed support =>
      match screen a with
      | SYSTEM_CHECKS =>
          if allPassed a && negb (isLoading a)
          then Some (default a (proceedToAssessment support a)) else None
      | _ => None
      end
  | OpenPipePuzzle =>
      match screen a with
      | LAUNCHER => Some (setScreen PIPE_PUZZLE a)
      | _ => None
      end
  | OpenBubbleSort =>
      match screen a with
      | LAUNCHER => Some (setScreen BUBBLE_SORT a)
      | _ => None
      end
  | Back =>
      match screen a with
      | PIPE_PUZZLE => Some (setScreen LAUNCHER (unmountProctoring a))
      | BUBBLE_SORT => Some (setScreen LAUNCHER a)
      | _ => None
      end
  | VisibilityChange hidden => Some (handleVisibilityChange hidden a)
  | ProctoringMounts =>
      match screen a, proctoring a with
      | PIPE_PUZZLE, None => Some (mountProctoring a)
      | _, _ => None
      end
  | ProctoringUnmounts =>
      match proctoring a with
      | Some _ => Some (unmountProctoring a)
      | None => None
      end
  | WebcamSettles granted =>
      match proctoring a with
      | Some p => if pr_pending p then Some (webcamSettled granted p a) else None
      | None => None
      end
  | LateWebcamSettles granted =>
      match latePending a with
      | O => None
      | S _ => Some (lateWebcamSettled granted a)
      end
  | Reload => Some initialApp
  end.

Fixpoint run (a : AppState) (evs : list Event) : option AppState :=
  match evs with
  | [] => Some a
  | ev :: evs' => a' ← step a ev; run a' evs'
  end.

Inductive reachable : AppState -> Prop :=
  | reachable_init : reachable initialApp
  | reachable_next a ev a' : reachable a -> step a ev = Some a' -> reachable a'.

(** The tracks handed out so far that have not been stopped. *)
Definition liveTracks (a : AppState) : list Track :=
  List.filter (fun t => negb (bool_decide (t ∈ stopped a))) (seq 0 (nextTrack a)).

(** The streams an invocation in progress holds. *)
Definition held (r : Run) : list Track :=
  match r with
  | AwaitVideo => []
  | AwaitAudio v => v
  | AwaitSystem v s | AwaitSecure v s | AwaitFullscreen v s => v ++ s
  end.

(** The tracks the checks use: those the invocation in progress holds, or
    those of [mediaStream] when none is in progress. *)
Definition holding (a : AppState) : list Track :=
  match runs a with
  | r :: _ => held r
  | [] => default [] (mediaStream a)
  end.

(** The tracks shown in the mounted webcam box. *)
Definition webcam (a : AppState) : list Track :=
  match proctoring a with
  | Some p => default [] (pr_srcObject p)
  | None => []
  end.

(** Every track handed out is in exactly one of four places: held by the
    checks, shown in the webcam box, attached to an unmounted box, or
    stopped. *)
Definition tracksOk (H W L S : list Track) (n : nat) : Prop :=
  (forall t, t ∈ H \/ t ∈ W \/ t ∈ L \/ t ∈ S -> (t < n)%nat) /\
  (forall t, (t < n)%nat -> (t ∈ S <-> ~ (t ∈ H \/ t ∈ W \/ t ∈ L))) /\
  (forall t, t ∈ H -> (t ∉ W) /\ (t ∉ L)) /\
  (forall t, t ∈ W -> t ∉ L).

(** What the four statuses are while an invocation waits, and when none
    is in progress. *)
Definition statusesAt (r : option Run) (a : AppState) : Prop :=
  match r with
  | Some AwaitVideo =>
      videoCheck a = checking /\ audioCheck a = idle /\ systemCheck a = idle /\
      secureBrowserCheck a <> checking /\ secureBrowserCheck a <> passed
  | Some (AwaitAudio _) =>
      videoCheck a = passed /\ audioCheck a = checking /\ systemCheck a = idle /\
      secureBrowserCheck a <> checking /\ secureBrowserCheck a <> passed
  | Some (AwaitSystem _ _) =>
      videoCheck a = passed /\ audioCheck a = passed /\
      systemCheck a = checking /\
      secureBrowserCheck a <> checking /\ secureBrowserCheck a <> passed
  | Some (AwaitSecure _ _) | Some (AwaitFullscreen _ _) =>
      videoCheck a = passed /\ audioCheck a = passed /\
      systemCheck a = passed /\ secureBrowserCheck a = checking
  | None =>
      anyChecking a = false /\
      (secureBrowserCheck a = passed -> allPassed a = true)
  end.

(** [startRecording] has run once, on the combined stream: either a
    recorder was started on it, or its failure was logged. *)
Definition recordingAttempted (a : AppState) : Prop :=
  exists s, mediaStream a = Some s /\
    ((exists mimeType, recordings a = [ mkRecording s mimeType ]) /\
       recordingErrors a = 0%nat \/
     recordings a = [] /\ recordingErrors a = 1%nat).

(** What holds of every state of the application. *)
Definition AppInv (a : AppState) : Prop :=
  (runs a = [] \/ exists r, runs a = [r]) /\
  statusesAt (head (runs a)) a /\
  (isLoading a = negb (bool_decide (runs a = []))) /\
  (allPassed a = true <-> is_Some (mediaStream a)) /\
  (runs a <> [] -> screen a = SYSTEM_CHECKS) /\
  match screen a with
  | WELCOME | SYSTEM_CHECKS =>
      recordings a = [] /\ recordingErrors a = 0%nat /\
      proctoring a = None /\ latePending a = 0%nat /\ leaked a = []
  | LAUNCHER | BUBBLE_SORT => recordingAttempted a /\ proctoring a = None
  | PIPE_PUZZLE => recordingAttempted a
  end /\
  (forall p, proctoring a = Some p -> pr_pending p = true ->
             pr_srcObject p = None) /\
  tracksOk (holding a) (webcam a) (leaked a) (stopped a) (nextTrack a).

(** A browser in which the recorder works. *)
Definition workingRecorder : RecorderSupport := mkSupport true true true.

(** The checks pass at the second attempt, after the microphone was
    refused at the first. *)
Definition sampleChecks : list Event :=
  [ TakeTest; RunChecks; VideoSettles true; AudioSettles false;
    RunChecks; VideoSettles true; AudioSettles true; SystemDelayOver true;
    SecureDelayOver true true; FullscreenSettles true ].

Definition sampleApp : AppState :=
  default initialApp
    (run initialApp (sampleChecks ++ [ Proceed workingRecorder; OpenBubbleSort ])).

(** The pipe puzzle is opened, its webcam box is mounted, and the user
    goes back before the request of the box is answered; the answer
    arrives on the launcher. *)
Definition sampleLateWebcam : list Event :=
  sampleChecks ++
  [ Proceed workingRecorder; OpenPipePuzzle; ProctoringMounts; Back;
    LateWebcamSettles true ].

(** The same visit with the request answered while the box is shown. *)
Definition sampleWebcam : list Event :=
  sampleChecks ++
  [ Proceed workingRecorder; OpenPipePuzzle; ProctoringMounts;
    WebcamSettles true ].

End App.

(** * Properties of the local engine *)

(** ** Range of the random draws *)

Section RandomFacts.

Variable random : nat -> Q.
Hypothesis random_unit : unit_interval random.

Lemma randomBelow_range n k :
  0 < n -> 0 <= (randomBelow random n k).1 < n.
Proof.
  intros Hn.
  change ((randomBelow random n k).1) with (Qfloor (random k * inject_Z n)).
  destruct (random_unit k) as [H0 H1].
  assert (Hq : (0 < inject_Z n)%Q)
    by (change (inject_Z 0 < inject_Z n)%Q; rewrite <- Zlt_Qlt; exact Hn).
  split.
  - change 0 with (Qfloor (inject_Z 0)).
    apply Qfloor_resp_le, Qmult_le_0_compat;
      [exact H0 | apply Qlt_le_weak; exact Hq].
  - pose proof (Qmult_lt_compat_r _ _ _ Hq H1) as Hlt.
    rewrite Qmult_1_l in Hlt.
    pose proof (Qfloor_le (random k * inject_Z n)) as Hfl.
    rewrite Zlt_Qlt. eapply Qle_lt_trans; eassumption.
Qed.

Lemma randomInt_range lo hi k :
  lo <= hi -> lo <= (randomInt random lo hi k).1 <= hi.
Proof.
  intros Hle.
  pose proof (randomBelow_range (hi - lo + 1) k ltac:(lia)) as Hr.
  change ((randomInt random lo hi k).1)
    with ((randomBelow random (hi - lo + 1) k).1 + lo).
  lia.
Qed.

End RandomFacts.

(** ** Printing and reading numbers *)

Lemma span_digits_uint d c rest :
  is_digit c = false ->
  span_digits (NilEmpty.string_of_uint d ++ String c rest) =
    (NilEmpty.string_of_uint d, String c rest).
Proof.
  intros Hc. induction d; simpl; rewrite ?IHd; try reflexivity.
  rewrite Hc. reflexivity.
Qed.

Lemma show_Z_nonneg a :
  0 <= a ->
  exists u, u <> Decimal.Nil /\ show_Z a = NilEmpty.string_of_uint u /\
            Z.of_uint u = a.
Proof.
  intros Ha. destruct a as [|p|p]; [| |lia].
  - exists (Decimal.D0 Decimal.Nil). repeat split; discriminate.
  - exists (Pos.to_uint p). split; [apply Unsigned.to_uint_nonnil|]. split.
    + unfold show_Z. simpl.
      pose proof (Unsigned.to_uint_nonnil p) as Hn.
      destruct (Pos.to_uint p); [congruence | reflexivity ..].
    + unfold Z.of_uint. rewrite Unsigned.of_to. reflexivity.
Qed.

Lemma read_number_uint u :
  u <> Decimal.Nil ->
  read_number (NilEmpty.string_of_uint u) = Some (Z.of_uint u).
Proof.
  intros Hu. unfold read_number.
  replace (NilZero.uint_of_string (NilEmpty.string_of_uint u))
    with (NilEmpty.uint_of_string (NilEmpty.string_of_uint u))
    by (destruct u; [congruence | reflexivity ..]).
  rewrite NilEmpty.usu. reflexivity.
Qed.

Lemma read_operator_symbol op rest :
  read_operator (operatorSymbol op ++ rest) = Some (op, rest).
Proof. destruct op; reflexivity. Qed.

Lemma operatorSymbol_head op rest :
  exists c rest', (operatorSymbol op ++ rest)%string = String c rest' /\
                  is_digit c = false.
Proof. destruct op; simpl; eexists _, _; split; reflexivity. Qed.

Lemma parseExpression_template a op b :
  0 <= a -> 0 <= b -> parseExpression (template a op b) = Some (a, op, b).
Proof.
  intros Ha Hb.
  destruct (show_Z_nonneg a Ha) as (ua & Hua & Hsa & Hva).
  destruct (show_Z_nonneg b Hb) as (ub & Hub & Hsb & Hvb).
  destruct (operatorSymbol_head op (show_Z b)) as (c & rest' & Hhd & Hc).
  unfold parseExpression, template.
  rewrite Hsa, Hhd, (span_digits_uint ua c rest' Hc), <- Hhd.
  rewrite (read_number_uint ua Hua). simpl.
  rewrite read_operator_symbol. simpl.
  rewrite Hsb, (read_number_uint ub Hub). simpl.
  rewrite Hva, Hvb. reflexivity.
Qed.

(** ** The expression generator *)

Section GeneratorFacts.

Variable random : nat -> Q.
Hypothesis random_unit : unit_interval random.

Lemma generateAddition_wellFormed maxNum k :
  2 <= maxNum -> wellFormed maxNum (generateAddition random maxNum k).1.
Proof.
  intros Hm. unfold generateAddition, rbind.
  pose proof (randomInt_range random random_unit 1 maxNum k ltac:(lia)) as Ha.
  destruct (randomInt random 1 maxNum k) as [a k1].
  pose proof (randomInt_range random random_unit 1 maxNum k1 ltac:(lia)) as Hb.
  destruct (randomInt random 1 maxNum k1) as [b k2].
  simpl in *. exists a, OpAdd, b. repeat split; try lia; discriminate.
Qed.

Lemma generateExpression_wellFormed ops maxNum k :
  2 <= maxNum -> wellFormed maxNum (generateExpression random ops maxNum k).1.
Proof.
  intros Hm. unfold generateExpression, rbind at 1.
  destruct (randomBelow random (Z.of_nat (length ops)) k) as [idx k0].
  destruct (arr_get ops idx) as [[]|]; unfold rbind.
  - apply generateAddition_wellFormed; exact Hm.
  - pose proof (randomInt_range random random_unit 2 maxNum k0 ltac:(lia)) as Ha.
    destruct (randomInt random 2 maxNum k0) as [a k1]. simpl in Ha.
    pose proof (randomInt_range random random_unit 0 a k1 ltac:(lia)) as Hb.
    destruct (randomInt random 0 a k1) as [b k2].
    simpl in *. exists a, OpSub, b. repeat split; try lia; discriminate.
  - pose proof (randomInt_range random random_unit 1 (Z.min maxNum 12) k0
                  ltac:(lia)) as Ha.
    destruct (randomInt random 1 (Z.min maxNum 12) k0) as [a k1].
    pose proof (randomInt_range random random_unit 1 (Z.min maxNum 9) k1
                  ltac:(lia)) as Hb.
    destruct (randomInt random 1 (Z.min maxNum 9) k1) as [b k2].
    simpl in *. exists a, OpMul, b. repeat split; try lia; discriminate.
  - pose proof (randomInt_range random random_unit 2 (Z.min maxNum 10) k0
                  ltac:(lia)) as Hb.
    destruct (randomInt random 2 (Z.min maxNum 10) k0) as [b k1].
    pose proof (randomInt_range random random_unit 1 (Z.min maxNum 12) k1
                  ltac:(lia)) as Hv.
    destruct (randomInt random 1 (Z.min maxNum 12) k1) as [v k2].
    simpl in *. exists (b * v), OpDiv, b.
    split; [reflexivity|]. split; [apply Z.mul_nonneg_nonneg; lia|].
    split; [lia|]. simpl. split.
    + unfold applyOperator.
      destruct (Z.eqb_spec b 0) as [->|_]; [lia|].
      rewrite Z.mul_comm, Z_mod_mult, Z_div_mult by lia. reflexivity.
    + intros _. lia.
  - apply generateAddition_wellFormed; exact Hm.
Qed.

End GeneratorFacts.

(** ** The slot loop *)

Section SlotFacts.

Variable random : nat -> Q.

Lemma fillSlots_S n config layout i used acc k :
  fillSlots random (S n) config layout i used acc k =
    let (r, k1) :=
      retryLoop random 49 (operators config) (maxNumber config) used 0 k in
    match layout ≫= (fun l => arr_get l i) with
    | None => (None, k1)
    | Some spot =>
        fillSlots random n config layout (i + 1) ({[ e_value r.1 ]} ∪ used)
          (acc ++ [ (mkBubble i (e_expression r.1) (e_value r.1) false
                       (x spot) (y spot) (s spot), r.2) ]) k1
    end.
Proof.
  cbn [fillSlots]. unfold rbind.
  destruct (retryLoop random 49 (operators config) (maxNumber config) used 0 k)
    as [r k1].
  destruct (layout ≫= (fun l => arr_get l i)); reflexivity.
Qed.

Lemma retryLoop_attempts budget ops maxNum used attempts k :
  attempts + Z.of_nat budget = 49 -> 0 <= attempts ->
  let r := (retryLoop random budget ops maxNum used attempts k).1 in
  attempts < r.2 <= 50 /\ (e_value r.1 ∈ used -> r.2 = 50).
Proof.
  revert attempts k. induction budget as [|budget IH]; intros attempts k Hb Ha;
    simpl; unfold rbind;
    destruct (generateExpression random ops maxNum k) as [e k1];
    destruct (bool_decide_reflect (e_value e ∈ used)) as [Hin|Hin]; simpl.
  - destruct (Z.ltb_spec (attempts + 1) 50); simpl; split; auto; lia.
  - destruct (Z.ltb_spec (attempts + 1) 50); simpl; split; try lia; tauto.
  - destruct (Z.ltb_spec (attempts + 1) 50) as [Hlt|Hge]; simpl.
    + specialize (IH (attempts + 1) k1 ltac:(lia) ltac:(lia)).
      simpl in IH. split; [lia | tauto].
    + lia.
  - split; [lia | tauto].
Qed.

Lemma retryLoop_preserves (P : Expr -> Prop) ops maxNum :
  (forall k, P (generateExpression random ops maxNum k).1) ->
  forall budget used attempts k,
    P (retryLoop random budget ops maxNum used attempts k).1.1.
Proof.
  intros HP. induction budget as [|budget IH]; intros used attempts k;
    simpl; unfold rbind; specialize (HP k);
    destruct (generateExpression random ops maxNum k) as [e k1];
    destruct (_ && _); simpl; auto.
Qed.

Lemma fillSlots_Some (P : Expr -> Prop) config :
  (forall k, P (generateExpression random (operators config)
                  (maxNumber config) k).1) ->
  forall n layout i used acc k log k',
    fillSlots random n config layout i used acc k = (Some log, k') ->
    exists new, log = acc ++ new /\ length new = n /\ slotsFrom P i used new.
Proof.
  intros HP. induction n as [|n IH]; intros layout i used acc k log k' Hfill.
  - simpl in Hfill. injection Hfill as <- _. exists [].
    rewrite app_nil_r. repeat split.
  - rewrite fillSlots_S in Hfill.
    pose proof (retryLoop_attempts 49 (operators config) (maxNumber config)
                  used 0 k eq_refl ltac:(lia)) as [Hrange Hcap].
    pose proof (retryLoop_preserves P _ _ HP 49%nat used 0 k) as HPe.
    destruct (retryLoop random 49 (operators config) (maxNumber config) used 0 k)
      as [[e a] k1].
    cbn [fst snd] in *.
    destruct (layout ≫= (fun l => arr_get l i)) as [spot|];
      [|discriminate Hfill].
    apply IH in Hfill as (new & -> & Hlen & Hslots).
    eexists (_ :: new). rewrite <- app_assoc. split; [reflexivity|].
    split; [simpl; lia|]. simpl.
    repeat split; try lia; try assumption.
    unfold exprOf; simpl. destruct e; exact HPe.
Qed.

Lemma fillSlots_total n config l i used acc k :
  0 <= i -> (Z.to_nat i + n <= length l)%nat ->
  exists log k', fillSlots random n config (Some l) i used acc k = (Some log, k').
Proof.
  revert i used acc k. induction n as [|n IH]; intros i used acc k Hi Hlen.
  - simpl. eexists _, _. reflexivity.
  - rewrite fillSlots_S.
    destruct (retryLoop random 49 (operators config) (maxNumber config) used 0 k)
      as [[e a] k1].
    cbn [fst snd mbind option_bind]. unfold arr_get at 1.
    destruct (Z.ltb_spec i 0) as [?|_]; [lia|].
    destruct (lookup_lt_is_Some_2 l (Z.to_nat i) ltac:(lia)) as [spot ->].
    apply IH; lia.
Qed.

Lemma layout_defined round :
  1 <= round ->
  exists l,
    arr_get SCATTER_POSITIONS
      (Z.rem (round - 1) (Z.of_nat (length SCATTER_POSITIONS))) = Some l /\
    length l = 3%nat.
Proof.
  intros Hr.
  pose proof (Z.rem_bound_pos (round - 1) 4 ltac:(lia) ltac:(lia)) as Hb.
  change (Z.of_nat (length SCATTER_POSITIONS)) with 4.
  assert (Hc : Z.rem (round - 1) 4 = 0 \/ Z.rem (round - 1) 4 = 1 \/
               Z.rem (round - 1) 4 = 2 \/ Z.rem (round - 1) 4 = 3) by lia.
  destruct Hc as [-> | [-> | [-> | ->]]]; eexists; split; reflexivity.
Qed.

Lemma generateBubblesLog_Some config round k :
  0 <= bubbleCount config <= 3 -> 1 <= round ->
  exists log k',
    generateBubblesLog random config round k = (Some log, k') /\
    length log = Z.to_nat (bubbleCount config) /\
    slotsFrom (fun _ => True) 0 ∅ log.
Proof.
  intros Hc Hr. unfold generateBubblesLog.
  destruct (layout_defined round Hr) as (l & -> & Hl).
  destruct (fillSlots_total (Z.to_nat (bubbleCount config)) config l 0 ∅ [] k
              ltac:(lia) ltac:(lia)) as (log & k' & Hfill).
  exists log, k'. split; [exact Hfill|].
  apply (fillSlots_Some (fun _ => True)) in Hfill as (new & -> & Hlen & Hs);
    [|trivial].
  split; [exact Hlen | exact Hs].
Qed.

End SlotFacts.

(** ** Consequences for the generated round *)

Lemma sampleRandom_unit : unit_interval sampleRandom.
Proof.
  intros k. unfold sampleRandom.
  destruct (k mod 5)%nat as [|[|[|[|n]]]]; split; reflexivity || discriminate.
Qed.

Lemma slotsFrom_Forall (P : Expr -> Prop) i used log :
  slotsFrom P i used log -> Forall (fun b => P (exprOf b)) log.*1.
Proof.
  revert i used. induction log as [|[b a] log IH]; intros i used Hs.
  - constructor.
  - destruct Hs as (_ & _ & HP & _ & _ & Hrest).
    constructor; [exact HP | eapply IH; exact Hrest].
Qed.



Lemma slotsFrom_ids (P : Expr -> Prop) i used log j slot :
  slotsFrom P i used log -> log !! j = Some slot ->
  b_id slot.1 = i + Z.of_nat j /\ b_selected slot.1 = false.
Proof.
  revert i used j. induction log as [|[b a] log IH]; intros i used j Hs Hj.
  - discriminate Hj.
  - destruct Hs as (Hid & Hsel & _ & _ & _ & Hrest).
    destruct j as [|j]; simpl in Hj.
    + injection Hj as <-. simpl. split; [lia | exact Hsel].
    + destruct (IH _ _ _ Hrest Hj) as [Hid' Hsel']. split; [lia | exact Hsel'].
Qed.

Lemma generateBubbles_log random config round k :
  generateBubbles random config round k =
    ((fmap (M:=list) fst <$> (generateBubblesLog random config round k).1),
     (generateBubblesLog random config round k).2).
Proof.
  unfold generateBubbles, rbind, rret.
  destruct (generateBubblesLog random config round k). reflexivity.
Qed.

(** C6: every generated stimulus displays an expression that evaluates to
    its stored value; a stimulus displayed as a division has its divisor in
    [2, min(maxNumber, 10)], its quotient (the stored value) in
    [1, min(maxNumber, 12)] and its dividend equal to divisor times
    quotient.  Stated for every configuration with [maxNumber >= 2], which
    covers the whole difficulty table. *)
Theorem C6_displayed_expression_evaluates_to_value
    random config round k bs k' :
  unit_interval random ->
  2 <= maxNumber config ->
  generateBubbles random config round k = (Some bs, k') ->
  Forall (fun b =>
            evalExpression (b_expression b) = Some (b_value b) /\
            forall dividend divisor,
              parseExpression (b_expression b) =
                Some (dividend, OpDiv, divisor) ->
              2 <= divisor <= Z.min (maxNumber config) 10 /\
              1 <= b_value b <= Z.min (maxNumber config) 12 /\
              dividend = divisor * b_value b) bs.
Proof.
  intros Hunit Hmax Hgen.
  rewrite generateBubbles_log in Hgen.
  unfold generateBubblesLog in Hgen.
  destruct (fillSlots _ _ _ _ _ _ _ _) as [[log|] k1] eqn:Hfill;
    [|discriminate Hgen].
  injection Hgen as <- _.
  apply (fillSlots_Some random (wellFormed (maxNumber config))) in Hfill
    as (new & -> & _ & Hslots);
    [|intros k0; apply generateExpression_wellFormed; assumption].
  apply slotsFrom_Forall in Hslots. simpl.
  eapply Forall_impl; [exact Hslots|].
  intros b (a & op & d & Hexpr & Ha & Hd & Happ & Hdiv). simpl in *.
  pose proof (parseExpression_template a op d Ha Hd) as Hparse.
  rewrite <- Hexpr in Hparse. split.
  - unfold evalExpression. rewrite Hparse. exact Happ.
  - intros dividend divisor Hp. rewrite Hparse in Hp.
    injection Hp as -> -> ->. apply Hdiv. reflexivity.
Qed.

Lemma C6_displayed_expression_witness :
  Forall (fun b =>
            evalExpression (b_expression b) = Some (b_value b) /\
            forall dividend divisor,
              parseExpression (b_expression b) =
                Some (dividend, OpDiv, divisor) ->
              2 <= divisor <= Z.min 20 10 /\
              1 <= b_value b <= Z.min 20 12 /\
              dividend = divisor * b_value b)
         [ mkBubble 0 "14÷2" 7 false 50 20 130;
           mkBubble 1 "50÷5" 10 false 28 58 130;
           mkBubble 2 "11+19" 30 false 72 58 130 ].
Proof.
  apply (C6_displayed_expression_evaluates_to_value sampleRandom
           (mkConfig 3 [OpAdd; OpSub; OpMul; OpDiv] 20 ROUND_TIME) 1 0%nat
           _ 9%nat sampleRandom_unit).
  - simpl. lia.
  - vm_compute. reflexivity.
Defined.



(** With the stuck source the second and third slot exhaust the cap: the
    duplicates are accepted and the round still has its three stimuli. *)
Example cap_exhausted_round :
  (generateBubblesLog stuckRandom (mkConfig 3 [OpAdd] 20 ROUND_TIME) 1 0%nat).1 =
    Some [ (mkBubble 0 "1+1" 2 false 50 20 130, 1);
           (mkBubble 1 "1+1" 2 false 28 58 130, 50);
           (mkBubble 2 "1+1" 2 false 72 58 130, 50) ].
Proof. vm_compute. reflexivity. Qed.

(** ** The stable sort of the scorer *)

Lemma sortInsert_nonnil {A} (cmp : A -> A -> Z) a l : sortInsert cmp a l <> [].
Proof. destruct l as [|b l]; simpl; [|destruct (_ <=? _)]; discriminate. Qed.

Lemma sort_nil_inv {A} (cmp : A -> A -> Z) l : sort cmp l = [] -> l = [].
Proof.
  destruct l as [|a l]; [reflexivity|]. simpl. intros H.
  apply sortInsert_nonnil in H. contradiction.
Qed.

(** The head of the sorted list is the first element of least value. *)
Lemma sort_head_first_least l h t :
  sort byValue l = h :: t ->
  exists l1 l2,
    l = l1 ++ h :: l2 /\
    (forall u, u ∈ l1 -> b_value h < b_value u) /\
    (forall u, u ∈ l2 -> b_value h <= b_value u).
Proof.
  revert h t. induction l as [|a l IH]; intros h t Hs; [discriminate Hs|].
  simpl in Hs. destruct (sort byValue l) as [|h' t'] eqn:Hl.
  - apply sort_nil_inv in Hl. subst l. simpl in Hs. injection Hs as <- <-.
    exists [], []. repeat split; intros u Hu; inversion Hu.
  - destruct (IH h' t' eq_refl) as (l1 & l2 & -> & H1 & H2).
    simpl in Hs. unfold byValue at 1 in Hs.
    destruct (Z.leb_spec (b_value a - b_value h') 0) as [Hle|Hgt].
    + injection Hs as <- <-. exists [], (l1 ++ h' :: l2).
      split; [reflexivity|]. split; [intros u Hu; inversion Hu|].
      intros u Hu. apply elem_of_app in Hu as [Hu|Hu].
      * specialize (H1 u Hu). lia.
      * apply elem_of_cons in Hu as [->|Hu]; [lia|].
        specialize (H2 u Hu). lia.
    + injection Hs as <- <-. exists (a :: l1), l2.
      split; [reflexivity|]. split; [|exact H2].
      intros u Hu. apply elem_of_cons in Hu as [->|Hu]; [lia|].
      apply H1, Hu.
Qed.

Lemma filter_split {A} (f : A -> bool) l l1 h l2 :
  List.filter f l = l1 ++ h :: l2 ->
  exists L1 L2,
    l = L1 ++ h :: L2 /\ List.filter f L1 = l1 /\ List.filter f L2 = l2 /\
    f h = true.
Proof.
  revert l1. induction l as [|a l IH]; intros l1 Hf.
  - destruct l1; discriminate Hf.
  - simpl in Hf. destruct (f a) eqn:Hfa.
    + destruct l1 as [|a' l1]; simpl in Hf.
      * injection Hf as -> Hf. exists [], l. repeat split; assumption.
      * injection Hf as -> Hf. destruct (IH _ Hf) as (L1 & L2 & -> & H1 & H2 & Hh).
        exists (a' :: L1), L2. simpl. rewrite Hfa, H1. repeat split; assumption.
    + destruct (IH _ Hf) as (L1 & L2 & -> & H1 & H2 & Hh).
      exists (a :: L1), L2. simpl. rewrite Hfa. repeat split; assumption.
Qed.

Lemma elem_of_unselectedOf u l :
  u ∈ unselectedOf l <-> u ∈ l /\ b_selected u = false.
Proof.
  unfold unselectedOf. rewrite !list_elem_of_In, List.filter_In.
  destruct (b_selected u); simpl; intuition congruence.
Qed.

Lemma sort_head_firstMinimum l h t :
  sort byValue (unselectedOf l) = h :: t -> firstMinimum h l.
Proof.
  intros Hs.
  destruct (sort_head_first_least _ _ _ Hs) as (l1 & l2 & Hl & H1 & H2).
  destruct (filter_split _ _ _ _ _ Hl) as (L1 & L2 & -> & <- & <- & Hh).
  exists L1, L2. split; [reflexivity|].
  split; [destruct (b_selected h); [discriminate Hh | reflexivity]|].
  split; intros u Hu Hsel.
  - apply H1, elem_of_unselectedOf. split; assumption.
  - apply H2, elem_of_unselectedOf. split; assumption.
Qed.

Lemma app_cons_cases {A} (l1 l2 l1' l2' : list A) b b' :
  l1 ++ b :: l2 = l1' ++ b' :: l2' ->
  (l1 = l1' /\ b = b' /\ l2 = l2') \/
  (b ∈ l1' /\ b' ∈ l2) \/ (b' ∈ l1 /\ b ∈ l2').
Proof.
  revert l1'. induction l1 as [|a l1 IH]; intros l1' H.
  - destruct l1' as [|a' l1']; simpl in H; injection H as -> H.
    + left. repeat split; assumption.
    + right. left. split; [left|]. subst l2.
      apply elem_of_app. right. left.
  - destruct l1' as [|a' l1']; simpl in H; injection H as -> H.
    + right. right. split; [left|]. subst l2'.
      apply elem_of_app. right. left.
    + destruct (IH _ H) as [(-> & -> & ->) | [[H1 H2] | [H1 H2]]].
      * left. repeat split.
      * right. left. split; [right|]; assumption.
      * right. right. split; [right|]; assumption.
Qed.

Lemma firstMinimum_unique b b' l :
  firstMinimum b l -> firstMinimum b' l -> b = b'.
Proof.
  intros (l1 & l2 & Hl & Hsel & H1 & H2) (l1' & l2' & Hl' & Hsel' & H1' & H2').
  rewrite Hl in Hl'.
  destruct (app_cons_cases _ _ _ _ _ _ Hl') as [(_ & Hb & _) | [[Ha Hb] | [Ha Hb]]].
  - exact Hb.
  - specialize (H1' b Ha Hsel). specialize (H2 b' Hb Hsel'). lia.
  - specialize (H1 b' Ha Hsel'). specialize (H2' b Hb Hsel). lia.
Qed.

Lemma firstMinimum_elem b l : firstMinimum b l -> b ∈ l /\ b_selected b = false.
Proof.
  intros (l1 & l2 & -> & Hsel & _). split; [|exact Hsel].
  apply elem_of_app. right. left.
Qed.

(** ** Ids and positions *)

Lemma slotIds_NoDup l : slotIds l -> NoDup (b_id <$> l).
Proof.
  intros Hs. apply NoDup_alt. intros i j v Hi Hj.
  rewrite list_lookup_fmap in Hi, Hj.
  destruct (l !! i) as [bi|] eqn:Ei; [|discriminate Hi].
  destruct (l !! j) as [bj|] eqn:Ej; [|discriminate Hj].
  simpl in Hi, Hj. injection Hi as Hi. injection Hj as Hj.
  apply Hs in Ei, Ej. lia.
Qed.

Lemma slotIds_order l l1 b l2 :
  slotIds l -> l = l1 ++ b :: l2 ->
  (forall u, u ∈ l1 -> b_id u < b_id b) /\
  (forall u, u ∈ l2 -> b_id b < b_id u).
Proof.
  intros Hs ->.
  assert (Hb : b_id b = Z.of_nat (length l1)).
  { apply Hs. rewrite list_lookup_middle; reflexivity. }
  split; intros u Hu; apply list_elem_of_lookup_1 in Hu as [j Hj].
  - pose proof (lookup_lt_Some _ _ _ Hj) as Hlt.
    rewrite (Hs j u); [lia|]. rewrite lookup_app_l; assumption.
  - rewrite (Hs (length l1 + S j)%nat u); [lia|].
    rewrite lookup_app_r by lia.
    replace (length l1 + S j - length l1)%nat with (S j) by lia. exact Hj.
Qed.

Lemma NoDup_ids_eq l a b :
  NoDup (b_id <$> l) -> a ∈ l -> b ∈ l -> b_id a = b_id b -> a = b.
Proof.
  intros Hnd Ha Hb Hid.
  apply list_elem_of_lookup_1 in Ha as [i Hi].
  apply list_elem_of_lookup_1 in Hb as [j Hj].
  assert (i = j).
  { eapply NoDup_lookup; [exact Hnd | |];
      rewrite list_lookup_fmap; [rewrite Hi | rewrite Hj]; simpl;
      [reflexivity | rewrite Hid; reflexivity]. }
  subst j. congruence.
Qed.

Lemma find_by_id l b :
  NoDup (b_id <$> l) -> b ∈ l ->
  List.find (fun u => b_id u =? b_id b) l = Some b.
Proof.
  intros Hnd Hb. induction l as [|a l IH]; [inversion Hb|].
  simpl. destruct (Z.eqb_spec (b_id a) (b_id b)) as [Heq|Hne].
  - f_equal. eapply NoDup_ids_eq; [exact Hnd | left | exact Hb | exact Heq].
  - rewrite fmap_cons in Hnd. apply NoDup_cons in Hnd as [_ Hnd].
    apply elem_of_cons in Hb as [->|Hb]; [congruence|]. apply IH; assumption.
Qed.

Lemma find_elem (f : BubbleData -> bool) l b :
  List.find f l = Some b -> b ∈ l /\ f b = true.
Proof.
  intros H. apply List.find_some in H as [Hin Hf].
  split; [apply list_elem_of_In; exact Hin | exact Hf].
Qed.

(** ** Marking a stimulus consumed *)

Lemma markId_length bubbleId l : length (markId bubbleId l) = length l.
Proof. unfold markId. apply length_map. Qed.

Lemma markId_slotIds bubbleId l : slotIds l -> slotIds (markId bubbleId l).
Proof.
  intros Hs j b Hj. unfold markId in Hj.
  change (map ?f l) with (f <$> l) in Hj. rewrite list_lookup_fmap in Hj.
  destruct (l !! j) as [u|] eqn:Eu; [|discriminate Hj].
  simpl in Hj. injection Hj as <-. apply Hs in Eu.
  destruct (_ =? _); exact Eu.
Qed.

Lemma markId_other bubbleId l :
  (forall u, u ∈ l -> b_id u <> bubbleId) -> markId bubbleId l = l.
Proof.
  intros H. induction l as [|a l IH]; [reflexivity|].
  unfold markId in *. simpl. rewrite IH by (intros u Hu; apply H; right; exact Hu).
  destruct (Z.eqb_spec (b_id a) bubbleId) as [Heq|_]; [|reflexivity].
  exfalso. apply (H a); [left | exact Heq].
Qed.

Lemma markId_split l1 b l2 :
  NoDup (b_id <$> (l1 ++ b :: l2)) ->
  markId (b_id b) (l1 ++ b :: l2) = l1 ++ markSelected b :: l2.
Proof.
  intros Hnd.
  assert (Hother : forall u, u ∈ l1 \/ u ∈ l2 -> b_id u <> b_id b).
  { intros u Hu Heq.
    assert (Hin : u ∈ l1 ++ b :: l2)
      by (apply elem_of_app; destruct Hu; [left | right; right]; assumption).
    assert (Hb : b ∈ l1 ++ b :: l2) by (apply elem_of_app; right; left).
    pose proof (NoDup_ids_eq _ _ _ Hnd Hin Hb Heq) as ->.
    rewrite fmap_app, fmap_cons in Hnd.
    apply NoDup_app in Hnd as (_ & Hdisj & Hnd2).
    apply NoDup_cons in Hnd2 as [Hnot _].
    destruct Hu as [Hu|Hu].
    - apply (Hdisj (b_id b)); [apply list_elem_of_fmap_2; exact Hu | left].
    - apply Hnot, list_elem_of_fmap_2. exact Hu. }
  unfold markId. rewrite map_app. simpl. rewrite Z.eqb_refl.
  fold (markId (b_id b) l1). fold (markId (b_id b) l2).
  rewrite !markId_other by (intros u Hu; apply Hother; auto).
  reflexivity.
Qed.

Lemma unselectedOf_app l1 l2 :
  unselectedOf (l1 ++ l2) = unselectedOf l1 ++ unselectedOf l2.
Proof. unfold unselectedOf. apply List.filter_app. Qed.

Lemma selectedCount_app l1 l2 :
  selectedCount (l1 ++ l2) = selectedCount l1 + selectedCount l2.
Proof.
  unfold selectedCount. rewrite List.filter_app, length_app. lia.
Qed.

Lemma isPlaying_true st : isPlaying st = true <-> screen st = PLAYING.
Proof. unfold isPlaying. destruct (screen st); split; congruence. Qed.

(** ** The two outcomes of a selection *)

(** The state after a correct selection of [b]. *)
Lemma handleBubbleClick_first st b :
  screen st = PLAYING -> processing st = false ->
  NoDup (b_id <$> bubbles st) ->
  firstMinimum b (bubbles st) ->
  handleBubbleClick (b_id b) st =
    let updated := markId (b_id b) (bubbles st) in
    let st2 :=
      set_selectionOrder (selectionOrder st + 1)
        (set_correctCount (correctCount st + 1) st) in
    set_bubbles updated
      (if (length (unselectedOf updated) =? 0)%nat then
         set_timeouts
           (timeouts st2 ++ [ (CORRECT_DELAY_MS, currentClosure st) ])
           (set_processing true st2)
       else st2).
Proof.
  intros Hscreen Hproc Hnd Hfirst.
  destruct (firstMinimum_elem _ _ Hfirst) as [Hin Hsel].
  unfold handleBubbleClick.
  rewrite Hproc, (proj2 (isPlaying_true st) Hscreen). simpl.
  rewrite (find_by_id _ _ Hnd Hin), Hsel.
  destruct (sort byValue (unselectedOf (bubbles st))) as [|h t] eqn:Hs.
  - apply sort_nil_inv in Hs.
    assert (Hu : b ∈ unselectedOf (bubbles st))
      by (apply elem_of_unselectedOf; split; assumption).
    rewrite Hs in Hu. inversion Hu.
  - apply sort_head_firstMinimum in Hs.
    rewrite (firstMinimum_unique _ _ _ Hs Hfirst), Z.eqb_refl. reflexivity.
Qed.

(** The state after a selection of an unconsumed [b] that is not the first
    minimum. *)
Lemma handleBubbleClick_other st b :
  screen st = PLAYING -> processing st = false ->
  NoDup (b_id <$> bubbles st) ->
  b ∈ bubbles st -> b_selected b = false ->
  ~ firstMinimum b (bubbles st) ->
  handleBubbleClick (b_id b) st = set_wrongCount (wrongCount st + 1) st.
Proof.
  intros Hscreen Hproc Hnd Hin Hsel Hnot.
  unfold handleBubbleClick.
  rewrite Hproc, (proj2 (isPlaying_true st) Hscreen). simpl.
  rewrite (find_by_id _ _ Hnd Hin), Hsel.
  destruct (sort byValue (unselectedOf (bubbles st))) as [|h t] eqn:Hs.
  - apply sort_nil_inv in Hs.
    assert (Hu : b ∈ unselectedOf (bubbles st))
      by (apply elem_of_unselectedOf; split; assumption).
    rewrite Hs in Hu. inversion Hu.
  - apply sort_head_firstMinimum in Hs.
    destruct (Z.eqb_spec (b_id b) (b_id h)) as [Heq|_]; [|reflexivity].
    exfalso. apply Hnot.
    destruct (firstMinimum_elem _ _ Hs) as [Hh _].
    rewrite (NoDup_ids_eq _ _ _ Hnd Hin Hh Heq). exact Hs.
Qed.

(** ** Starting a round *)

Section ControllerFacts.

Variable random : nat -> Q.

Lemma table_bubbleCount cfg i :
  arr_get DIFFICULTY_TABLE i = Some cfg -> bubbleCount cfg = 3.
Proof.
  unfold arr_get. destruct (i <? 0); [discriminate|]. intros H.
  apply list_elem_of_lookup_2 in H.
  assert (Hall : Forall (fun c => bubbleCount c = 3) DIFFICULTY_TABLE)
    by (repeat constructor).
  rewrite Forall_forall in Hall. apply Hall, H.
Qed.

Lemma table_defined roundNum :
  1 <= roundNum ->
  is_Some (arr_get DIFFICULTY_TABLE
             (Z.min (roundNum - 1) (Z.of_nat (length DIFFICULTY_TABLE) - 1))).
Proof.
  intros Hr. change (Z.of_nat (length DIFFICULTY_TABLE) - 1) with 7.
  assert (Hc : 0 <= Z.min (roundNum - 1) 7 <= 7) by lia.
  unfold arr_get. destruct (Z.ltb_spec (Z.min (roundNum - 1) 7) 0); [lia|].
  apply lookup_lt_is_Some_2. simpl. lia.
Qed.

Lemma generateBubbles_fresh config roundNum k bs k' :
  generateBubbles random config roundNum k = (Some bs, k') ->
  slotIds bs /\ unselectedOf bs = bs /\ selectedCount bs = 0 /\
  length bs = Z.to_nat (bubbleCount config).
Proof.
  intros Hgen. rewrite generateBubbles_log in Hgen.
  unfold generateBubblesLog in Hgen.
  destruct (fillSlots _ _ _ _ _ _ _ _) as [[log|] k1] eqn:Hfill;
    [|discriminate Hgen].
  injection Hgen as <- _.
  apply (fillSlots_Some random (fun _ => True)) in Hfill
    as (new & -> & Hlen & Hslots); [|trivial].
  simpl.
  assert (Hsel : Forall (fun b => b_selected b = false) new.*1).
  { apply Forall_forall. intros b Hb.
    apply list_elem_of_lookup_1 in Hb as [j Hj].
    rewrite list_lookup_fmap in Hj.
    destruct (new !! j) as [slot|] eqn:Es; [|discriminate Hj].
    injection Hj as <-. apply (slotsFrom_ids _ _ _ _ _ _ Hslots Es). }
  split; [|split; [|split]].
  - intros j b Hj. rewrite list_lookup_fmap in Hj.
    destruct (new !! j) as [slot|] eqn:Es; [|discriminate Hj].
    injection Hj as <-.
    destruct (slotsFrom_ids _ _ _ _ _ _ Hslots Es) as [Hid _]. lia.
  - unfold unselectedOf. induction Hsel as [|b l Hb _ IH]; [reflexivity|].
    simpl. rewrite Hb, IH. reflexivity.
  - unfold selectedCount. induction Hsel as [|b l Hb _ IH]; [reflexivity|].
    simpl. rewrite Hb. exact IH.
  - rewrite length_fmap. exact Hlen.
Qed.

Lemma startRound_Some roundNum now st st' :
  startRound random roundNum now st = Some st' ->
  exists cfg bs k,
    bubbleCount cfg = 3 /\
    generateBubbles random cfg roundNum (cursor st) = (Some bs, k) /\
    st' = mkState (screen st) (round st) (sessionTime st) (cfg_roundTime cfg)
            bs 0 (roundResults st) 0 0 (totalScore st) false now false
            (timeouts st) k.
Proof.
  unfold startRound. intros H.
  destruct (arr_get DIFFICULTY_TABLE _) as [cfg|] eqn:Ecfg; [|discriminate H].
  simpl in H.
  destruct (generateBubbles random cfg roundNum (cursor st)) as [[bs|] k] eqn:Eg;
    [|discriminate H].
  simpl in H. injection H as <-.
  exists cfg, bs, k. split; [eapply table_bubbleCount; exact Ecfg|].
  split; [exact Eg | reflexivity].
Qed.

Lemma startRound_total roundNum now st :
  1 <= roundNum -> is_Some (startRound random roundNum now st).
Proof.
  intros Hr. unfold startRound.
  destruct (table_defined roundNum Hr) as [cfg Ecfg]. rewrite Ecfg. simpl.
  pose proof (table_bubbleCount _ _ Ecfg) as Hc.
  destruct (generateBubblesLog_Some random cfg roundNum (cursor st)
              ltac:(lia) Hr) as (log & k & Hgen & _).
  rewrite generateBubbles_log, Hgen. simpl. eexists. reflexivity.
Qed.

(** ** Ending a round *)

Lemma endRound_cases cl completed now st st' :
  endRound random cl completed now st = Some st' ->
  (roundEndedRef st = true /\ st' = st) \/
  (roundEndedRef st = false /\
   exists result,
     result = mkResult (c_round cl) (c_correctCount cl) (c_wrongCount cl)
                (c_correctCount cl - c_wrongCount cl)
                (round_div_1000 (now - roundStartRef st)) completed /\
     ((((c_sessionTime cl <=? 0) || (c_round cl >=? TOTAL_QUESTIONS)) = true /\
       st' = set_screen COMPLETE
               (set_roundResults (roundResults st ++ [result])
                  (set_totalScore (totalScore st + r_score result)
                     (set_roundEndedRef true st)))) \/
      (((c_sessionTime cl <=? 0) || (c_round cl >=? TOTAL_QUESTIONS)) = false /\
       startRound random (c_round cl + 1) now
         (set_round (round st + 1)
            (set_roundResults (roundResults st ++ [result])
               (set_totalScore (totalScore st + r_score result)
                  (set_roundEndedRef true st)))) = Some st'))).
Proof.
  unfold endRound. destruct (roundEndedRef st) eqn:Hlatch.
  - intros H. injection H as <-. left. split; reflexivity.
  - intros H. right. split; [reflexivity|]. eexists. split; [reflexivity|].
    destruct (_ || _) eqn:Hend.
    + left. injection H as <-. split; reflexivity.
    + right. split; [reflexivity | exact H].
Qed.

End ControllerFacts.

(** ** Case analysis of a selection *)

Lemma handleBubbleClick_cases st bubbleId :
  NoDup (b_id <$> bubbles st) ->
  handleBubbleClick bubbleId st = st \/
  (exists b, b_id b = bubbleId /\ screen st = PLAYING /\
             processing st = false /\ firstMinimum b (bubbles st)) \/
  (exists b, b_id b = bubbleId /\ screen st = PLAYING /\
             processing st = false /\ b ∈ bubbles st /\
             b_selected b = false /\ ~ firstMinimum b (bubbles st)).
Proof.
  intros Hnd. unfold handleBubbleClick.
  destruct (processing st) eqn:Hproc; [left; reflexivity|].
  destruct (isPlaying st) eqn:Hplay; [|left; reflexivity].
  apply isPlaying_true in Hplay. simpl.
  destruct (List.find _ (bubbles st)) as [b|] eqn:Hfind; [|left; reflexivity].
  apply find_elem in Hfind as [Hin Hid]. apply Z.eqb_eq in Hid.
  destruct (b_selected b) eqn:Hsel; [left; reflexivity|].
  destruct (sort byValue (unselectedOf (bubbles st))) as [|h t] eqn:Hs;
    [left; reflexivity|].
  apply sort_head_firstMinimum in Hs.
  destruct (firstMinimum_elem _ _ Hs) as [Hh _].
  right. destruct (Z.eqb_spec (b_id b) (b_id h)) as [Heq|Hne].
  - left. exists b. rewrite <- (NoDup_ids_eq _ _ _ Hnd Hin Hh Heq) in Hs.
    repeat split; assumption.
  - right. exists b. repeat split; try assumption.
    intros Hb. apply Hne. rewrite (firstMinimum_unique _ _ _ Hb Hs). reflexivity.
Qed.

Lemma selectedCount_markId b l :
  NoDup (b_id <$> l) -> firstMinimum b l ->
  selectedCount (markId (b_id b) l) = selectedCount l + 1.
Proof.
  intros Hnd (l1 & l2 & -> & Hsel & _).
  rewrite (markId_split _ _ _ Hnd), !selectedCount_app.
  unfold selectedCount at 2 4. simpl. rewrite Hsel. simpl. lia.
Qed.

Lemma length_zero_nil {A} (l : list A) : (length l =? 0)%nat = true -> l = [].
Proof. destruct l; [reflexivity | discriminate]. Qed.

(** ** The invariant *)

Lemma Inv_init : Inv initialState.
Proof.
  unfold Inv, initialState. simpl. repeat split; try congruence; try lia.
  - intros j b Hj. discriminate Hj.
  - constructor.
Qed.

Lemma Inv_handleBubbleClick st bubbleId :
  Inv st -> Inv (handleBubbleClick bubbleId st).
Proof.
  intros Hinv.
  pose proof Hinv as (Hids & Hcc & Hproc & Hinit & Hlen & Hround & Hcl & Hres).
  pose proof (slotIds_NoDup _ Hids) as Hnd.
  destruct (handleBubbleClick_cases st bubbleId Hnd)
    as [-> | [(b & <- & Hscreen & Hp & Hfirst)
             | (b & <- & Hscreen & Hp & Hin & Hsel & Hnot)]];
    [exact Hinv | |].
  - rewrite (handleBubbleClick_first st b Hscreen Hp Hnd Hfirst).
    cbv zeta.
    destruct (length (unselectedOf (markId (b_id b) (bubbles st))) =? 0)%nat
      eqn:Hdone; unfold Inv; simpl.
    + split; [apply markId_slotIds, Hids|].
      split; [rewrite (selectedCount_markId _ _ Hnd Hfirst); lia|].
      split; [intros _; apply length_zero_nil, Hdone|].
      split; [congruence|]. split; [rewrite markId_length; exact Hlen|].
      split; [exact Hround|]. split; [|exact Hres].
      apply Forall_app. split; [exact Hcl|]. repeat constructor. exact Hround.
    + split; [apply markId_slotIds, Hids|].
      split; [rewrite (selectedCount_markId _ _ Hnd Hfirst); lia|].
      split; [congruence|].
      split; [congruence|]. split; [rewrite markId_length; exact Hlen|].
      split; [exact Hround|]. split; [exact Hcl | exact Hres].
  - rewrite (handleBubbleClick_other st b Hscreen Hp Hnd Hin Hsel Hnot).
    unfold Inv; simpl. repeat split; try assumption. congruence.
Qed.

Section InvariantFacts.

Variable random : nat -> Q.

Lemma Inv_startRound roundNum now st st' :
  startRound random roundNum now st = Some st' ->
  screen st <> INSTRUCTIONS -> 1 <= round st ->
  Forall (fun t => 1 <= c_round t.2) (timeouts st) ->
  (screen st = PLAYING -> Z.of_nat (length (roundResults st)) = round st - 1) ->
  Inv st'.
Proof.
  intros Hstart Hscreen Hround Hcl Hres.
  apply startRound_Some in Hstart as (cfg & bs & k & Hcount & Hgen & ->).
  apply generateBubbles_fresh in Hgen as (Hids & Hun & Hsel & Hlen).
  unfold Inv; simpl. repeat split; try assumption; try congruence; try lia.
Qed.

Lemma Inv_endRound cl completed now st st' :
  Inv st -> screen st <> INSTRUCTIONS ->
  endRound random cl completed now st = Some st' -> Inv st'.
Proof.
  intros Hinv Hscreen Hend.
  pose proof Hinv as (Hids & Hcc & Hproc & Hinit & Hlen & Hround & Hcl & Hres).
  apply endRound_cases in Hend
    as [[_ ->] | (_ & result & _ & [[_ ->] | [_ Hstart]])]; [exact Hinv | |].
  - unfold Inv; simpl. repeat split; try assumption; try congruence.
    intros _. apply Hlen, Hscreen.
  - eapply Inv_startRound; [exact Hstart | | | |]; simpl;
      try assumption; try lia.
    intros Hp. rewrite length_app. simpl. specialize (Hres Hp). lia.
Qed.

Lemma Inv_step st ev st' : Inv st -> step random st ev = Some st' -> Inv st'.
Proof.
  intros Hinv Hstep.
  pose proof Hinv as (Hids & Hcc & Hproc & Hinit & Hlen & Hround & Hcl & Hres).
  destruct ev as [now | | now | bubbleId | now | now]; simpl in Hstep.
  - destruct (screen st) eqn:Hscreen;
      [|injection Hstep as <-; exact Hinv ..].
    unfold handleStart in Hstep.
    eapply Inv_startRound; [exact Hstep | | | |]; simpl;
      try congruence; try lia.
  - injection Hstep as <-. unfold sessionTick.
    destruct (isPlaying st) eqn:Hplay; simpl; [|exact Hinv].
    apply isPlaying_true in Hplay.
    destruct (sessionTime st <=? 1); unfold Inv; simpl;
      repeat split; try assumption; try congruence.
    intros _. apply Hlen. congruence.
  - unfold roundTick in Hstep.
    destruct (isPlaying st) eqn:Hplay; simpl in Hstep;
      [|injection Hstep as <-; exact Hinv].
    apply isPlaying_true in Hplay.
    assert (Hinv0 : forall v, Inv (set_roundTime v st))
      by (intros v; unfold Inv; simpl; repeat split; try assumption;
          rewrite Hplay; congruence).
    destruct (roundTime st <=? 1).
    + eapply Inv_endRound; [apply (Hinv0 0) | | exact Hstep].
      simpl. congruence.
    + injection Hstep as <-. apply Hinv0.
  - injection Hstep as <-. apply Inv_handleBubbleClick, Hinv.
  - unfold settle in Hstep.
    destruct (timeouts st) as [|[delay cl] rest] eqn:Ht;
      [injection Hstep as <-; exact Hinv|].
    assert (Hscreen : screen st <> INSTRUCTIONS).
    { intros Hs. rewrite (Hinit Hs) in Ht. discriminate Ht. }
    eapply Inv_endRound; [| | exact Hstep]; [|exact Hscreen].
    apply Forall_cons in Hcl as [_ Hcl].
    unfold Inv; simpl. repeat split; try assumption.
    intros Hs. contradiction.
  - destruct (isPlaying st) eqn:Hplay; injection Hstep as <-; [|exact Hinv].
    apply isPlaying_true in Hplay.
    unfold handleSubmit, Inv; simpl. repeat split; try assumption; try congruence.
    intros _. apply Hlen. congruence.
Qed.

Lemma reachable_Inv st : reachable random st -> Inv st.
Proof.
  induction 1 as [|st ev st' _ IH Hstep]; [apply Inv_init|].
  eapply Inv_step; eassumption.
Qed.

End InvariantFacts.

(** ** Selecting in ascending order *)

Lemma ascending_head_firstMinimum l b rest :
  slotIds l ->
  b :: rest ≡ₚ unselectedOf l ->
  StronglySorted precedes (b :: rest) ->
  firstMinimum b l.
Proof.
  intros Hids Hperm Hsorted.
  assert (Hb : b ∈ unselectedOf l) by (rewrite <- Hperm; left).
  apply elem_of_unselectedOf in Hb as [Hin Hsel].
  apply list_elem_of_split in Hin as (l1 & l2 & Hl).
  destruct (slotIds_order _ _ _ _ Hids Hl) as [Hbefore Hafter].
  apply StronglySorted_inv in Hsorted as [_ Hall].
  rewrite Forall_forall in Hall.
  assert (Hrest : forall u, u ∈ l -> b_selected u = false -> u = b \/ u ∈ rest).
  { intros u Hu Hus.
    assert (Hu' : u ∈ b :: rest)
      by (rewrite Hperm; apply elem_of_unselectedOf; split; assumption).
    apply elem_of_cons in Hu'. exact Hu'. }
  exists l1, l2. split; [exact Hl|]. split; [exact Hsel|].
  split; intros u Hu Hus.
  - specialize (Hbefore u Hu).
    destruct (Hrest u) as [->|Hr]; [subst l; apply elem_of_app; left; exact Hu
                                   | exact Hus | lia |].
    destruct (Hall u Hr) as [Hlt|[_ Hid]]; lia.
  - specialize (Hafter u Hu).
    destruct (Hrest u) as [->|Hr];
      [subst l; apply elem_of_app; right; right; exact Hu | exact Hus | lia |].
    destruct (Hall u Hr) as [Hlt|[Heq _]]; lia.
Qed.

Lemma unselectedOf_markId b l :
  NoDup (b_id <$> l) -> firstMinimum b l ->
  b :: unselectedOf (markId (b_id b) l) ≡ₚ unselectedOf l.
Proof.
  intros Hnd (l1 & l2 & -> & Hsel & _).
  rewrite (markId_split _ _ _ Hnd), !unselectedOf_app.
  unfold unselectedOf at 2 4. simpl. rewrite Hsel. simpl.
  apply Permutation_middle.
Qed.

Lemma clickAll_ascending order :
  forall st,
    screen st = PLAYING -> processing st = false -> slotIds (bubbles st) ->
    order <> [] ->
    order ≡ₚ unselectedOf (bubbles st) ->
    StronglySorted precedes order ->
    let st' := clickAll order st in
    correctCount st' = correctCount st + Z.of_nat (length order) /\
    wrongCount st' = wrongCount st /\
    processing st' = true /\
    timeouts st' =
      timeouts st ++
        [ (CORRECT_DELAY_MS,
           mkClosure (round st)
             (correctCount st + Z.of_nat (length order) - 1)
             (wrongCount st) (sessionTime st)) ].
Proof.
  induction order as [|b rest IH]; intros st Hscreen Hproc Hids Hne Hperm Hsorted;
    [congruence|].
  pose proof (slotIds_NoDup _ Hids) as Hnd.
  pose proof (ascending_head_firstMinimum _ _ _ Hids Hperm Hsorted) as Hfirst.
  pose proof (unselectedOf_markId _ _ Hnd Hfirst) as Hmark.
  assert (Hrest : rest ≡ₚ unselectedOf (markId (b_id b) (bubbles st))).
  { apply (Permutation_cons_inv (a:=b)). rewrite Hperm, Hmark. reflexivity. }
  change (clickAll (b :: rest) st)
    with (clickAll rest (handleBubbleClick (b_id b) st)).
  rewrite (handleBubbleClick_first st b Hscreen Hproc Hnd Hfirst). cbv zeta.
  destruct rest as [|b' rest'].
  - apply Permutation_nil in Hrest. rewrite Hrest. simpl.
    repeat split; try lia.
    unfold currentClosure. f_equal. f_equal. f_equal. f_equal. lia.
  - destruct (length _ =? 0)%nat eqn:Hdone.
    { apply length_zero_nil in Hdone. rewrite Hdone in Hrest.
      symmetry in Hrest. apply Permutation_nil in Hrest. discriminate Hrest. }
    apply StronglySorted_inv in Hsorted as [Hsorted _].
    set (st1 := set_bubbles _ _).
    destruct (IH st1) as (Hcc & Hwc & Hp & Ht); subst st1; simpl;
      try assumption; try congruence.
    { apply markId_slotIds, Hids. }
    simpl in *. rewrite Hcc, Hwc, Hp, Ht.
    repeat split; try lia. f_equal. f_equal. f_equal. f_equal. lia.
Qed.

Lemma selectedCount_zero l : selectedCount l = 0 -> unselectedOf l = l.
Proof.
  unfold selectedCount, unselectedOf. induction l as [|a l IH]; [reflexivity|].
  simpl. destruct (b_selected a); simpl; [intros H; lia|].
  intros H. rewrite IH by exact H. reflexivity.
Qed.



Lemma configOf_bubbleCount st cfg : configOf st = Some cfg -> bubbleCount cfg = 3.
Proof. apply table_bubbleCount. Qed.

(** ** The controller never raises *)

Section StepFacts.

Variable random : nat -> Q.

Lemma endRound_total cl completed now st :
  1 <= c_round cl -> is_Some (endRound random cl completed now st).
Proof.
  intros Hr. unfold endRound.
  destruct (roundEndedRef st); [eexists; reflexivity|].
  destruct (_ || _); [eexists; reflexivity|].
  apply startRound_total. lia.
Qed.

Lemma step_total st ev : Inv st -> is_Some (step random st ev).
Proof.
  intros (_ & _ & _ & _ & _ & Hround & Hcl & _).
  destruct ev as [now | | now | bubbleId | now | now]; simpl;
    try (eexists; reflexivity).
  - destruct (screen st); try (eexists; reflexivity).
    apply startRound_total. lia.
  - unfold roundTick. destruct (negb _); [eexists; reflexivity|].
    destruct (_ <=? _); [|eexists; reflexivity].
    apply endRound_total. exact Hround.
  - unfold settle. destruct (timeouts st) as [|[delay cl] rest];
      [eexists; reflexivity|].
    apply Forall_cons in Hcl as [Hc _]. apply endRound_total. exact Hc.
  - destruct (isPlaying st); eexists; reflexivity.
Qed.

Lemma reachable_run st evs st' :
  reachable random st -> run random st evs = Some st' -> reachable random st'.
Proof.
  revert st. induction evs as [|ev evs IH]; intros st Hreach Hrun; simpl in Hrun.
  - injection Hrun as <-. exact Hreach.
  - destruct (step random st ev) as [st1|] eqn:Hstep; [|discriminate Hrun].
    simpl in Hrun. eapply IH; [|exact Hrun].
    eapply reachable_step; eassumption.
Qed.



End StepFacts.

(** ** Scoring claims *)

Lemma sample_reachable evs st :
  run sampleRandom initialState evs = Some st -> reachable sampleRandom st.
Proof. apply reachable_run, reachable_init. Qed.

(** C4: during an active round a selection of stimulus [b] is counted
    correct exactly when [b] is unconsumed, has the least value among the
    unconsumed stimuli and is the first-generated one of that value; and
    from a round in which nothing has been scored yet, selecting every
    stimulus in ascending order (equal values in generation order) leaves
    [correctCount] at the item count, [wrongCount] at zero, and schedules
    the round completion with the delay [CORRECT_DELAY_MS]. *)
Theorem C4_selection_correct_iff_first_minimum random st :
  reachable random st -> screen st = PLAYING ->
  (forall b, b ∈ bubbles st ->
     (correctCount (handleBubbleClick (b_id b) st) = correctCount st + 1 <->
      firstMinimum b (bubbles st))) /\
  (forall order,
     correctCount st = 0 -> wrongCount st = 0 ->
     ascendingOrder (bubbles st) order ->
     let st' := clickAll order st in
     correctCount st' = Z.of_nat (length (bubbles st)) /\
     (forall cfg, configOf st = Some cfg -> correctCount st' = bubbleCount cfg) /\
     wrongCount st' = 0 /\
     processing st' = true /\
     timeouts st' =
       timeouts st ++
         [ (CORRECT_DELAY_MS,
            mkClosure (round st) (Z.of_nat (length (bubbles st)) - 1) 0
              (sessionTime st)) ]).
Proof.
  intros Hreach Hscreen.
  pose proof (reachable_Inv _ _ Hreach) as Hinv.
  pose proof Hinv as (Hids & Hcc & Hproc & _ & Hlen & _).
  pose proof (slotIds_NoDup _ Hids) as Hnd.
  assert (Hlen3 : length (bubbles st) = 3%nat) by (apply Hlen; congruence).
  split.
  - intros b Hin. split.
    + intros Hcount.
      destruct (handleBubbleClick_cases st (b_id b) Hnd)
        as [Hsame | [(b' & Hid & _ & Hp & Hfirst)
                    | (b' & Hid & _ & Hp & Hin' & Hsel & Hnot)]].
      * rewrite Hsame in Hcount. lia.
      * destruct (firstMinimum_elem _ _ Hfirst) as [Hin' _].
        rewrite <- (NoDup_ids_eq _ _ _ Hnd Hin' Hin Hid). exact Hfirst.
      * rewrite <- Hid in Hcount.
        rewrite (handleBubbleClick_other st b' Hscreen Hp Hnd Hin' Hsel Hnot)
          in Hcount.
        simpl in Hcount. lia.
    + intros Hfirst.
      assert (Hp : processing st = false).
      { destruct (processing st); [|reflexivity].
        destruct (firstMinimum_elem _ _ Hfirst) as [Hb Hsel].
        assert (Hu : b ∈ unselectedOf (bubbles st))
          by (apply elem_of_unselectedOf; split; assumption).
        rewrite (Hproc eq_refl) in Hu. inversion Hu. }
      rewrite (handleBubbleClick_first st b Hscreen Hp Hnd Hfirst). cbv zeta.
      destruct (_ =? _)%nat; reflexivity.
  - intros order Hc0 Hw0 [Hperm Hsorted].
    assert (Hun : unselectedOf (bubbles st) = bubbles st)
      by (apply selectedCount_zero; lia).
    assert (Hp : processing st = false).
    { destruct (processing st); [|reflexivity].
      rewrite (Hproc eq_refl) in Hun. rewrite <- Hun in Hlen3.
      discriminate Hlen3. }
    assert (Hne : order <> []).
    { intros ->. apply Permutation_nil in Hperm. rewrite Hperm in Hlen3.
      discriminate Hlen3. }
    rewrite <- Hun in Hperm at 1.
    destruct (clickAll_ascending order st Hscreen Hp Hids Hne Hperm Hsorted)
      as (Hcc' & Hwc' & Hp' & Ht').
    rewrite Hun in Hperm. apply Permutation_length in Hperm.
    cbv zeta. rewrite Hcc', Hwc', Hp', Ht', Hc0, Hw0, Hperm.
    repeat split; try lia.
    intros cfg Hcfg. rewrite (configOf_bubbleCount _ _ Hcfg), Hlen3. reflexivity.
Qed.

Lemma C4_selection_witness :
  (forall b, b ∈ bubbles sampleRoundStart ->
     (correctCount (handleBubbleClick (b_id b) sampleRoundStart) =
        correctCount sampleRoundStart + 1 <->
      firstMinimum b (bubbles sampleRoundStart))) /\
  (let st' := clickAll (bubbles sampleRoundStart) sampleRoundStart in
   correctCount st' = 3 /\
   (forall cfg, configOf sampleRoundStart = Some cfg ->
                correctCount st' = bubbleCount cfg) /\
   wrongCount st' = 0 /\
   processing st' = true /\
   timeouts st' = [ (CORRECT_DELAY_MS, mkClosure 1 2 0 420) ]).
Proof.
  destruct (C4_selection_correct_iff_first_minimum sampleRandom sampleRoundStart)
    as [Hiff Hall].
  - apply (sample_reachable [Start 0]). vm_compute. reflexivity.
  - reflexivity.
  - split; [exact Hiff|].
    apply (Hall (bubbles sampleRoundStart)); [reflexivity | reflexivity |].
    split; [reflexivity|].
    vm_compute. repeat constructor; left; reflexivity.
Defined.

(** C9: an incorrect selection (an unconsumed stimulus that is not the
    first minimum) adds one to [wrongCount] and changes nothing else: the
    stimuli and their consumed marks, [correctCount], the pending
    completions and every other field keep their value. *)
Theorem C9_incorrect_selection_only_counts random st b :
  reachable random st -> screen st = PLAYING ->
  b ∈ bubbles st -> b_selected b = false ->
  ~ firstMinimum b (bubbles st) ->
  let st' := handleBubbleClick (b_id b) st in
  st' = set_wrongCount (wrongCount st + 1) st /\
  wrongCount st' = wrongCount st + 1 /\
  bubbles st' = bubbles st /\
  correctCount st' = correctCount st /\
  timeouts st' = timeouts st /\
  processing st' = processing st.
Proof.
  intros Hreach Hscreen Hin Hsel Hnot.
  pose proof (reachable_Inv _ _ Hreach) as (Hids & _ & Hproc & _).
  assert (Hp : processing st = false).
  { destruct (processing st); [|reflexivity].
    assert (Hu : b ∈ unselectedOf (bubbles st))
      by (apply elem_of_unselectedOf; split; assumption).
    rewrite (Hproc eq_refl) in Hu. inversion Hu. }
  cbv zeta.
  rewrite (handleBubbleClick_other st b Hscreen Hp (slotIds_NoDup _ Hids)
             Hin Hsel Hnot).
  repeat split.
Qed.

Lemma C9_incorrect_selection_witness :
  let b := mkBubble 1 "7+16" 23 false 28 58 130 in
  let st' := handleBubbleClick (b_id b) sampleRoundStart in
  st' = set_wrongCount (wrongCount sampleRoundStart + 1) sampleRoundStart /\
  wrongCount st' = wrongCount sampleRoundStart + 1 /\
  bubbles st' = bubbles sampleRoundStart /\
  correctCount st' = correctCount sampleRoundStart /\
  timeouts st' = timeouts sampleRoundStart /\
  processing st' = processing sampleRoundStart.
Proof.
  apply (C9_incorrect_selection_only_counts sampleRandom sampleRoundStart
           (mkBubble 1 "7+16" 23 false 28 58 130)).
  - apply (sample_reachable [Start 0]). vm_compute. reflexivity.
  - reflexivity.
  - vm_compute. right. left.
  - reflexivity.
  - intros Hfirst.
    assert (Hother : firstMinimum (mkBubble 0 "3+11" 14 false 50 20 130)
                       (bubbles sampleRoundStart)).
    { exists [], [ mkBubble 1 "7+16" 23 false 28 58 130;
                   mkBubble 2 "11+19" 30 false 72 58 130 ].
      split; [reflexivity|]. split; [reflexivity|].
      split; intros u Hu _; [inversion Hu|].
      apply elem_of_cons in Hu as [->|Hu]; [simpl; lia|].
      apply elem_of_cons in Hu as [->|Hu]; [simpl; lia | inversion Hu]. }
    pose proof (firstMinimum_unique _ _ _ Hfirst Hother) as Heq.
    discriminate Heq.
Defined.



(** * The remote-backed engine *)

(** ** Rejected calls *)

Lemma handleRotate_state c : (PipePuzzle.handleRotate c).1 = c.
Proof.
  unfold PipePuzzle.handleRotate.
  destruct (negb _); [reflexivity|].
  destruct (PipePuzzle.selectedTile _); [|reflexivity].
  destruct (PipePuzzle.noSession c); reflexivity.
Qed.

Lemma handleFlip_state c : (PipePuzzle.handleFlip c).1 = c.
Proof.
  unfold PipePuzzle.handleFlip.
  destruct (negb _); [reflexivity|].
  destruct (PipePuzzle.selectedTile _); [|reflexivity].
  destruct (PipePuzzle.noSession c); reflexivity.
Qed.

Lemma handleTileClick_issued pos c req :
  (PipePuzzle.handleTileClick pos c).2 = Some req ->
  PipePuzzle.status (PipePuzzle.gameState c) = PipePuzzle.PLAYING /\
  req = PipePuzzle.SelectTile (PipePuzzle.sessionId c)
          (PipePuzzle.p_row pos) (PipePuzzle.p_col pos) /\
  (PipePuzzle.handleTileClick pos c).1 =
    PipePuzzle.setGameState
      (fun prev =>
         PipePuzzle.mkGame (PipePuzzle.grid prev) (PipePuzzle.start prev)
           (PipePuzzle.end_ prev) (PipePuzzle.status prev) (Some pos)
           (PipePuzzle.timeRemaining prev) (PipePuzzle.attempts prev)
           (PipePuzzle.moves prev + 1) (PipePuzzle.rotations prev)
           (PipePuzzle.flips prev)) c.
Proof.
  unfold PipePuzzle.handleTileClick, PipePuzzle.isPlaying.
  destruct (PipePuzzle.status (PipePuzzle.gameState c)); simpl;
    try discriminate.
  destruct (PipePuzzle.noSession c); simpl; [discriminate|].
  intros H. injection H as <-. repeat split.
Qed.

(** C2 (as amended): a rejected rotate or flip call leaves the whole
    component state as it was when the action was dispatched, apart from
    one console entry; a rejected select call is logged as well, but the
    selection and the move it counted, both applied before the call was
    issued, are kept. *)
Theorem C2_rejected_call_is_only_logged c pos err :
  (let c' := PipePuzzle.rotateSettled (PipePuzzle.Rejected err)
               (PipePuzzle.handleRotate c).1 in
   c' = PipePuzzle.consoleLog
          (PipePuzzle.mkLog PipePuzzle.Error "Rotate failed:" err) c /\
   PipePuzzle.gameState c' = PipePuzzle.gameState c) /\
  (let c' := PipePuzzle.flipSettled (PipePuzzle.Rejected err)
               (PipePuzzle.handleFlip c).1 in
   c' = PipePuzzle.consoleLog
          (PipePuzzle.mkLog PipePuzzle.Error "Flip failed:" err) c /\
   PipePuzzle.gameState c' = PipePuzzle.gameState c) /\
  (forall req,
     (PipePuzzle.handleTileClick pos c).2 = Some req ->
     let c' := PipePuzzle.selectSettled (PipePuzzle.Rejected err)
                 (PipePuzzle.handleTileClick pos c).1 in
     let g := PipePuzzle.gameState c in
     let g' := PipePuzzle.gameState c' in
     PipePuzzle.console c' =
       PipePuzzle.console c ++
         [ PipePuzzle.mkLog PipePuzzle.Warn "Select tile failed:" err ] /\
     PipePuzzle.selectedTile g' = Some pos /\
     PipePuzzle.moves g' = PipePuzzle.moves g + 1 /\
     PipePuzzle.grid g' = PipePuzzle.grid g /\
     PipePuzzle.rotations g' = PipePuzzle.rotations g /\
     PipePuzzle.flips g' = PipePuzzle.flips g /\
     PipePuzzle.status g' = PipePuzzle.status g).
Proof.
  split; [|split].
  - rewrite handleRotate_state. split; reflexivity.
  - rewrite handleFlip_state. split; reflexivity.
  - intros req Hreq.
    destruct (handleTileClick_issued _ _ _ Hreq) as (_ & _ & ->).
    repeat split.
Qed.

Lemma C2_rejected_call_witness :
  (let c' := PipePuzzle.rotateSettled (PipePuzzle.Rejected "503")
               (PipePuzzle.handleRotate sampleComponent).1 in
   c' = PipePuzzle.consoleLog
          (PipePuzzle.mkLog PipePuzzle.Error "Rotate failed:" "503")
          sampleComponent /\
   PipePuzzle.gameState c' = PipePuzzle.gameState sampleComponent) /\
  (let c' := PipePuzzle.flipSettled (PipePuzzle.Rejected "503")
               (PipePuzzle.handleFlip sampleComponent).1 in
   c' = PipePuzzle.consoleLog
          (PipePuzzle.mkLog PipePuzzle.Error "Flip failed:" "503")
          sampleComponent /\
   PipePuzzle.gameState c' = PipePuzzle.gameState sampleComponent) /\
  (let c' := PipePuzzle.selectSettled (PipePuzzle.Rejected "503")
               (PipePuzzle.handleTileClick (PipePuzzle.mkPosition 1 2)
                  sampleComponent).1 in
   let g := PipePuzzle.gameState sampleComponent in
   let g' := PipePuzzle.gameState c' in
   PipePuzzle.console c' =
     PipePuzzle.console sampleComponent ++
       [ PipePuzzle.mkLog PipePuzzle.Warn "Select tile failed:" "503" ] /\
   PipePuzzle.selectedTile g' = Some (PipePuzzle.mkPosition 1 2) /\
   PipePuzzle.moves g' = PipePuzzle.moves g + 1 /\
   PipePuzzle.grid g' = PipePuzzle.grid g /\
   PipePuzzle.rotations g' = PipePuzzle.rotations g /\
   PipePuzzle.flips g' = PipePuzzle.flips g /\
   PipePuzzle.status g' = PipePuzzle.status g).
Proof.
  destruct (C2_rejected_call_is_only_logged sampleComponent
              (PipePuzzle.mkPosition 1 2) "503") as (Hrot & Hflip & Hsel).
  split; [exact Hrot|]. split; [exact Hflip|].
  apply (Hsel (PipePuzzle.SelectTile "s1" 1 2)). reflexivity.
Defined.

(** C2 as stated fails for select: the call is issued, it is rejected, and
    the selected tile and the move counter differ from what they were
    when the action was dispatched. *)
Lemma C2_select_rejected_counterexample :
  (PipePuzzle.handleTileClick (PipePuzzle.mkPosition 1 2) sampleComponent).2 =
    Some (PipePuzzle.SelectTile "s1" 1 2) /\
  let c' := PipePuzzle.selectSettled (PipePuzzle.Rejected "503")
              (PipePuzzle.handleTileClick (PipePuzzle.mkPosition 1 2)
                 sampleComponent).1 in
  PipePuzzle.selectedTile (PipePuzzle.gameState sampleComponent) = None /\
  PipePuzzle.selectedTile (PipePuzzle.gameState c') =
    Some (PipePuzzle.mkPosition 1 2) /\
  PipePuzzle.moves (PipePuzzle.gameState sampleComponent) = 0 /\
  PipePuzzle.moves (PipePuzzle.gameState c') = 1 /\
  PipePuzzle.gameState c' <> PipePuzzle.gameState sampleComponent.
Proof.
  repeat split. vm_compute. discriminate.
Qed.

(** ** Successful calls *)

(** C7 (as amended): after a successful rotate (flip) the grid snapshot is
    the response's grid, copied tile by tile, and the rotations (flips)
    counter is the response's counter when it carries one, else the
    previous value plus one; nothing else changes.  After a successful
    select the moves counter is the previous value plus one, counted when
    the action was dispatched: the response is not read. *)
Theorem C7_counters_after_successful_call c pos res sel :
  (let g := PipePuzzle.gameState c in
   let g' := PipePuzzle.gameState
               (PipePuzzle.rotateSettled (PipePuzzle.Fulfilled res)
                  (PipePuzzle.handleRotate c).1) in
   PipePuzzle.grid g' = PipePuzzle.toGrid (PipePuzzle.res_grid res) /\
   PipePuzzle.rotations g' =
     default (PipePuzzle.rotations g + 1) (PipePuzzle.res_rotations res) /\
   PipePuzzle.flips g' = PipePuzzle.flips g /\
   PipePuzzle.moves g' = PipePuzzle.moves g /\
   PipePuzzle.selectedTile g' = PipePuzzle.selectedTile g /\
   PipePuzzle.status g' = PipePuzzle.status g) /\
  (let g := PipePuzzle.gameState c in
   let g' := PipePuzzle.gameState
               (PipePuzzle.flipSettled (PipePuzzle.Fulfilled res)
                  (PipePuzzle.handleFlip c).1) in
   PipePuzzle.grid g' = PipePuzzle.toGrid (PipePuzzle.res_grid res) /\
   PipePuzzle.flips g' =
     default (PipePuzzle.flips g + 1) (PipePuzzle.res_flips res) /\
   PipePuzzle.rotations g' = PipePuzzle.rotations g /\
   PipePuzzle.moves g' = PipePuzzle.moves g /\
   PipePuzzle.selectedTile g' = PipePuzzle.selectedTile g /\
   PipePuzzle.status g' = PipePuzzle.status g) /\
  (forall req,
     (PipePuzzle.handleTileClick pos c).2 = Some req ->
     let g := PipePuzzle.gameState c in
     let g' := PipePuzzle.gameState
                 (PipePuzzle.selectSettled (PipePuzzle.Fulfilled sel)
                    (PipePuzzle.handleTileClick pos c).1) in
     PipePuzzle.moves g' = PipePuzzle.moves g + 1 /\
     PipePuzzle.selectedTile g' = Some pos /\
     PipePuzzle.grid g' = PipePuzzle.grid g).
Proof.
  split; [|split].
  - rewrite handleRotate_state. simpl.
    destruct (PipePuzzle.res_rotations res); repeat split.
  - rewrite handleFlip_state. simpl.
    destruct (PipePuzzle.res_flips res); repeat split.
  - intros req Hreq.
    destruct (handleTileClick_issued _ _ _ Hreq) as (_ & _ & ->).
    repeat split.
Qed.

Lemma C7_counters_witness :
  let res := PipePuzzle.mkGridResponse [] (Some 5) None in
  (let g := PipePuzzle.gameState sampleComponent in
   let g' := PipePuzzle.gameState
               (PipePuzzle.rotateSettled (PipePuzzle.Fulfilled res)
                  (PipePuzzle.handleRotate sampleComponent).1) in
   PipePuzzle.grid g' = PipePuzzle.toGrid (PipePuzzle.res_grid res) /\
   PipePuzzle.rotations g' = 5) /\
  (let g := PipePuzzle.gameState sampleComponent in
   let g' := PipePuzzle.gameState
               (PipePuzzle.flipSettled (PipePuzzle.Fulfilled res)
                  (PipePuzzle.handleFlip sampleComponent).1) in
   PipePuzzle.grid g' = PipePuzzle.toGrid (PipePuzzle.res_grid res) /\
   PipePuzzle.flips g' = PipePuzzle.flips g + 1) /\
  (let g := PipePuzzle.gameState sampleComponent in
   let g' := PipePuzzle.gameState
               (PipePuzzle.selectSettled
                  (PipePuzzle.Fulfilled (PipePuzzle.mkSelectResponse 7))
                  (PipePuzzle.handleTileClick (PipePuzzle.mkPosition 1 2)
                     sampleComponent).1) in
   PipePuzzle.moves g' = PipePuzzle.moves g + 1 /\
   PipePuzzle.selectedTile g' = Some (PipePuzzle.mkPosition 1 2) /\
   PipePuzzle.grid g' = PipePuzzle.grid g).
Proof.
  destruct (C7_counters_after_successful_call sampleComponent
              (PipePuzzle.mkPosition 1 2)
              (PipePuzzle.mkGridResponse [] (Some 5) None)
              (PipePuzzle.mkSelectResponse 7)) as (Hrot & Hflip & Hsel).
  split; [|split].
  - split; [apply Hrot | apply Hrot].
  - split; [apply Hflip | apply Hflip].
  - apply (Hsel (PipePuzzle.SelectTile "s1" 1 2)). reflexivity.
Defined.

(** C7 as stated fails for select: the response of a successful select
    carries [moves = 7], the local counter ends at 1. *)
Lemma C7_select_response_counterexample :
  (PipePuzzle.handleTileClick (PipePuzzle.mkPosition 1 2) sampleComponent).2 =
    Some (PipePuzzle.SelectTile "s1" 1 2) /\
  let sel := PipePuzzle.mkSelectResponse 7 in
  let c' := PipePuzzle.selectSettled (PipePuzzle.Fulfilled sel)
              (PipePuzzle.handleTileClick (PipePuzzle.mkPosition 1 2)
                 sampleComponent).1 in
  PipePuzzle.moves (PipePuzzle.gameState c') = 1 /\
  PipePuzzle.moves (PipePuzzle.gameState c') <> PipePuzzle.res_moves sel.
Proof.
  repeat split. vm_compute. discriminate.
Qed.

(** ** Accepted submit *)

Lemma animationDone_twice c :
  PipePuzzle.animationDone (PipePuzzle.animationDone c) =
  PipePuzzle.animationDone c.
Proof. reflexivity. Qed.

Lemma fireDue_fold now l : forall c,
  foldl (fun c due => if due <=? now then PipePuzzle.animationDone c else c)
        c l =
  if existsb (fun due => due <=? now) l then PipePuzzle.animationDone c
  else c.
Proof.
  induction l as [|due l IH]; intros c; [reflexivity|].
  simpl. rewrite IH. destruct (due <=? now); simpl; [|reflexivity].
  destruct (existsb _ l); reflexivity.
Qed.

(** Letting the clock reach [now] runs the callback when some timeout is
    due by then, and changes nothing otherwise. *)
Lemma fireDue_spec now c :
  let pending :=
    List.filter (fun due => negb (due <=? now)) (PipePuzzle.timers c) in
  PipePuzzle.fireDue now c =
    if existsb (fun due => due <=? now) (PipePuzzle.timers c)
    then PipePuzzle.animationDone (PipePuzzle.setTimers pending c)
    else c.
Proof.
  cbv zeta. unfold PipePuzzle.fireDue. rewrite fireDue_fold.
  destruct (existsb _ (PipePuzzle.timers c)) eqn:Hex; [reflexivity|].
  assert (Hsame : List.filter (fun due => negb (due <=? now))
                    (PipePuzzle.timers c) = PipePuzzle.timers c).
  { clear -Hex. induction (PipePuzzle.timers c) as [|d l IH]; [reflexivity|].
    simpl in *. apply orb_false_iff in Hex as [Hd Hl]. rewrite Hd. simpl.
    rewrite IH by exact Hl. reflexivity. }
  rewrite Hsame. destruct c; reflexivity.
Qed.

Lemma fireDue_status now c :
  PipePuzzle.status (PipePuzzle.gameState (PipePuzzle.fireDue now c)) =
    if existsb (fun due => due <=? now) (PipePuzzle.timers c)
    then PipePuzzle.WON
    else PipePuzzle.status (PipePuzzle.gameState c).
Proof.
  rewrite fireDue_spec. cbv zeta.
  destruct (existsb _ (PipePuzzle.timers c)); reflexivity.
Qed.

Lemma existsb_due now (l : list Z) :
  existsb (fun due => due <=? now) l = true <-> exists d, d ∈ l /\ d <= now.
Proof.
  induction l as [|d l IH]; simpl.
  - split; [discriminate|]. intros (d & Hin & _). inversion Hin.
  - rewrite orb_true_iff, IH, Z.leb_le. split.
    + intros [Hd | (d' & Hin & Hd)].
      * exists d. split; [left | exact Hd].
      * exists d'. split; [right; exact Hin | exact Hd].
    + intros (d' & Hin & Hd). inversion Hin; subst.
      * left. exact Hd.
      * right. exists d'. split; assumption.
Qed.

(** C8 (as amended): an accepted submit with a path of length L puts the
    controller in the ANIMATING state and schedules the WON transition
    with the delay L * ANIMATION_STEP_MS + ANIMATION_END_BUFFER_MS, which
    lies between L ticks and L ticks plus the buffer plus one tick.  The
    status is WON as soon as one pending transition is due, this one or
    one scheduled by an earlier accepted submit, and ANIMATING before
    that: so it is WON once this timeout is due, and, when no other
    timeout is pending, still ANIMATING at every instant before. *)
Theorem C8_accepted_submit_schedules_win c now res p :
  PipePuzzle.valid res = true ->
  PipePuzzle.path res = Some p ->
  let L := Z.of_nat (length p) in
  let c1 := PipePuzzle.submitSettled now (PipePuzzle.Fulfilled res) c in
  let due :=
    now + (L * PipePuzzle.ANIMATION_STEP_MS +
           PipePuzzle.ANIMATION_END_BUFFER_MS) in
  let statusAt t :=
    PipePuzzle.status (PipePuzzle.gameState (PipePuzzle.fireDue t c1)) in
  PipePuzzle.status (PipePuzzle.gameState c1) = PipePuzzle.ANIMATING /\
  PipePuzzle.animationPath c1 = p /\
  PipePuzzle.timers c1 = PipePuzzle.timers c ++ [due] /\
  now + L * PipePuzzle.ANIMATION_STEP_MS <= due /\
  due <= now + L * PipePuzzle.ANIMATION_STEP_MS +
         PipePuzzle.ANIMATION_END_BUFFER_MS + PipePuzzle.ANIMATION_STEP_MS /\
  PipePuzzle.status (PipePuzzle.gameState (PipePuzzle.animationDone c1)) =
    PipePuzzle.WON /\
  forall t,
    ((exists d, d ∈ PipePuzzle.timers c1 /\ d <= t) ->
     statusAt t = PipePuzzle.WON) /\
    ((forall d, d ∈ PipePuzzle.timers c1 -> t < d) ->
     statusAt t = PipePuzzle.ANIMATING) /\
    (due <= t -> statusAt t = PipePuzzle.WON) /\
    (PipePuzzle.timers c = [] -> t < due ->
     statusAt t = PipePuzzle.ANIMATING).
Proof.
  intros Hvalid Hpath. cbv zeta.
  assert (Htimers :
    PipePuzzle.timers
      (PipePuzzle.submitSettled now (PipePuzzle.Fulfilled res) c) =
    PipePuzzle.timers c ++
      [now + (Z.of_nat (length p) * PipePuzzle.ANIMATION_STEP_MS +
              PipePuzzle.ANIMATION_END_BUFFER_MS)]).
  { unfold PipePuzzle.submitSettled. rewrite Hvalid, Hpath. reflexivity. }
  assert (Hstatus :
    PipePuzzle.status (PipePuzzle.gameState
      (PipePuzzle.submitSettled now (PipePuzzle.Fulfilled res) c)) =
    PipePuzzle.ANIMATING).
  { unfold PipePuzzle.submitSettled. rewrite Hvalid, Hpath. reflexivity. }
  split; [exact Hstatus|].
  split; [unfold PipePuzzle.submitSettled; rewrite Hvalid, Hpath; reflexivity|].
  split; [exact Htimers|].
  unfold PipePuzzle.ANIMATION_STEP_MS, PipePuzzle.ANIMATION_END_BUFFER_MS in *.
  split; [lia|]. split; [lia|]. split; [reflexivity|].
  intros t. rewrite fireDue_status, Hstatus.
  assert (Hdue : forall P : Prop,
    (exists d, d ∈ PipePuzzle.timers
        (PipePuzzle.submitSettled now (PipePuzzle.Fulfilled res) c) /\ d <= t) ->
    (if existsb (fun due => due <=? t)
          (PipePuzzle.timers
             (PipePuzzle.submitSettled now (PipePuzzle.Fulfilled res) c))
     then PipePuzzle.WON else PipePuzzle.ANIMATING) = PipePuzzle.WON).
  { intros _ Hex. apply existsb_due in Hex. rewrite Hex. reflexivity. }
  assert (Hnot :
    (forall d, d ∈ PipePuzzle.timers
        (PipePuzzle.submitSettled now (PipePuzzle.Fulfilled res) c) -> t < d) ->
    (if existsb (fun due => due <=? t)
          (PipePuzzle.timers
             (PipePuzzle.submitSettled now (PipePuzzle.Fulfilled res) c))
     then PipePuzzle.WON else PipePuzzle.ANIMATING) = PipePuzzle.ANIMATING).
  { intros Hall.
    destruct (existsb _ _) eqn:Hex; [|reflexivity].
    apply existsb_due in Hex as (d & Hin & Hd). specialize (Hall d Hin). lia. }
  split; [apply (Hdue True)|]. split; [exact Hnot|]. split.
  - intros Ht. apply (Hdue True). eexists. split; [|exact Ht].
    rewrite Htimers. apply elem_of_app. right. apply list_elem_of_singleton.
    reflexivity.
  - intros Hnone Ht. apply Hnot. intros d. rewrite Htimers, Hnone. simpl.
    intros Hin. apply list_elem_of_singleton in Hin. subst d. exact Ht.
Qed.

(** C8 as stated fails for a second accepted submit: two submits are sent
    before the first answer arrives, and both are accepted with a path of
    three cells, the second one second after the first.  The WON
    transition of the first fires 1000 ms after the second was accepted,
    before the three ticks of its animation have passed. *)
Lemma C8_second_accepted_submit_counterexample :
  exists w w',
    PathfinderGame.run (PathfinderGame.mount 1 3)
      PathfinderGame.doubleSubmitTrace = Some w /\
    PipePuzzle.status (PipePuzzle.gameState (PathfinderGame.comp w)) =
      PipePuzzle.ANIMATING /\
    Z.of_nat (length (PipePuzzle.animationPath (PathfinderGame.comp w))) = 3 /\
    PipePuzzle.timers (PathfinderGame.comp w) = [ 2000; 3000 ] /\
    PathfinderGame.step w (PathfinderGame.Clock 2000) = Some w' /\
    PipePuzzle.status (PipePuzzle.gameState (PathfinderGame.comp w')) =
      PipePuzzle.WON /\
    2000 < 1000 + 3 * PipePuzzle.ANIMATION_STEP_MS.
Proof.
  eexists _, _. split; [vm_compute; reflexivity|].
  split; [vm_compute; reflexivity|]. split; [vm_compute; reflexivity|].
  split; [vm_compute; reflexivity|]. split; [vm_compute; reflexivity|].
  split; [vm_compute; reflexivity|]. vm_compute. reflexivity.
Qed.

Lemma C8_accepted_submit_witness :
  let p := [ PipePuzzle.mkCell 0 0; PipePuzzle.mkCell 0 1;
             PipePuzzle.mkCell 1 1 ] in
  let c1 := PipePuzzle.submitSettled 10000
              (PipePuzzle.Fulfilled
                 (PipePuzzle.mkSubmitResponse true "WON" (Some p)))
              sampleComponent in
  PipePuzzle.status (PipePuzzle.gameState c1) = PipePuzzle.ANIMATING /\
  PipePuzzle.timers c1 = [ 12000 ] /\
  PipePuzzle.status (PipePuzzle.gameState (PipePuzzle.fireDue 11199 c1)) =
    PipePuzzle.ANIMATING /\
  PipePuzzle.status (PipePuzzle.gameState (PipePuzzle.fireDue 12400 c1)) =
    PipePuzzle.WON.
Proof.
  destruct (C8_accepted_submit_schedules_win sampleComponent 10000
              (PipePuzzle.mkSubmitResponse true "WON"
                 (Some [ PipePuzzle.mkCell 0 0; PipePuzzle.mkCell 0 1;
                         PipePuzzle.mkCell 1 1 ]))
              [ PipePuzzle.mkCell 0 0; PipePuzzle.mkCell 0 1;
                PipePuzzle.mkCell 1 1 ] eq_refl eq_refl)
    as (Hstatus & _ & Htimers & _ & _ & _ & Hfire).
  split; [exact Hstatus|]. split; [exact Htimers|].
  destruct (Hfire 11199) as (_ & _ & _ & Hbefore).
  destruct (Hfire 12400) as (_ & _ & Hafter & _).
  split.
  - apply (Hbefore eq_refl). vm_compute. reflexivity.
  - apply Hafter. vm_compute. discriminate.
Defined.

(** * Round end and session end *)

Section RoundEndFacts.

Variable random : nat -> Q.

(** Once the latch is set, [endRound] does nothing. *)
Lemma endRound_latched cl completed now st :
  roundEndedRef st = true -> endRound random cl completed now st = Some st.
Proof. intros H. unfold endRound. rewrite H. reflexivity. Qed.

(** A round end that terminates the session leaves the latch set, so a
    second round end is ignored. *)
Lemma endRound_terminal_once cl cl' completed completed' now now' st st' :
  ((c_sessionTime cl <=? 0) || (c_round cl >=? TOTAL_QUESTIONS)) = true ->
  endRound random cl completed now st = Some st' ->
  endRound random cl' completed' now' st' = Some st'.
Proof.
  intros Hterm Hend. apply endRound_latched.
  apply endRound_cases in Hend
    as [[Hl ->] | (_ & result & _ & [[_ ->] | [Hterm' _]])].
  - exact Hl.
  - reflexivity.
  - congruence.
Qed.

(** A round end that starts the next round leaves the latch cleared. *)
Lemma endRound_advance_clears_latch cl completed now st st' :
  roundEndedRef st = false ->
  ((c_sessionTime cl <=? 0) || (c_round cl >=? TOTAL_QUESTIONS)) = false ->
  endRound random cl completed now st = Some st' ->
  roundEndedRef st' = false /\ round st' = round st + 1 /\
  length (roundResults st') = S (length (roundResults st)).
Proof.
  intros Hl Hterm Hend.
  apply endRound_cases in Hend
    as [[Hl' _] | (_ & result & _ & [[Hterm' _] | [_ Hstart]])];
    [congruence | congruence |].
  apply startRound_Some in Hstart as (cfg & bs & k & _ & _ & ->). simpl.
  repeat split. rewrite length_app. simpl. lia.
Qed.

(** Only [startRound] clears the latch: once it is set, every event leaves
    it set. *)
Lemma latch_stays_set st ev st' :
  Inv st -> roundEndedRef st = true -> step random st ev = Some st' ->
  roundEndedRef st' = true.
Proof.
  intros Hinv Hlatch Hstep.
  destruct ev as [now | | now | bubbleId | now | now]; simpl in Hstep.
  - destruct (screen st) eqn:Hscreen;
      [|injection Hstep as <-; exact Hlatch ..].
    destruct Hinv as (_ & _ & _ & Hinit & _).
    rewrite (Hinit Hscreen) in Hlatch. discriminate Hlatch.
  - injection Hstep as <-. unfold sessionTick.
    destruct (negb _); [exact Hlatch|].
    destruct (_ <=? _); exact Hlatch.
  - unfold roundTick in Hstep. destruct (negb _);
      [injection Hstep as <-; exact Hlatch|].
    destruct (_ <=? _); [|injection Hstep as <-; exact Hlatch].
    rewrite endRound_latched in Hstep by exact Hlatch.
    injection Hstep as <-. exact Hlatch.
  - injection Hstep as <-.
    destruct (handleBubbleClick_cases st bubbleId
                (slotIds_NoDup _ (proj1 Hinv)))
      as [-> | [(b & <- & Hscreen & Hp & Hfirst)
               | (b & <- & Hscreen & Hp & Hin & Hsel & Hnot)]];
      [exact Hlatch | |].
    + rewrite (handleBubbleClick_first st b Hscreen Hp
                 (slotIds_NoDup _ (proj1 Hinv)) Hfirst).
      cbv zeta. destruct (_ =? _)%nat; exact Hlatch.
    + rewrite (handleBubbleClick_other st b Hscreen Hp
                 (slotIds_NoDup _ (proj1 Hinv)) Hin Hsel Hnot).
      exact Hlatch.
  - unfold settle in Hstep.
    destruct (timeouts st) as [|[delay cl] rest];
      [injection Hstep as <-; exact Hlatch|].
    rewrite endRound_latched in Hstep by exact Hlatch.
    injection Hstep as <-. exact Hlatch.
  - destruct (isPlaying st); injection Hstep as <-; exact Hlatch.
Qed.

(** When the session countdown runs out the screen becomes COMPLETE and
    the result list is left as it is: one entry short of the number of
    rounds entered. *)
Lemma sessionTick_expiry st :
  reachable random st -> screen st = PLAYING -> sessionTime st <= 1 ->
  let st' := sessionTick st in
  screen st' = COMPLETE /\ roundResults st' = roundResults st /\
  Z.of_nat (length (roundResults st')) = round st' - 1.
Proof.
  intros Hreach Hscreen Htime.
  pose proof (reachable_Inv _ _ Hreach) as (_ & _ & _ & _ & _ & _ & _ & Hres).
  cbv zeta. unfold sessionTick.
  rewrite (proj2 (isPlaying_true st) Hscreen). simpl.
  destruct (Z.leb_spec (sessionTime st) 1); [|lia]. simpl.
  repeat split. apply Hres, Hscreen.
Qed.

End RoundEndFacts.


(** C3 (the code at the failing input): the round interval ends round 1
    inside the settle delay of the completed round, and the settle
    timeout ends it again: two results are recorded for round 1 and the
    round index goes from 1 to 3. *)
Theorem C3_round_end_runs_twice :
  exists before st,
    run sampleRandom initialState (take 18 raceTrace) = Some before /\
    round before = 1 /\ roundResults before = [] /\
    run sampleRandom initialState raceTrace = Some st /\
    round st = 3 /\
    roundResults st =
      [ mkResult 1 3 0 3 15 false; mkResult 1 2 0 2 0 true ] /\
    roundEndedRef st = false.
Proof.
  eexists _, _. split; [vm_compute; reflexivity|].
  split; [reflexivity|]. split; [reflexivity|].
  split; [vm_compute; reflexivity|]. repeat split.
Qed.

(** The early-submit exit, from the state in which the session interval
    would end the session: the round in progress is recorded. *)
Example early_submit_records_round :
  exists st,
    run sampleRandom initialState
      (Start 0 :: replicate 419 SessionTick ++ [Submit 7000]) = Some st /\
    screen st = COMPLETE /\
    roundResults st = [ mkResult 1 0 0 0 7 false ].
Proof. eexists. split; [vm_compute; reflexivity|]. split; reflexivity. Qed.

(** A round completed by the candidate is recorded by the [endRound] that
    the last click closed over: the result carries the [correctCount] of
    the render before that click. *)
Example completed_round_result :
  exists st,
    run sampleRandom initialState
      [ Start 0; Click 0; Click 1; Click 2; Settle 3250 ] = Some st /\
    round st = 2 /\
    roundResults st = [ mkResult 1 2 0 2 3 true ].
Proof. eexists. split; [vm_compute; reflexivity|]. split; reflexivity. Qed.

(** * Further properties of the local engine *)

(** ** The generator *)

Section GeneratorEdges.

Variable random : nat -> Q.
Hypothesis random_unit : unit_interval random.

Lemma randomBelow_nonpositive n k :
  n <= 0 -> n <= (randomBelow random n k).1 <= 0.
Proof.
  intros Hn.
  change ((randomBelow random n k).1) with (Qfloor (random k * inject_Z n)).
  destruct (random_unit k) as [H0 H1].
  assert (Hq : (inject_Z n <= 0)%Q)
    by (change (inject_Z n <= inject_Z 0)%Q; rewrite <- Zle_Qle; exact Hn).
  assert (Hup : (random k * inject_Z n <= 0)%Q) by nra.
  assert (Hlo : (inject_Z n <= random k * inject_Z n)%Q) by nra.
  split.
  - rewrite <- (Qfloor_Z n) at 1. apply Qfloor_resp_le. exact Hlo.
  - change 0 with (Qfloor (inject_Z 0)). apply Qfloor_resp_le. exact Hup.
Qed.

(** X1: [randomInt(min, max)] returns an integer of the range when the
    range is not empty; when [max < min] it returns an integer above
    [max], at most [min]. *)
Theorem X1_randomInt_bounds lo hi k :
  (lo <= hi -> lo <= (randomInt random lo hi k).1 <= hi) /\
  (hi < lo -> hi < (randomInt random lo hi k).1 <= lo).
Proof.
  split; intros H.
  - apply randomInt_range; assumption.
  - pose proof (randomBelow_nonpositive (hi - lo + 1) k ltac:(lia)) as Hr.
    change ((randomInt random lo hi k).1)
      with ((randomBelow random (hi - lo + 1) k).1 + lo).
    lia.
Qed.

Lemma generateExpression_value_bounds ops maxNum k :
  2 <= maxNum ->
  0 <= e_value (generateExpression random ops maxNum k).1
    <= Z.max (2 * maxNum) 108.
Proof.
  intros Hm.
  assert (Hadd : forall k0,
            0 <= e_value (generateAddition random maxNum k0).1
              <= Z.max (2 * maxNum) 108).
  { intros k0.
    set (P := fun e => 0 <= e_value e <= Z.max (2 * maxNum) 108).
    change (P (generateAddition random maxNum k0).1).
    unfold generateAddition, rbind.
    pose proof (randomInt_range random random_unit 1 maxNum k0 ltac:(lia)) as Ha.
    destruct (randomInt random 1 maxNum k0) as [a k1].
    pose proof (randomInt_range random random_unit 1 maxNum k1 ltac:(lia)) as Hb.
    destruct (randomInt random 1 maxNum k1) as [b k2].
    unfold P. simpl in *. lia. }
  set (P := fun e => 0 <= e_value e <= Z.max (2 * maxNum) 108) in *.
  change (P (generateExpression random ops maxNum k).1).
  unfold generateExpression, rbind at 1.
  destruct (randomBelow random (Z.of_nat (length ops)) k) as [idx k0].
  destruct (arr_get ops idx) as [[]|]; unfold rbind.
  - apply Hadd.
  - pose proof (randomInt_range random random_unit 2 maxNum k0 ltac:(lia)) as Ha.
    destruct (randomInt random 2 maxNum k0) as [a k1]. simpl in Ha.
    pose proof (randomInt_range random random_unit 0 a k1 ltac:(lia)) as Hb.
    destruct (randomInt random 0 a k1) as [b k2].
    unfold P. simpl in *. lia.
  - pose proof (randomInt_range random random_unit 1 (Z.min maxNum 12) k0
                  ltac:(lia)) as Ha.
    destruct (randomInt random 1 (Z.min maxNum 12) k0) as [a k1].
    pose proof (randomInt_range random random_unit 1 (Z.min maxNum 9) k1
                  ltac:(lia)) as Hb.
    destruct (randomInt random 1 (Z.min maxNum 9) k1) as [b k2].
    unfold P. simpl in *. split; [apply Z.mul_nonneg_nonneg; lia|].
    assert (a * b <= 12 * 9) by (apply Z.mul_le_mono_nonneg; lia). lia.
  - pose proof (randomInt_range random random_unit 2 (Z.min maxNum 10) k0
                  ltac:(lia)) as Hb.
    destruct (randomInt random 2 (Z.min maxNum 10) k0) as [b k1].
    pose proof (randomInt_range random random_unit 1 (Z.min maxNum 12) k1
                  ltac:(lia)) as Hv.
    destruct (randomInt random 1 (Z.min maxNum 12) k1) as [v k2].
    unfold P. simpl in *. lia.
  - apply Hadd.
Qed.

(** X2: every stimulus of a generated round has a value between 0 and
    max(2 * maxNumber, 108): sums stay below twice the operand bound,
    differences are never negative, products are at most 12 * 9. *)
Theorem X2_generated_values_bounded config round k bs k' :
  2 <= maxNumber config ->
  generateBubbles random config round k = (Some bs, k') ->
  Forall (fun b => 0 <= b_value b <= Z.max (2 * maxNumber config) 108) bs.
Proof.
  intros Hmax Hgen.
  rewrite generateBubbles_log in Hgen.
  unfold generateBubblesLog in Hgen.
  destruct (fillSlots _ _ _ _ _ _ _ _) as [[log|] k1] eqn:Hfill;
    [|discriminate Hgen].
  injection Hgen as <- _.
  apply (fillSlots_Some random
           (fun e => 0 <= e_value e <= Z.max (2 * maxNumber config) 108))
    in Hfill as (new & -> & _ & Hslots);
    [|intros k0; apply generateExpression_value_bounds; assumption].
  apply slotsFrom_Forall in Hslots. exact Hslots.
Qed.

End GeneratorEdges.

Lemma X1_randomInt_witness :
  2 <= (randomInt sampleRandom 2 10 0%nat).1 <= 10 /\
  1 < (randomInt sampleRandom 2 1 0%nat).1 <= 2.
Proof.
  split.
  - apply (X1_randomInt_bounds sampleRandom sampleRandom_unit 2 10 0%nat). lia.
  - apply (X1_randomInt_bounds sampleRandom sampleRandom_unit 2 1 0%nat). lia.
Defined.

Lemma X2_generated_values_witness :
  Forall (fun b => 0 <= b_value b <= Z.max (2 * 20) 108)
         [ mkBubble 0 "14÷2" 7 false 50 20 130;
           mkBubble 1 "50÷5" 10 false 28 58 130;
           mkBubble 2 "11+19" 30 false 72 58 130 ].
Proof.
  apply (X2_generated_values_bounded sampleRandom sampleRandom_unit
           (mkConfig 3 [OpAdd; OpSub; OpMul; OpDiv] 20 ROUND_TIME) 1 0%nat
           _ 9%nat).
  - simpl. lia.
  - vm_compute. reflexivity.
Defined.

Section LayoutFacts.

Variable random : nat -> Q.

Lemma fillSlots_spots n :
  forall config layout i used acc k log k',
    fillSlots random n config layout i used acc k = (Some log, k') ->
    exists new,
      log = acc ++ new /\
      forall j slot,
        new !! j = Some slot ->
        exists spot,
          layout ≫= (fun l => arr_get l (i + Z.of_nat j)) = Some spot /\
          b_offsetX slot.1 = x spot /\ b_offsetY slot.1 = y spot /\
          b_size slot.1 = s spot.
Proof.
  induction n as [|n IH]; intros config layout i used acc k log k' Hfill.
  - simpl in Hfill. injection Hfill as <- _. exists [].
    rewrite app_nil_r. split; [reflexivity|]. intros j slot Hj. discriminate Hj.
  - rewrite fillSlots_S in Hfill.
    destruct (retryLoop random 49 (operators config) (maxNumber config) used 0 k)
      as [[e a] k1].
    cbn [fst snd] in Hfill.
    destruct (layout ≫= (fun l => arr_get l i)) as [spot|] eqn:Hspot;
      [|discriminate Hfill].
    apply IH in Hfill as (new & -> & Hnew).
    eexists (_ :: new). rewrite <- app_assoc. split; [reflexivity|].
    intros [|j] slot Hj; simpl in Hj.
    + injection Hj as <-. exists spot. rewrite Z.add_0_r.
      split; [exact Hspot|]. repeat split.
    + destruct (Hnew j slot Hj) as (spot' & Hs & Hx & Hy & Hz).
      exists spot'. split; [|repeat split; assumption].
      rewrite <- Hs. f_equal.
      replace (i + Z.of_nat (S j)) with (i + 1 + Z.of_nat j) by lia.
      reflexivity.
Qed.

Lemma fillSlots_overflow n :
  forall config l i used acc k,
    0 <= i -> (Z.to_nat i <= length l < Z.to_nat i + n)%nat ->
    (fillSlots random n config (Some l) i used acc k).1 = None.
Proof.
  induction n as [|n IH]; intros config l i used acc k Hi Hlen.
  - lia.
  - rewrite fillSlots_S.
    destruct (retryLoop random 49 (operators config) (maxNumber config) used 0 k)
      as [[e a] k1].
    cbn [fst snd mbind option_bind]. unfold arr_get at 1.
    destruct (Z.ltb_spec i 0) as [?|_]; [lia|].
    destruct (l !! Z.to_nat i) as [spot|] eqn:Hspot; [|reflexivity].
    apply lookup_lt_Some in Hspot.
    apply IH; lia.
Qed.

Lemma layoutOf_period round : 1 <= round -> layoutOf (round + 4) = layoutOf round.
Proof.
  intros Hr. unfold layoutOf.
  change (Z.of_nat (length SCATTER_POSITIONS)) with 4.
  rewrite !Z.rem_mod_nonneg by lia.
  replace (round + 4 - 1) with (round - 1 + 1 * 4) by lia.
  rewrite Z_mod_plus_full. reflexivity.
Qed.

(** X3: the stimuli of a generated round carry their slot number as id,
    none is consumed, and the stimulus of slot j is placed on entry j of
    the layout chosen by the round number; the layouts come round again
    every four rounds. *)
Theorem X3_generated_round_layout config round k bs k' :
  generateBubbles random config round k = (Some bs, k') ->
  (forall j b,
     bs !! j = Some b ->
     b_id b = Z.of_nat j /\ b_selected b = false /\
     exists spot,
       layoutOf round ≫= (fun l => arr_get l (Z.of_nat j)) = Some spot /\
       b_offsetX b = x spot /\ b_offsetY b = y spot /\ b_size b = s spot) /\
  (1 <= round -> layoutOf (round + 4) = layoutOf round).
Proof.
  intros Hgen. split; [|apply layoutOf_period].
  pose proof (generateBubbles_fresh random _ _ _ _ _ Hgen) as (Hids & Hun & _).
  rewrite generateBubbles_log in Hgen. unfold generateBubblesLog in Hgen.
  fold (layoutOf round) in Hgen.
  destruct (fillSlots _ _ _ _ _ _ _ _) as [[log|] k1] eqn:Hfill;
    [|discriminate Hgen].
  injection Hgen as <- _.
  apply fillSlots_spots in Hfill as (new & -> & Hnew). simpl in *.
  intros j b Hj. split; [apply Hids, Hj|]. split.
  - apply list_elem_of_lookup_2 in Hj. rewrite <- Hun in Hj.
    apply elem_of_unselectedOf in Hj as [_ Hj]. exact Hj.
  - rewrite list_lookup_fmap in Hj.
    destruct (new !! j) as [slot|] eqn:Hs; [|discriminate Hj].
    injection Hj as <-. destruct (Hnew j slot Hs) as (spot & Hspot & Hxyz).
    exists spot. split; [exact Hspot | exact Hxyz].
Qed.

(** X4: a configuration with more slots than the layout has entries makes
    [generateBubbles] raise: with four or more bubbles the read of
    [layout[3].x] fails. *)
Theorem X4_generateBubbles_raises_beyond_layout config round k :
  3 < bubbleCount config -> 1 <= round ->
  (generateBubbles random config round k).1 = None.
Proof.
  intros Hcount Hround. rewrite generateBubbles_log. cbn [fst].
  unfold generateBubblesLog.
  destruct (layout_defined round Hround) as (l & -> & Hl).
  rewrite fillSlots_overflow; [reflexivity | lia | simpl; lia].
Qed.

End LayoutFacts.

Lemma X3_generated_round_witness :
  (forall j b,
     [ mkBubble 0 "3+11" 14 false 50 20 130;
       mkBubble 1 "7+16" 23 false 28 58 130;
       mkBubble 2 "11+19" 30 false 72 58 130 ] !! j = Some b ->
     b_id b = Z.of_nat j /\ b_selected b = false /\
     exists spot,
       layoutOf 1 ≫= (fun l => arr_get l (Z.of_nat j)) = Some spot /\
       b_offsetX b = x spot /\ b_offsetY b = y spot /\ b_size b = s spot) /\
  layoutOf (1 + 4) = layoutOf 1.
Proof.
  destruct (X3_generated_round_layout sampleRandom
              (mkConfig 3 [OpAdd] 20 ROUND_TIME) 1 0%nat
              [ mkBubble 0 "3+11" 14 false 50 20 130;
                mkBubble 1 "7+16" 23 false 28 58 130;
                mkBubble 2 "11+19" 30 false 72 58 130 ] 9%nat)
    as [Hslots Hperiod].
  - vm_compute. reflexivity.
  - split; [exact Hslots | apply Hperiod; lia].
Defined.

Lemma X4_generateBubbles_raises_witness :
  (generateBubbles sampleRandom (mkConfig 4 [OpAdd] 20 ROUND_TIME) 1 0%nat).1 =
    None.
Proof.
  apply (X4_generateBubbles_raises_beyond_layout sampleRandom
           (mkConfig 4 [OpAdd] 20 ROUND_TIME) 1 0%nat); simpl; lia.
Defined.

(** ** The controller *)

Section ControllerMore.

Variable random : nat -> Q.

Lemma startRound_config roundNum now st :
  startRound random roundNum now st =
    match configFor roundNum with
    | None => None
    | Some cfg =>
        match generateBubbles random cfg roundNum (cursor st) with
        | (Some bs, k) =>
            Some (mkState (screen st) (round st) (sessionTime st)
                    (cfg_roundTime cfg) bs 0 (roundResults st) 0 0
                    (totalScore st) false now false (timeouts st) k)
        | (None, _) => None
        end
    end.
Proof.
  unfold startRound, configFor.
  destruct (arr_get DIFFICULTY_TABLE _) as [cfg|]; [|reflexivity]. simpl.
  destruct (generateBubbles random cfg roundNum (cursor st)) as [[bs|] k];
    reflexivity.
Qed.

Lemma table_roundTime cfg i :
  arr_get DIFFICULTY_TABLE i = Some cfg -> cfg_roundTime cfg = ROUND_TIME.
Proof.
  unfold arr_get. destruct (i <? 0); [discriminate|]. intros H.
  apply list_elem_of_lookup_2 in H.
  assert (Hall : Forall (fun c => cfg_roundTime c = ROUND_TIME) DIFFICULTY_TABLE)
    by (repeat constructor).
  rewrite Forall_forall in Hall. apply Hall, H.
Qed.

Lemma startRound_roundTime roundNum now st st' :
  startRound random roundNum now st = Some st' -> roundTime st' = ROUND_TIME.
Proof.
  rewrite startRound_config. unfold configFor.
  destruct (arr_get DIFFICULTY_TABLE _) as [cfg|] eqn:Hcfg; [|discriminate].
  destruct (generateBubbles random cfg roundNum (cursor st)) as [[bs|] k];
    [|discriminate].
  intros H. injection H as <-. simpl. eapply table_roundTime, Hcfg.
Qed.

(** X5: the difficulty lookup is defined for every round number from 1
    on and stays at the last table entry from round 8 on; for a round
    number below 1 it is undefined and [startRound] raises.  A started
    round has three unconsumed stimuli, the counters at zero, the round
    clock at [ROUND_TIME] and the latch cleared. *)
Theorem X5_difficulty_lookup_saturates roundNum now st :
  (roundNum < 1 ->
   configFor roundNum = None /\ startRound random roundNum now st = None) /\
  (8 <= roundNum ->
   configFor roundNum =
     Some (mkConfig 3 [OpAdd; OpSub; OpMul; OpDiv] 30 ROUND_TIME)) /\
  (1 <= roundNum ->
   exists cfg st',
     configFor roundNum = Some cfg /\
     startRound random roundNum now st = Some st' /\
     (generateBubbles random cfg roundNum (cursor st)).1 = Some (bubbles st') /\
     length (bubbles st') = 3%nat /\ unselectedOf (bubbles st') = bubbles st' /\
     correctCount st' = 0 /\ wrongCount st' = 0 /\ processing st' = false /\
     roundTime st' = ROUND_TIME /\ roundEndedRef st' = false /\
     roundStartRef st' = now).
Proof.
  split; [|split].
  - intros Hr.
    assert (Hcfg : configFor roundNum = None).
    { unfold configFor, arr_get.
      destruct (Z.ltb_spec (Z.min (roundNum - 1)
                              (Z.of_nat (length DIFFICULTY_TABLE) - 1)) 0)
        as [_|Hge]; [reflexivity|].
      simpl in Hge. lia. }
    split; [exact Hcfg|]. rewrite startRound_config, Hcfg. reflexivity.
  - intros Hr. unfold configFor.
    change (Z.of_nat (length DIFFICULTY_TABLE) - 1) with 7.
    rewrite Z.min_r by lia. reflexivity.
  - intros Hr.
    destruct (startRound_total random roundNum now st Hr) as [st' Hstart].
    pose proof (startRound_roundTime _ _ _ _ Hstart) as Htime.
    pose proof Hstart as Hstart'.
    rewrite startRound_config in Hstart'.
    destruct (configFor roundNum) as [cfg|] eqn:Hcfg; [|discriminate Hstart'].
    destruct (generateBubbles random cfg roundNum (cursor st)) as [[bs|] k]
      eqn:Hgen; [|discriminate Hstart'].
    injection Hstart' as <-.
    pose proof (generateBubbles_fresh random _ _ _ _ _ Hgen)
      as (_ & Hun & _ & Hlen).
    rewrite (table_bubbleCount cfg _ Hcfg) in Hlen.
    exists cfg. eexists. split; [reflexivity|]. split; [exact Hstart|].
    rewrite Hgen. simpl in *. repeat split; assumption.
Qed.

(** X6: no handler of the engine raises in a state the component can
    reach: every event has a next state. *)
Theorem X6_engine_never_raises st ev :
  reachable random st -> is_Some (step random st ev).
Proof. intros Hreach. apply step_total, (reachable_Inv _ _ Hreach). Qed.

End ControllerMore.

Lemma X5_difficulty_lookup_witness :
  (configFor 0 = None /\ startRound sampleRandom 0 0 initialState = None) /\
  configFor 25 = Some (mkConfig 3 [OpAdd; OpSub; OpMul; OpDiv] 30 ROUND_TIME) /\
  exists cfg st',
    configFor 1 = Some cfg /\
    startRound sampleRandom 1 0 initialState = Some st' /\
    (generateBubbles sampleRandom cfg 1 (cursor initialState)).1 =
      Some (bubbles st') /\
    length (bubbles st') = 3%nat /\ unselectedOf (bubbles st') = bubbles st' /\
    correctCount st' = 0 /\ wrongCount st' = 0 /\ processing st' = false /\
    roundTime st' = ROUND_TIME /\ roundEndedRef st' = false /\
    roundStartRef st' = 0.
Proof.
  split; [|split].
  - apply (X5_difficulty_lookup_saturates sampleRandom 0 0 initialState). lia.
  - apply (X5_difficulty_lookup_saturates sampleRandom 25 0 initialState). lia.
  - apply (X5_difficulty_lookup_saturates sampleRandom 1 0 initialState). lia.
Defined.

Lemma X6_engine_never_raises_witness :
  is_Some (step sampleRandom sampleState (RoundTick 1000)).
Proof.
  apply (X6_engine_never_raises sampleRandom sampleState (RoundTick 1000)).
  apply (sample_reachable [Start 0; Click 1; Click 0]). vm_compute. reflexivity.
Defined.

(** ** Clocks, scores and the latch *)

Lemma scoreSum_app l r : scoreSum (l ++ [r]) = scoreSum l + r_score r.
Proof.
  unfold scoreSum. induction l as [|a l IH]; simpl; [lia|].
  rewrite IH. lia.
Qed.

Lemma ClockInv_init : ClockInv initialState.
Proof.
  unfold ClockInv, initialState, SESSION_DURATION, ROUND_TIME. simpl.
  repeat split; try lia; try congruence. constructor.
Qed.

Section ClockFacts.

Variable random : nat -> Q.

(** What [startRound] leaves alone and what it resets. *)
Lemma startRound_frame roundNum now st st' :
  startRound random roundNum now st = Some st' ->
  screen st' = screen st /\ round st' = round st /\
  sessionTime st' = sessionTime st /\ roundResults st' = roundResults st /\
  totalScore st' = totalScore st /\ timeouts st' = timeouts st /\
  roundTime st' = ROUND_TIME /\ selectionOrder st' = 0 /\
  correctCount st' = 0 /\ wrongCount st' = 0 /\ processing st' = false /\
  roundEndedRef st' = false /\ roundStartRef st' = now /\
  length (bubbles st') = 3%nat /\ unselectedOf (bubbles st') = bubbles st'.
Proof.
  intros Hstart. pose proof (startRound_roundTime _ _ _ _ _ Hstart) as Htime.
  apply startRound_Some in Hstart as (cfg & bs & k & Hcount & Hgen & ->).
  apply generateBubbles_fresh in Hgen as (_ & Hun & _ & Hlen).
  rewrite Hcount in Hlen. simpl in *. repeat split; assumption.
Qed.

(** What a round end that passes the latch does. *)
Lemma endRound_open cl completed now st st' :
  roundEndedRef st = false ->
  endRound random cl completed now st = Some st' ->
  let result :=
    mkResult (c_round cl) (c_correctCount cl) (c_wrongCount cl)
      (c_correctCount cl - c_wrongCount cl)
      (round_div_1000 (now - roundStartRef st)) completed in
  roundResults st' = roundResults st ++ [result] /\
  totalScore st' = totalScore st + r_score result /\
  sessionTime st' = sessionTime st /\ timeouts st' = timeouts st /\
  ((((c_sessionTime cl <=? 0) || (c_round cl >=? TOTAL_QUESTIONS)) = true /\
    screen st' = COMPLETE /\ round st' = round st /\
    roundTime st' = roundTime st /\ roundEndedRef st' = true /\
    bubbles st' = bubbles st /\ correctCount st' = correctCount st /\
    wrongCount st' = wrongCount st /\ selectionOrder st' = selectionOrder st /\
    processing st' = processing st) \/
   (((c_sessionTime cl <=? 0) || (c_round cl >=? TOTAL_QUESTIONS)) = false /\
    screen st' = screen st /\ round st' = round st + 1 /\
    roundTime st' = ROUND_TIME /\ roundEndedRef st' = false /\
    length (bubbles st') = 3%nat /\ unselectedOf (bubbles st') = bubbles st' /\
    correctCount st' = 0 /\ wrongCount st' = 0 /\ selectionOrder st' = 0 /\
    processing st' = false /\ roundStartRef st' = now)).
Proof.
  intros Hlatch Hend. cbv zeta.
  apply endRound_cases in Hend
    as [[Hl _] | (_ & result & -> & [[Hterm ->] | [Hterm Hstart]])];
    [congruence | |].
  - simpl. repeat split. left. repeat split. exact Hterm.
  - apply startRound_frame in Hstart
      as (Hs & Hr & Hst & Hres & Hts & Hto & Hrt & Hso & Hcc & Hwc & Hp & Hl
          & Hrs & Hlen & Hun).
    simpl in *. rewrite Hres, Hts, Hst, Hto.
    repeat split. right. repeat split; assumption.
Qed.

Lemma ClockInv_endRound cl completed now st st' :
  0 <= sessionTime st <= SESSION_DURATION ->
  (screen st = PLAYING -> 1 <= sessionTime st) ->
  0 <= roundTime st <= ROUND_TIME ->
  totalScore st = scoreSum (roundResults st) ->
  Forall (fun r => r_score r = r_correct r - r_wrong r) (roundResults st) ->
  selectionOrder st = correctCount st ->
  0 <= wrongCount st ->
  roundEndedRef st = false ->
  endRound random cl completed now st = Some st' ->
  ClockInv st'.
Proof.
  intros Hs Hsp Hr Hscore Hall Hso0 Hwc0 Hlatch Hend.
  destruct (endRound_open _ _ _ _ _ Hlatch Hend)
    as (Hres & Hts & Hst & _ & Hcase).
  assert (Hall' : Forall (fun r => r_score r = r_correct r - r_wrong r)
                    (roundResults st')).
  { rewrite Hres. apply Forall_app. split; [exact Hall|].
    repeat constructor. }
  assert (Hscore' : totalScore st' = scoreSum (roundResults st'))
    by (rewrite Hres, Hts, scoreSum_app, Hscore; reflexivity).
  unfold ClockInv.
  destruct Hcase as [(_ & Hscr & _ & Hrt & _ & _ & Hcc & Hwc & Hso & _)
                    | (_ & Hscr & _ & Hrt & Hl & _ & _ & Hcc & Hwc & Hso & _)].
  - rewrite Hst, Hscr, Hrt, Hcc, Hwc, Hso.
    repeat split; try assumption; try congruence; lia.
  - rewrite Hst, Hscr, Hrt, Hcc, Hwc, Hso.
    unfold ROUND_TIME.
    repeat split; try assumption; try congruence; lia.
Qed.

Lemma ClockInv_step st ev st' :
  Inv st -> ClockInv st -> step random st ev = Some st' -> ClockInv st'.
Proof.
  intros Hinv Hclock Hstep.
  pose proof Hclock
    as (Hs & Hsp & Hr & Hrp & Hscore & Hall & Hso & Hwc & Hlatch).
  destruct ev as [now | | now | bubbleId | now | now]; simpl in Hstep.
  - destruct (screen st) eqn:Hscreen;
      [|injection Hstep as <-; exact Hclock ..].
    unfold handleStart in Hstep.
    apply startRound_frame in Hstep
      as (Hs' & _ & Hst & Hres & Hts & _ & Hrt & Hso' & Hcc & Hwc' & _ & Hl & _).
    simpl in *. unfold ClockInv.
    rewrite Hs', Hst, Hres, Hts, Hrt, Hso', Hcc, Hwc'.
    unfold SESSION_DURATION, ROUND_TIME. simpl.
    repeat split; try lia; try congruence. constructor.
  - injection Hstep as <-. unfold sessionTick.
    destruct (isPlaying st) eqn:Hplay; simpl; [|exact Hclock].
    apply isPlaying_true in Hplay. specialize (Hsp Hplay).
    destruct (Z.leb_spec (sessionTime st) 1); unfold ClockInv; simpl;
      repeat split; try assumption; try congruence; try lia;
      unfold SESSION_DURATION in *; lia.
  - unfold roundTick in Hstep.
    destruct (isPlaying st) eqn:Hplay; simpl in Hstep;
      [|injection Hstep as <-; exact Hclock].
    apply isPlaying_true in Hplay. specialize (Hrp Hplay).
    destruct (Z.leb_spec (roundTime st) 1).
    + eapply ClockInv_endRound; [.. | exact Hstep]; simpl;
        try assumption; try (apply Hlatch, Hplay).
      unfold ROUND_TIME. lia.
    + injection Hstep as <-. unfold ClockInv; simpl.
      repeat split; try assumption; lia.
  - injection Hstep as <-.
    pose proof (slotIds_NoDup _ (proj1 Hinv)) as Hnd.
    destruct (handleBubbleClick_cases st bubbleId Hnd)
      as [-> | [(b & <- & Hscreen & Hp & Hfirst)
               | (b & <- & Hscreen & Hp & Hin & Hsel & Hnot)]];
      [exact Hclock | |].
    + rewrite (handleBubbleClick_first st b Hscreen Hp Hnd Hfirst). cbv zeta.
      destruct (_ =? _)%nat; unfold ClockInv; simpl;
        repeat split; try assumption; lia.
    + rewrite (handleBubbleClick_other st b Hscreen Hp Hnd Hin Hsel Hnot).
      unfold ClockInv; simpl. repeat split; try assumption; lia.
  - unfold settle in Hstep.
    destruct (timeouts st) as [|[delay cl] rest];
      [injection Hstep as <-; exact Hclock|].
    destruct (roundEndedRef st) eqn:Hl.
    + rewrite endRound_latched in Hstep by exact Hl.
      injection Hstep as <-. unfold ClockInv; simpl.
      repeat (split; [assumption|]). rewrite Hl. exact Hlatch.
    + eapply ClockInv_endRound; [.. | exact Hstep]; simpl; assumption.
  - destruct (isPlaying st) eqn:Hplay; injection Hstep as <-; [|exact Hclock].
    unfold handleSubmit, ClockInv; simpl.
    split; [exact Hs|]. split; [congruence|]. split; [exact Hr|].
    split; [congruence|].
    split; [rewrite scoreSum_app, Hscore; reflexivity|].
    split; [apply Forall_app; split; [exact Hall | repeat constructor]|].
    split; [exact Hso|]. split; [exact Hwc | congruence].
Qed.

Lemma reachable_ClockInv st : reachable random st -> ClockInv st.
Proof.
  induction 1 as [|st ev st' Hreach IH Hstep]; [apply ClockInv_init|].
  eapply ClockInv_step; [apply (reachable_Inv _ _ Hreach) | exact IH | exact Hstep].
Qed.

End ClockFacts.

(** ** What one event can change *)

Section EventFacts.

Variable random : nat -> Q.

Lemma endRound_effect cl completed now st st' :
  endRound random cl completed now st = Some st' ->
  (exists new, roundResults st' = roundResults st ++ new /\
               (length new <= 1)%nat) /\
  sessionTime st' = sessionTime st /\
  (screen st' = screen st \/ screen st' = COMPLETE).
Proof.
  intros Hend. destruct (roundEndedRef st) eqn:Hl.
  - rewrite endRound_latched in Hend by exact Hl. injection Hend as <-.
    split; [exists []; rewrite app_nil_r; split; [reflexivity | simpl; lia]|].
    split; [reflexivity | left; reflexivity].
  - destruct (endRound_open _ _ _ _ _ _ Hl Hend) as (Hres & _ & Hst & _ & Hcase).
    split; [eexists; split; [exact Hres | simpl; lia]|].
    split; [exact Hst|].
    destruct Hcase as [(_ & Hs & _) | (_ & Hs & _)]; [right | left]; exact Hs.
Qed.

Lemma step_effect st ev st' :
  Inv st -> ClockInv st -> step random st ev = Some st' ->
  (exists new, roundResults st' = roundResults st ++ new /\
               (length new <= 1)%nat) /\
  (sessionTime st' = sessionTime st \/
   (ev = SessionTick /\ screen st = PLAYING /\
    sessionTime st' = sessionTime st - 1)) /\
  (screen st = COMPLETE ->
   screen st' = COMPLETE /\ ((forall now, ev <> Settle now) -> st' = st)).
Proof.
  intros Hinv Hclock Hstep.
  pose proof Hinv as (_ & _ & _ & Hinit & _).
  pose proof Hclock as (_ & Hsp & _).
  assert (Hsame : forall s e, s = st ->
            (exists new, roundResults s = roundResults st ++ new /\
                         (length new <= 1)%nat) /\
            (sessionTime s = sessionTime st \/
             (e = SessionTick /\ screen st = PLAYING /\
              sessionTime s = sessionTime st - 1)) /\
            (screen st = COMPLETE ->
             screen s = COMPLETE /\
             ((forall now, e <> Settle now) -> s = st))).
  { intros s e ->. split; [exists []; rewrite app_nil_r; split;
                        [reflexivity | simpl; lia]|].
    split; [left; reflexivity|]. intros Hc. split; [exact Hc | reflexivity]. }
  destruct ev as [now | | now | bubbleId | now | now]; simpl in Hstep.
  - destruct (screen st) eqn:Hscreen;
      [|injection Hstep as <-; apply Hsame; reflexivity ..].
    unfold handleStart in Hstep.
    apply startRound_frame in Hstep as (_ & _ & Hst & Hres & _).
    simpl in *. rewrite (Hinit eq_refl) in *. simpl.
    split; [exists []; rewrite Hres; split; [reflexivity | simpl; lia]|].
    split; [left; exact Hst | discriminate].
  - unfold sessionTick in Hstep.
    destruct (isPlaying st) eqn:Hplay; injection Hstep as <-; simpl;
      [|apply Hsame; reflexivity].
    apply isPlaying_true in Hplay. specialize (Hsp Hplay).
    split; [exists []; rewrite app_nil_r;
            destruct (_ <=? _); split; try reflexivity; simpl; lia|].
    split; [|rewrite Hplay; discriminate].
    right. split; [reflexivity|]. split; [exact Hplay|].
    destruct (Z.leb_spec (sessionTime st) 1); simpl; lia.
  - unfold roundTick in Hstep.
    destruct (isPlaying st) eqn:Hplay; simpl in Hstep;
      [|injection Hstep as <-; apply Hsame; reflexivity].
    apply isPlaying_true in Hplay.
    destruct (_ <=? _).
    + apply endRound_effect in Hstep as (Hres & Hst & _). simpl in *.
      split; [exact Hres|]. split; [left; exact Hst|].
      rewrite Hplay. discriminate.
    + injection Hstep as <-. simpl.
      split; [exists []; rewrite app_nil_r; split; [reflexivity | simpl; lia]|].
      split; [left; reflexivity|]. rewrite Hplay. discriminate.
  - injection Hstep as <-.
    pose proof (slotIds_NoDup _ (proj1 Hinv)) as Hnd.
    destruct (handleBubbleClick_cases st bubbleId Hnd)
      as [Heq | [(b & <- & Hscreen & Hp & Hfirst)
               | (b & <- & Hscreen & Hp & Hin & Hsel & Hnot)]];
      [apply Hsame; exact Heq | |].
    + rewrite (handleBubbleClick_first st b Hscreen Hp Hnd Hfirst). cbv zeta.
      split; [exists []; rewrite app_nil_r;
              destruct (_ =? _)%nat; split; try reflexivity; simpl; lia|].
      split; [left; destruct (_ =? _)%nat; reflexivity|].
      rewrite Hscreen. discriminate.
    + rewrite (handleBubbleClick_other st b Hscreen Hp Hnd Hin Hsel Hnot).
      simpl.
      split; [exists []; rewrite app_nil_r; split; [reflexivity | simpl; lia]|].
      split; [left; reflexivity|]. rewrite Hscreen. discriminate.
  - unfold settle in Hstep.
    destruct (timeouts st) as [|[delay cl] rest];
      [injection Hstep as <-; apply Hsame; reflexivity|].
    apply endRound_effect in Hstep as (Hres & Hst & Hscr). simpl in *.
    split; [exact Hres|]. split; [left; exact Hst|].
    intros Hc. split; [destruct Hscr; congruence|].
    intros Hno. exfalso. apply (Hno now). reflexivity.
  - destruct (isPlaying st) eqn:Hplay; injection Hstep as <-;
      [|apply Hsame; reflexivity].
    apply isPlaying_true in Hplay. unfold handleSubmit. simpl.
    split; [eexists; split; [reflexivity | simpl; lia]|].
    split; [left; reflexivity|]. rewrite Hplay. discriminate.
Qed.

(** X7: the session clock starts at [SESSION_DURATION], stays between 0
    and that value, is at least 1 while the screen is PLAYING, and no
    event ever raises it or sets it back: it changes only by a tick of the
    session interval, by exactly one. *)
Theorem X7_session_clock_only_counts_down st ev st' :
  reachable random st -> step random st ev = Some st' ->
  0 <= sessionTime st' <= sessionTime st /\
  sessionTime st <= SESSION_DURATION /\
  (screen st' = PLAYING -> 1 <= sessionTime st') /\
  (sessionTime st' = sessionTime st \/
   (ev = SessionTick /\ screen st = PLAYING /\
    sessionTime st' = sessionTime st - 1)).
Proof.
  intros Hreach Hstep.
  pose proof (reachable_Inv _ _ Hreach) as Hinv.
  pose proof (reachable_ClockInv _ _ Hreach) as Hclock.
  pose proof (ClockInv_step _ _ _ _ Hinv Hclock Hstep) as (Hs' & Hsp' & _).
  destruct Hclock as (Hs & Hsp & _).
  destruct (step_effect _ _ _ Hinv (reachable_ClockInv _ _ Hreach) Hstep)
    as (_ & Hchange & _).
  split; [|split; [lia|split; [exact Hsp' | exact Hchange]]].
  destruct Hchange as [-> | (_ & Hplay & ->)]; [lia|].
  specialize (Hsp Hplay). lia.
Qed.

(** X8: the round clock stays between 0 and [ROUND_TIME] and is at least
    1 while the screen is PLAYING.  The configuration of the round is
    defined and its round time is [ROUND_TIME], so the share of the ring
    that [CircleTimer] draws lies between 0 and 1 and the dash offset
    between 0 and the circumference. *)
Theorem X8_round_clock_in_range st :
  reachable random st ->
  0 <= roundTime st <= ROUND_TIME /\
  (screen st = PLAYING -> 1 <= roundTime st) /\
  exists cfg,
    configOf st = Some cfg /\ cfg_roundTime cfg = ROUND_TIME /\
    (0 <= progress (roundTime st) (cfg_roundTime cfg))%Q /\
    (progress (roundTime st) (cfg_roundTime cfg) <= 1)%Q /\
    forall circumference,
      (0 <= circumference)%Q ->
      (0 <= strokeOffset circumference (roundTime st) (cfg_roundTime cfg))%Q /\
      (strokeOffset circumference (roundTime st) (cfg_roundTime cfg)
         <= circumference)%Q.
Proof.
  intros Hreach.
  destruct (reachable_ClockInv _ _ Hreach) as (_ & _ & Hr & Hrp & _).
  destruct (reachable_Inv _ _ Hreach) as (_ & _ & _ & _ & _ & Hround & _).
  split; [exact Hr|]. split; [exact Hrp|].
  destruct (table_defined (round st) Hround) as [cfg Hcfg].
  pose proof (table_roundTime _ _ Hcfg) as Htime.
  exists cfg. split; [exact Hcfg|]. split; [exact Htime|].
  rewrite Htime. unfold strokeOffset, progress, ROUND_TIME in *.
  change (0 <? 15) with true. cbv iota.
  assert (H0 : (0 <= inject_Z (roundTime st) / inject_Z 15)%Q).
  { apply Qle_shift_div_l; [reflexivity|]. rewrite Qmult_0_l.
    change 0%Q with (inject_Z 0). rewrite <- Zle_Qle. lia. }
  assert (H1 : (inject_Z (roundTime st) / inject_Z 15 <= 1)%Q).
  { apply Qle_shift_div_r; [reflexivity|]. rewrite Qmult_1_l.
    rewrite <- Zle_Qle. lia. }
  split; [exact H0|]. split; [exact H1|].
  intros circumference Hc.
  set (p := (inject_Z (roundTime st) / inject_Z 15)%Q) in *.
  split; nra.
Qed.

(** X9: the running total is the sum of the scores of the recorded
    rounds, and the score of every recorded round is its correct count
    minus its wrong count. *)
Theorem X9_total_score_is_sum_of_rounds st :
  reachable random st ->
  totalScore st = scoreSum (roundResults st) /\
  Forall (fun r => r_score r = r_correct r - r_wrong r) (roundResults st).
Proof.
  intros Hreach.
  destruct (reachable_ClockInv _ _ Hreach) as (_ & _ & _ & _ & Hsum & Hall & _).
  split; assumption.
Qed.

(** X10: the result list only grows, by at most one entry per event:
    recorded results are never changed or removed. *)
Theorem X10_results_append_only st ev st' :
  reachable random st -> step random st ev = Some st' ->
  exists new,
    roundResults st' = roundResults st ++ new /\ (length new <= 1)%nat.
Proof.
  intros Hreach Hstep.
  apply (step_effect _ _ _ (reachable_Inv _ _ Hreach)
           (reachable_ClockInv _ _ Hreach) Hstep).
Qed.

(** X11: COMPLETE is final for the screen.  In it the intervals are gone
    and start, selections and submit change nothing; only a settle
    timeout that was still pending can change the state, and the screen
    stays COMPLETE then too. *)
Theorem X11_complete_is_final st ev st' :
  reachable random st -> screen st = COMPLETE ->
  step random st ev = Some st' ->
  screen st' = COMPLETE /\ ((forall now, ev <> Settle now) -> st' = st).
Proof.
  intros Hreach Hscreen Hstep.
  apply (step_effect _ _ _ (reachable_Inv _ _ Hreach)
           (reachable_ClockInv _ _ Hreach) Hstep), Hscreen.
Qed.

End EventFacts.

Lemma X7_session_clock_witness :
  let st' := sessionTick sampleState in
  0 <= sessionTime st' <= sessionTime sampleState /\
  sessionTime sampleState <= SESSION_DURATION /\
  (screen st' = PLAYING -> 1 <= sessionTime st') /\
  (sessionTime st' = sessionTime sampleState \/
   (SessionTick = SessionTick /\ screen sampleState = PLAYING /\
    sessionTime st' = sessionTime sampleState - 1)).
Proof.
  apply (X7_session_clock_only_counts_down sampleRandom sampleState SessionTick).
  - apply (sample_reachable [Start 0; Click 1; Click 0]). vm_compute. reflexivity.
  - reflexivity.
Defined.

Lemma X8_round_clock_witness :
  0 <= roundTime sampleLastSecond <= ROUND_TIME /\
  (screen sampleLastSecond = PLAYING -> 1 <= roundTime sampleLastSecond) /\
  exists cfg,
    configOf sampleLastSecond = Some cfg /\ cfg_roundTime cfg = ROUND_TIME /\
    (0 <= progress (roundTime sampleLastSecond) (cfg_roundTime cfg))%Q /\
    (progress (roundTime sampleLastSecond) (cfg_roundTime cfg) <= 1)%Q /\
    forall circumference,
      (0 <= circumference)%Q ->
      (0 <= strokeOffset circumference (roundTime sampleLastSecond)
              (cfg_roundTime cfg))%Q /\
      (strokeOffset circumference (roundTime sampleLastSecond)
         (cfg_roundTime cfg) <= circumference)%Q.
Proof.
  apply (X8_round_clock_in_range sampleRandom sampleLastSecond).
  apply (sample_reachable
           (Start 0 :: map (fun i => RoundTick (1000 * Z.of_nat i)) (seq 1 14))).
  vm_compute. reflexivity.
Defined.

Lemma X9_total_score_witness :
  totalScore sampleComplete = scoreSum (roundResults sampleComplete) /\
  Forall (fun r => r_score r = r_correct r - r_wrong r)
         (roundResults sampleComplete).
Proof.
  apply (X9_total_score_is_sum_of_rounds sampleRandom sampleComplete).
  apply (sample_reachable [Start 0; Click 1; Click 0; Submit 4200]).
  vm_compute. reflexivity.
Defined.

Lemma X10_results_append_only_witness :
  exists new,
    roundResults sampleComplete = roundResults sampleState ++ new /\
    (length new <= 1)%nat.
Proof.
  apply (X10_results_append_only sampleRandom sampleState (Submit 4200)).
  - apply (sample_reachable [Start 0; Click 1; Click 0]). vm_compute. reflexivity.
  - vm_compute. reflexivity.
Defined.

Lemma X11_complete_is_final_witness :
  screen (handleBubbleClick 2 sampleComplete) = COMPLETE /\
  ((forall now, Click 2 <> Settle now) ->
   handleBubbleClick 2 sampleComplete = sampleComplete).
Proof.
  apply (X11_complete_is_final sampleRandom sampleComplete (Click 2)).
  - apply (sample_reachable [Start 0; Click 1; Click 0; Submit 4200]).
    vm_compute. reflexivity.
  - reflexivity.
  - reflexivity.
Defined.

(** ** Ways a round ends *)

Lemma forallb_selectedCount l :
  forallb b_selected l = true <-> selectedCount l = Z.of_nat (length l).
Proof.
  unfold selectedCount. induction l as [|a l IH]; simpl; [split; reflexivity|].
  pose proof (List.filter_length_le b_selected l) as Hle.
  destruct (b_selected a); simpl.
  - rewrite IH. lia.
  - split; [discriminate | lia].
Qed.

Section RoundEnds.

Variable random : nat -> Q.

(** X12: when the round interval fires with at most one second left,
    the round in progress is recorded once, as not completed, with the
    counts on screen, and the total grows by its score.  Then either this
    was round [TOTAL_QUESTIONS] or later and the session is COMPLETE, or the
    next round starts with a full clock, cleared counters and three
    unconsumed stimuli.  The session-time test of [endRound] never decides
    here, and pending timeouts are left in place. *)
Theorem X12_round_timeout_records_and_advances st now st' :
  reachable random st -> screen st = PLAYING -> roundTime st <= 1 ->
  step random st (RoundTick now) = Some st' ->
  roundResults st' =
    roundResults st ++
      [ mkResult (round st) (correctCount st) (wrongCount st)
          (correctCount st - wrongCount st)
          (round_div_1000 (now - roundStartRef st)) false ] /\
  totalScore st' = totalScore st + (correctCount st - wrongCount st) /\
  timeouts st' = timeouts st /\
  ((TOTAL_QUESTIONS <= round st /\ screen st' = COMPLETE /\
    round st' = round st /\ bubbles st' = bubbles st) \/
   (round st < TOTAL_QUESTIONS /\ screen st' = PLAYING /\
    round st' = round st + 1 /\ roundTime st' = ROUND_TIME /\
    correctCount st' = 0 /\ wrongCount st' = 0 /\ processing st' = false /\
    length (bubbles st') = 3%nat /\ unselectedOf (bubbles st') = bubbles st' /\
    roundStartRef st' = now)).
Proof.
  intros Hreach Hscreen Htime Hstep.
  destruct (reachable_ClockInv _ _ Hreach)
    as (_ & Hsp & _ & _ & _ & _ & _ & _ & Hlatch).
  specialize (Hsp Hscreen). specialize (Hlatch Hscreen).
  simpl in Hstep. unfold roundTick in Hstep.
  rewrite (proj2 (isPlaying_true st) Hscreen) in Hstep. simpl in Hstep.
  rewrite (proj2 (Z.leb_le _ _) Htime) in Hstep.
  apply endRound_open in Hstep; [|exact Hlatch].
  cbv zeta in Hstep. simpl in Hstep.
  destruct Hstep as (Hres & Hscore & _ & Hto & Hcase).
  split; [exact Hres|]. split; [exact Hscore|]. split; [exact Hto|].
  destruct Hcase as [(Hterm & Hs & Hr & _ & _ & Hb & _)
                    | (Hterm & Hs & Hr & Hrt & _ & Hlen & Hun & Hcc & Hwc & _
                       & Hp & Hstart)].
  - left. apply orb_true_iff in Hterm as [Hterm | Hterm].
    + apply Z.leb_le in Hterm. lia.
    + apply Z.geb_le in Hterm. repeat (split; [assumption|]). exact Hb.
  - right. apply orb_false_iff in Hterm as [_ Hterm].
    rewrite Z.geb_leb in Hterm. apply Z.leb_gt in Hterm.
    rewrite Hscreen in Hs. repeat (split; [assumption|]). exact Hstart.
Qed.

(** X13: giving up during a round ends the session and appends one
    record, for the round in progress, with the counts on screen.  The
    record is marked completed exactly when all three stimuli had been
    consumed; afterwards the number of records equals the number of the
    round that was in progress, and the total is the sum of the recorded
    scores.  Which rounds the earlier records are for is not stated: after
    a round was ended twice (C3) two of them are for one round and none is
    for the round that was skipped. *)
Theorem X13_early_submit_records_round st now st' :
  reachable random st -> screen st = PLAYING ->
  step random st (Submit now) = Some st' ->
  screen st' = COMPLETE /\
  exists r,
    roundResults st' = roundResults st ++ [r] /\
    r_round r = round st /\ r_correct r = correctCount st /\
    r_wrong r = wrongCount st /\ r_score r = correctCount st - wrongCount st /\
    r_timeUsed r = round_div_1000 (now - roundStartRef st) /\
    (r_completed r = true <-> correctCount st = 3) /\
    Z.of_nat (length (roundResults st')) = round st /\
    totalScore st' = scoreSum (roundResults st').
Proof.
  intros Hreach Hscreen Hstep.
  pose proof (reachable_Inv _ _ Hreach)
    as (_ & Hcount & _ & _ & Hlen & _ & _ & Hresults).
  destruct (reachable_ClockInv _ _ Hreach) as (_ & _ & _ & _ & Hsum & _).
  simpl in Hstep. rewrite (proj2 (isPlaying_true st) Hscreen) in Hstep.
  injection Hstep as <-. unfold handleSubmit. simpl.
  split; [reflexivity|]. eexists. split; [reflexivity|]. simpl.
  repeat (split; [reflexivity|]).
  split; [|split].
  - rewrite forallb_selectedCount, <- Hcount, Hlen by congruence. reflexivity.
  - rewrite length_app. simpl. specialize (Hresults Hscreen). lia.
  - rewrite scoreSum_app, Hsum. reflexivity.
Qed.

(** X14: a selection leaves the state untouched exactly when the screen
    is not PLAYING, or the round is settling, or no unconsumed stimulus
    carries the id; every other selection changes one of the two
    counters. *)
Theorem X14_selection_ignored_iff st bubbleId :
  reachable random st ->
  (handleBubbleClick bubbleId st = st <->
   screen st <> PLAYING \/ processing st = true \/
   forall b, b ∈ bubbles st -> b_id b = bubbleId -> b_selected b = true).
Proof.
  intros Hreach.
  pose proof (slotIds_NoDup _ (proj1 (reachable_Inv _ _ Hreach))) as Hnd.
  split.
  - intros Hsame.
    destruct (screen st) eqn:Hscreen; [left; discriminate | | left; discriminate].
    destruct (processing st) eqn:Hproc; [right; left; reflexivity|].
    right. right. intros b Hin <-.
    destruct (b_selected b) eqn:Hsel; [reflexivity|]. exfalso.
    unfold handleBubbleClick in Hsame.
    rewrite Hproc, (proj2 (isPlaying_true st) Hscreen) in Hsame.
    simpl in Hsame. rewrite (find_by_id _ _ Hnd Hin), Hsel in Hsame.
    destruct (sort byValue (unselectedOf (bubbles st))) as [|h t] eqn:Hs.
    + apply sort_nil_inv in Hs.
      assert (Hu : b ∈ unselectedOf (bubbles st))
        by (apply elem_of_unselectedOf; split; assumption).
      rewrite Hs in Hu. inversion Hu.
    + destruct (b_id b =? b_id h).
      * apply (f_equal correctCount) in Hsame. cbv zeta in Hsame.
        destruct (_ =? _)%nat; simpl in Hsame; lia.
      * apply (f_equal wrongCount) in Hsame. simpl in Hsame. lia.
  - intros [Hscreen | [Hproc | Hnone]]; unfold handleBubbleClick.
    + destruct (isPlaying st) eqn:Hplay;
        [apply isPlaying_true in Hplay; contradiction|].
      rewrite orb_true_r. reflexivity.
    + rewrite Hproc. reflexivity.
    + destruct (_ || _); [reflexivity|].
      destruct (List.find _ (bubbles st)) as [b|] eqn:Hfind; [|reflexivity].
      apply find_elem in Hfind as [Hin Hid]. apply Z.eqb_eq in Hid.
      rewrite (Hnone b Hin Hid). reflexivity.
Qed.

End RoundEnds.

Lemma X12_round_timeout_witness :
  let st' :=
    default initialState
      (step sampleRandom sampleLastSecond (RoundTick 15000)) in
  roundResults st' = [ mkResult 1 0 0 0 15 false ] /\ totalScore st' = 0 /\
  timeouts st' = [] /\ screen st' = PLAYING /\ round st' = 2.
Proof.
  destruct (X12_round_timeout_records_and_advances sampleRandom
              sampleLastSecond 15000
              (default initialState
                 (step sampleRandom sampleLastSecond (RoundTick 15000))))
    as (Hres & Hscore & Hto & [(Hr & _) | (_ & Hs & Hr & _)]).
  - apply (sample_reachable
             (Start 0 :: map (fun i => RoundTick (1000 * Z.of_nat i)) (seq 1 14))).
    vm_compute. reflexivity.
  - reflexivity.
  - vm_compute. discriminate.
  - vm_compute. reflexivity.
  - exfalso. vm_compute in Hr. apply Hr. reflexivity.
  - cbv zeta. split; [exact Hres|]. split; [exact Hscore|].
    split; [exact Hto|]. split; [exact Hs | exact Hr].
Defined.

Lemma X13_early_submit_witness :
  screen sampleComplete = COMPLETE /\
  exists r,
    roundResults sampleComplete = roundResults sampleState ++ [r] /\
    r_round r = 1 /\ r_correct r = 1 /\ r_wrong r = 1 /\ r_score r = 0 /\
    r_timeUsed r = 4 /\ (r_completed r = true <-> 1 = 3) /\
    Z.of_nat (length (roundResults sampleComplete)) = 1 /\
    totalScore sampleComplete = scoreSum (roundResults sampleComplete).
Proof.
  apply (X13_early_submit_records_round sampleRandom sampleState 4200
           sampleComplete).
  - apply (sample_reachable [Start 0; Click 1; Click 0]). vm_compute. reflexivity.
  - reflexivity.
  - vm_compute. reflexivity.
Defined.

Lemma X14_selection_ignored_witness :
  handleBubbleClick 0 sampleState = sampleState <->
  screen sampleState <> PLAYING \/ processing sampleState = true \/
  forall b, b ∈ bubbles sampleState -> b_id b = 0 -> b_selected b = true.
Proof.
  apply (X14_selection_ignored_iff sampleRandom sampleState 0).
  apply (sample_reachable [Start 0; Click 1; Click 0]). vm_compute. reflexivity.
Defined.

(** ** A session in which nothing is selected *)

Lemma roundsUpTo_snoc n : 1 <= n -> roundsUpTo (n - 1) ++ [n] = roundsUpTo n.
Proof.
  intros Hn. unfold roundsUpTo.
  replace (Z.to_nat n) with (S (Z.to_nat (n - 1))) by lia.
  rewrite seq_S, fmap_app. simpl. do 2 f_equal. lia.
Qed.

Section Unanswered.

Variable random : nat -> Q.

Lemma ticks_after_complete evs st :
  screen st = COMPLETE -> Forall tickOnly evs -> run random st evs = Some st.
Proof.
  intros Hscreen Hall. induction Hall as [|ev evs Hev _ IH]; [reflexivity|].
  assert (Hplay : isPlaying st = false) by (unfold isPlaying; rewrite Hscreen; reflexivity).
  destruct ev; try discriminate Hev; cbn [run step].
  - unfold sessionTick. rewrite Hplay. simpl. exact IH.
  - unfold roundTick. rewrite Hplay. simpl. exact IH.
Qed.

Lemma unanswered_run evs : forall st,
  unanswered st -> Forall tickOnly evs ->
  Z.of_nat (length (List.filter isRoundTick evs)) =
    (TOTAL_QUESTIONS - round st) * ROUND_TIME + roundTime st ->
  Z.of_nat (length (List.filter isSessionTick evs)) < sessionTime st ->
  exists st',
    run random st evs = Some st' /\ screen st' = COMPLETE /\
    totalScore st' = 0 /\
    r_round <$> roundResults st' = roundsUpTo TOTAL_QUESTIONS /\
    Forall blank (roundResults st').
Proof.
  induction evs as [|ev evs IH]; intros st Hun Hall Hticks Hsession.
  - destruct Hun as (_ & _ & _ & _ & Hr & Ht & _).
    unfold TOTAL_QUESTIONS, ROUND_TIME in *. simpl in Hticks. lia.
  - apply Forall_cons in Hall as [Hev Hall].
    pose proof Hun as (Hscreen & Hcc & Hwc & Hlatch & Hr & Ht & Hscore & Hrounds
                       & Hblank).
    assert (Hplay : isPlaying st = true) by (apply isPlaying_true; exact Hscreen).
    destruct ev as [| |now| | |]; try discriminate Hev; cbn [run step].
    + cbn [List.filter isRoundTick isSessionTick length] in Hticks, Hsession.
      unfold sessionTick. rewrite Hplay. cbn [negb].
      destruct (Z.leb_spec (sessionTime st) 1) as [Hle|Hgt]; [lia|].
      cbn [mbind option_bind].
      apply IH; [exact Hun | exact Hall | exact Hticks | simpl; lia].
    + cbn [List.filter isRoundTick isSessionTick length] in Hticks, Hsession.
      unfold roundTick. rewrite Hplay. cbn [negb].
      destruct (Z.leb_spec (roundTime st) 1) as [Hle|Hgt].
      * destruct (endRound_total random (currentClosure st) false now
                    (set_roundTime 0 st)) as [st1 Hend]; [simpl; lia|].
        rewrite Hend. cbn [mbind option_bind].
        apply endRound_open in Hend; [|exact Hlatch].
        cbv zeta in Hend. simpl in Hend. rewrite Hcc, Hwc in Hend.
        destruct Hend as (Hres & Hts & Hst & _ & Hcase).
        assert (Hrounds1 : r_round <$> roundResults st1 = roundsUpTo (round st)).
        { rewrite Hres, fmap_app, Hrounds. simpl. apply roundsUpTo_snoc. lia. }
        assert (Hblank1 : Forall blank (roundResults st1)).
        { rewrite Hres. apply Forall_app. split; [exact Hblank|].
          constructor; [|constructor]. repeat split. }
        destruct Hcase as [(Hterm & Hs & _)
                          | (Hterm & Hs & Hr1 & Hrt & Hl & _ & _ & Hc1 & Hw1 & _)].
        -- apply orb_true_iff in Hterm as [Hterm | Hterm];
             [apply Z.leb_le in Hterm; lia|].
           apply Z.geb_le in Hterm.
           exists st1. split; [apply ticks_after_complete; assumption|].
           split; [exact Hs|]. split; [lia|].
           split; [|exact Hblank1].
           rewrite Hrounds1. f_equal. lia.
        -- apply orb_false_iff in Hterm as [_ Hterm].
           rewrite Z.geb_leb in Hterm. apply Z.leb_gt in Hterm.
           apply IH; [| exact Hall | | lia].
           ++ unfold unanswered. rewrite Hs, Hr1, Hrt, Hc1, Hw1, Hl, Hts, Hscore.
              replace (round st + 1 - 1) with (round st) by lia.
              unfold ROUND_TIME.
              repeat (split; [assumption || reflexivity || lia|]).
              exact Hblank1.
           ++ rewrite Hr1, Hrt. unfold TOTAL_QUESTIONS, ROUND_TIME in *. lia.
      * cbn [mbind option_bind].
        apply IH; [| exact Hall | simpl; lia | exact Hsession].
        unfold unanswered. simpl.
        repeat (split; [assumption || lia|]). exact Hblank.
Qed.

(** X15: a session in which nothing is selected and nothing submitted,
    whatever the stimuli: after the start, [TOTAL_QUESTIONS * ROUND_TIME]
    firings of the round interval, interleaved in any order with fewer
    than [SESSION_DURATION] firings of the session interval, end the
    session with one record for each of the rounds 1 to [TOTAL_QUESTIONS],
    in order, each with no correct and no wrong selection, score 0 and not
    completed, and a total of 0. *)
Theorem X15_unanswered_session_records_every_round now evs :
  Forall tickOnly evs ->
  Z.of_nat (length (List.filter isRoundTick evs)) = TOTAL_QUESTIONS * ROUND_TIME ->
  Z.of_nat (length (List.filter isSessionTick evs)) < SESSION_DURATION ->
  exists st',
    run random initialState (Start now :: evs) = Some st' /\
    screen st' = COMPLETE /\ totalScore st' = 0 /\
    r_round <$> roundResults st' = roundsUpTo TOTAL_QUESTIONS /\
    Forall blank (roundResults st').
Proof.
  intros Hall Hticks Hsession. cbn [run step]. simpl screen. cbv iota.
  destruct (startRound_total random 1 now
              (set_totalScore 0 (set_roundResults []
                 (set_sessionTime SESSION_DURATION (set_round 1
                    (set_screen PLAYING initialState))))))
    as [st1 Hstart]; [lia|].
  unfold handleStart. rewrite Hstart. cbn [mbind option_bind].
  apply startRound_frame in Hstart
    as (Hs & Hr & Hst & Hres & Hts & _ & Hrt & _ & Hcc & Hwc & _ & Hl & _).
  simpl in Hs, Hr, Hst, Hres, Hts.
  apply unanswered_run; [| exact Hall | |].
  - unfold unanswered. rewrite Hs, Hr, Hrt, Hcc, Hwc, Hl, Hts, Hres.
    unfold TOTAL_QUESTIONS, ROUND_TIME.
    repeat (split; [reflexivity || lia|]). constructor.
  - rewrite Hr, Hrt, Hticks. unfold TOTAL_QUESTIONS, ROUND_TIME. lia.
  - rewrite Hst. exact Hsession.
Qed.

End Unanswered.

Lemma X15_unanswered_session_witness :
  exists st',
    run sampleRandom initialState
      (Start 0 :: map (fun i => RoundTick (1000 * Z.of_nat i)) (seq 1 300))
      = Some st' /\
    screen st' = COMPLETE /\ totalScore st' = 0 /\
    r_round <$> roundResults st' = roundsUpTo TOTAL_QUESTIONS /\
    Forall blank (roundResults st').
Proof.
  apply (X15_unanswered_session_records_every_round sampleRandom 0
           (map (fun i => RoundTick (1000 * Z.of_nat i)) (seq 1 300))).
  - apply Forall_forall. intros ev Hin.
    apply list_elem_of_In, in_map_iff in Hin as (i & <- & _). reflexivity.
  - vm_compute. reflexivity.
  - vm_compute. reflexivity.
Defined.

(** * The session on the clock *)

Section OnTheClock.

Import TimedSession.

Variable random : nat -> Q.









End OnTheClock.

Section OnTheClockSteps.

Import TimedSession.

Variable random : nat -> Q.









End OnTheClockSteps.


(** The race of C3 on the clock: the round is completed 100 ms before its
    countdown runs out; the round interval ends it at 15 000 ms and the
    settle timeout ends it again at 15 150 ms. *)
Example race_on_the_clock :
  exists ts,
    TimedSession.trun sampleRandom TimedSession.mounted
      TimedSession.raceSchedule = Some ts /\
    TimedSession.clock ts = 15150 /\
    round (TimedSession.engine ts) = 3 /\
    r_round <$> roundResults (TimedSession.engine ts) = [ 1; 1 ].
Proof. eexists. split; [vm_compute; reflexivity|]. repeat split. Qed.

(** * The game component with its calls in flight *)

Section GameWorld.

Import PipePuzzle PathfinderGame.

Lemma take_Forall (P : Request -> Prop) kind l rest :
  take kind l = Some rest -> Forall P l -> Forall P rest.
Proof.
  revert rest. induction l as [|q l IH]; intros rest Htake Hall; [discriminate|].
  apply Forall_cons in Hall as [Hq Hall]. simpl in Htake.
  destruct (kind q); [injection Htake as <-; exact Hall|].
  destruct (take kind l) as [r|]; [|discriminate].
  injection Htake as <-. constructor; [exact Hq | apply IH; [reflexivity | exact Hall]].
Qed.

Lemma take_elem kind l rest :
  take kind l = Some rest -> exists q, q ∈ l /\ kind q = true.
Proof.
  revert rest. induction l as [|q l IH]; intros rest Htake; [discriminate|].
  simpl in Htake. destruct (kind q) eqn:Hk.
  - exists q. split; [left | exact Hk].
  - destruct (take kind l) as [r|]; [|discriminate].
    destruct (IH r eq_refl) as (q' & Hin & Hq'). exists q'. split; [right; exact Hin | exact Hq'].
Qed.

Lemma take_length kind l rest :
  take kind l = Some rest -> length l = S (length rest).
Proof.
  revert rest. induction l as [|q l IH]; intros rest Htake; [discriminate|].
  simpl in Htake. destruct (kind q); [injection Htake as <-; reflexivity|].
  destruct (take kind l) as [r|]; [|discriminate].
  injection Htake as <-. simpl. rewrite (IH r eq_refl). reflexivity.
Qed.

(** ** The invariant *)

Lemma TUTORIAL_STEPS_length : Z.of_nat (length TUTORIAL_STEPS) = 6.
Proof. reflexivity. Qed.

Lemma GameInv_mount rows cols : GameInv (mount rows cols).
Proof.
  unfold GameInv, mount. rewrite TUTORIAL_STEPS_length. simpl.
  unfold GAME_DURATION.
  split; [lia|]. split; [intros _; lia|]. split; [discriminate|].
  split; [discriminate|]. split; [lia|]. split.
  - intros _. split; [right; eauto|]. split; [reflexivity|].
    split; [left; reflexivity|]. repeat split.
  - intros H. contradiction.
Qed.

(** Proof steps shared by the cases of the invariant. *)
Ltac conj := repeat match goal with |- _ /\ _ => split end.
Ltac leaf :=
  simpl; try rewrite app_nil_r;
  conj; intros; conj;
  try solve [ assumption | reflexivity | lia | discriminate | congruence
            | contradiction | left; (assumption || reflexivity)
            | right; (assumption || reflexivity) | eauto
            | apply Forall_app; split; [assumption | repeat constructor] ].

Lemma take_none_start kind fl :
  (fl = [] \/ exists rows cols, fl = [ StartGame rows cols ]) ->
  (forall rows cols, kind (StartGame rows cols) = false) ->
  take kind fl = None.
Proof.
  intros [-> | (rows & cols & ->)] Hk; [reflexivity|].
  simpl. rewrite Hk. reflexivity.
Qed.

Lemma GameInv_step w ev w' : GameInv w -> step w ev = Some w' -> GameInv w'.
Proof.
  intros Hinv Hstep.
  destruct w as [[sid [gr s e st sel tr att mv ro fp] tstep show ap con tm] fl].
  unfold GameInv in *. rewrite TUTORIAL_STEPS_length in *. simpl in Hinv.
  destruct Hinv as (Htr & Hplay & Hlost & Hanim & Htut & Hnone & Hsome).
  destruct sid as [|a sid'].
  - clear Hsome.
    destruct (Hnone eq_refl) as (Hfl & -> & Hst & -> & -> & ->). clear Hnone Hanim.
    destruct ev; simpl in Hstep; unfold settled in Hstep; simpl in Hstep;
      try (rewrite (take_none_start _ _ Hfl) in Hstep by (intros; reflexivity);
           discriminate Hstep).
    + destruct Hst as [-> | ->]; injection Hstep as <-; leaf.
    + destruct Hst as [-> | ->]; injection Hstep as <-; leaf.
    + destruct Hst as [-> | ->]; injection Hstep as <-; leaf.
    + destruct Hst as [-> | ->]; injection Hstep as <-; leaf.
    + injection Hstep as <-. unfold countdownTick, isPlaying. simpl.
      destruct Hst as [-> | ->]; simpl; [|leaf].
      destruct (Z.leb_spec tr 1); leaf.
    + injection Hstep as <-. destruct Hst as [-> | ->]; leaf.
    + destruct show; injection Hstep as <-; unfold tutorialPrev;
        destruct Hst as [-> | ->]; leaf.
    + destruct show; injection Hstep as <-; unfold tutorialNext;
        rewrite ?TUTORIAL_STEPS_length; simpl;
        try destruct (Z.ltb_spec tstep (6 - 1));
        destruct Hst as [-> | ->]; leaf.
    + destruct Hfl as [-> | (rows & cols & ->)]; [discriminate Hstep|].
      simpl in Hstep. injection Hstep as <-.
      destruct o as [res|err]; simpl; unfold GAME_DURATION in *.
      * destruct Hst as [-> | ->]; leaf.
      * destruct Hst as [-> | ->]; leaf.
  - clear Hnone. assert (Hall := Hsome ltac:(discriminate)). clear Hsome.
    destruct ev; simpl in Hstep; unfold settled in Hstep; simpl in Hstep.
    + destruct st; injection Hstep as <-; leaf.
    + destruct st; destruct sel; injection Hstep as <-; leaf.
    + destruct st; destruct sel; injection Hstep as <-; leaf.
    + destruct st; injection Hstep as <-; leaf.
    + injection Hstep as <-. unfold countdownTick, isPlaying. simpl.
      destruct st; simpl; try solve [leaf].
      destruct (Z.leb_spec tr 1); leaf.
    + injection Hstep as <-. rewrite fireDue_spec. simpl.
      destruct (existsb _ tm) eqn:Hex; leaf.
    + destruct show; injection Hstep as <-; unfold tutorialPrev; leaf.
    + destruct show; injection Hstep as <-; unfold tutorialNext;
        rewrite ?TUTORIAL_STEPS_length; simpl;
        try destruct (Z.ltb_spec tstep (6 - 1)); leaf.
    + destruct (take isStartGame fl) as [rest|] eqn:Ht; [|discriminate Hstep].
      apply take_elem in Ht as (q & Hin & Hq).
      rewrite Forall_forall in Hall. specialize (Hall q Hin).
      destruct q; discriminate.
    + destruct (take isSelectTile fl) as [rest|] eqn:Ht; [|discriminate Hstep].
      apply (take_Forall _ _ _ _ Ht) in Hall.
      injection Hstep as <-. destruct o; leaf.
    + destruct (take isRotateTile fl) as [rest|] eqn:Ht; [|discriminate Hstep].
      apply (take_Forall _ _ _ _ Ht) in Hall.
      injection Hstep as <-. destruct o; leaf.
    + destruct (take isFlipTile fl) as [rest|] eqn:Ht; [|discriminate Hstep].
      apply (take_Forall _ _ _ _ Ht) in Hall.
      injection Hstep as <-. destruct o as [res|err]; leaf.
    + destruct (take isSubmitPath fl) as [rest|] eqn:Ht; [|discriminate Hstep].
      apply (take_Forall _ _ _ _ Ht) in Hall.
      injection Hstep as <-. destruct o as [res|err]; [|leaf].
      simpl. destruct (valid res); [destruct (path res) as [p|]|]; leaf.
      intros Habs. apply app_eq_nil in Habs as [_ Habs]. discriminate Habs.
Qed.

Lemma reachable_GameInv rows cols w : reachable rows cols w -> GameInv w.
Proof.
  induction 1 as [|w ev w' _ IH Hstep]; [apply GameInv_mount|].
  exact (GameInv_step _ _ _ IH Hstep).
Qed.

(** X16: the countdown never leaves [0, GAME_DURATION]; it is at least 1
    while the status is PLAYING and 0 when it is LOST.  Hence the time
    handed to [onComplete] by the "Next Question" button lies between 0
    and GAME_DURATION, and is GAME_DURATION for a lost level. *)
Theorem X16_level_time_in_range rows cols w :
  reachable rows cols w ->
  let g := gameState (comp w) in
  0 <= timeRemaining g <= GAME_DURATION /\
  (status g = PLAYING -> 1 <= timeRemaining g) /\
  (status g = LOST -> timeRemaining g = 0) /\
  (forall success st,
     nextQuestion (comp w) = Some (success, st) ->
     (success = true <-> status g = WON) /\
     0 <= s_time st <= GAME_DURATION /\
     (success = false -> s_time st = GAME_DURATION)).
Proof.
  intros Hreach. cbv zeta.
  destruct (reachable_GameInv _ _ _ Hreach) as (Htr & Hplay & Hlost & _).
  split; [exact Htr|]. split; [exact Hplay|]. split; [exact Hlost|].
  intros success st. unfold nextQuestion, stats.
  destruct (status (gameState (comp w))) eqn:Hs; try discriminate;
    intros H; injection H as <- <-; simpl.
  - split; [split; intros _; reflexivity|]. split; [lia | discriminate].
  - split; [split; discriminate|]. split; [lia|].
    intros _. rewrite (Hlost eq_refl). lia.
Qed.

(** X17: every call in flight other than the start call is addressed to
    the session id the component holds, which is not empty.  As long as the
    component holds no session id (the start call is still in flight, has
    failed, or returned an empty id) nothing but that one start call is in
    flight, no timeout is pending, nothing is selected or counted, and the
    status is PLAYING or LOST: such a level cannot be won. *)
Theorem X17_calls_carry_the_session rows cols w :
  reachable rows cols w ->
  let c := comp w in
  Forall (fun q => isStartGame q = false ->
                   sessionOf q = Some (sessionId c) /\ sessionId c <> EmptyString)
         (inflight w) /\
  (sessionId c = EmptyString ->
   (inflight w = [] \/ exists r k, inflight w = [ StartGame r k ]) /\
   timers c = [] /\
   (status (gameState c) = PLAYING \/ status (gameState c) = LOST) /\
   selectedTile (gameState c) = None /\ moves (gameState c) = 0 /\
   attempts (gameState c) = 0).
Proof.
  intros Hreach. cbv zeta.
  destruct (reachable_GameInv _ _ _ Hreach) as (_ & _ & _ & _ & _ & Hnone & Hsome).
  split; [|exact Hnone].
  destruct (sessionId (comp w)) as [|a sid] eqn:Hsid.
  - destruct (Hnone eq_refl) as ([-> | (r & k & ->)] & _);
      [constructor | constructor; [intros H; discriminate H | constructor]].
  - eapply Forall_impl; [apply Hsome; discriminate|].
    intros q Hq _. split; [exact Hq | discriminate].
Qed.

Lemma game_reachable_run rows cols w evs w' :
  reachable rows cols w -> run w evs = Some w' -> reachable rows cols w'.
Proof.
  revert w. induction evs as [|ev evs IH]; intros w Hreach Hrun; simpl in Hrun.
  - injection Hrun as <-. exact Hreach.
  - destruct (step w ev) as [w1|] eqn:Hstep; [|discriminate Hrun].
    simpl in Hrun. eapply IH; [|exact Hrun].
    eapply reachable_next; eassumption.
Qed.

Lemma sample_game_reachable evs w :
  run (mount 1 2) evs = Some w -> reachable 1 2 w.
Proof. apply game_reachable_run, reachable_mount. Qed.

(** X18: an accepted submission is final.  Once the status is ANIMATING or
    WON, no event (no press, no tick, no late response) makes it PLAYING
    or LOST again, and the countdown value, the move counter and the
    selection stay as they are. *)
Theorem X18_accepted_submission_is_final rows cols w ev w' :
  reachable rows cols w ->
  status (gameState (comp w)) = ANIMATING \/ status (gameState (comp w)) = WON ->
  step w ev = Some w' ->
  let g := gameState (comp w) in
  let g' := gameState (comp w') in
  (status g' = ANIMATING \/ status g' = WON) /\
  timeRemaining g' = timeRemaining g /\ moves g' = moves g /\
  selectedTile g' = selectedTile g /\ sessionId (comp w') = sessionId (comp w).
Proof.
  intros Hreach Hst Hstep. cbv zeta.
  destruct (reachable_GameInv _ _ _ Hreach) as (_ & _ & _ & _ & _ & Hnone & Hsome).
  destruct w as [[sid [gr s e st sel tr att mv ro fp] tstep show ap con tm] fl].
  simpl in *.
  destruct sid as [|a sid'].
  { destruct (Hnone eq_refl) as (_ & _ & [-> | ->] & _);
      destruct Hst; discriminate. }
  clear Hnone. assert (Hall := Hsome ltac:(discriminate)). clear Hsome.
  destruct ev; simpl in Hstep; unfold settled in Hstep; simpl in Hstep.
  - destruct Hst as [-> | ->]; injection Hstep as <-; leaf.
  - destruct Hst as [-> | ->]; injection Hstep as <-; leaf.
  - destruct Hst as [-> | ->]; injection Hstep as <-; leaf.
  - destruct Hst as [-> | ->]; injection Hstep as <-; leaf.
  - destruct Hst as [-> | ->]; injection Hstep as <-; leaf.
  - injection Hstep as <-. rewrite fireDue_spec. simpl.
    destruct (existsb _ tm); destruct Hst as [-> | ->]; leaf.
  - destruct show; injection Hstep as <-; destruct Hst as [-> | ->]; leaf.
  - destruct show; injection Hstep as <-; unfold tutorialNext;
      try destruct (_ <? _); destruct Hst as [-> | ->]; leaf.
  - destruct (take isStartGame fl) as [rest|] eqn:Ht; [|discriminate Hstep].
    apply take_elem in Ht as (q & Hin & Hq).
    rewrite Forall_forall in Hall. specialize (Hall q Hin).
    destruct q; discriminate.
  - destruct (take isSelectTile fl) as [rest|]; [|discriminate Hstep].
    injection Hstep as <-. destruct o; destruct Hst as [-> | ->]; leaf.
  - destruct (take isRotateTile fl) as [rest|]; [|discriminate Hstep].
    injection Hstep as <-. destruct o; destruct Hst as [-> | ->]; leaf.
  - destruct (take isFlipTile fl) as [rest|]; [|discriminate Hstep].
    injection Hstep as <-. destruct o; destruct Hst as [-> | ->]; leaf.
  - destruct (take isSubmitPath fl) as [rest|]; [|discriminate Hstep].
    injection Hstep as <-. destruct o as [res|err]; simpl;
      [destruct (valid res); [destruct (path res)|]|];
      destruct Hst as [-> | ->]; leaf.
Qed.

(** X19: an animation always ends.  While the status is ANIMATING a
    timeout is pending; once the clock has passed every pending timeout,
    the status is WON, the animation path is cleared and the "Next
    Question" button reports success with the statistics as they were. *)
Theorem X19_animation_ends_in_won rows cols w now :
  reachable rows cols w ->
  status (gameState (comp w)) = ANIMATING ->
  Forall (fun due => due <= now) (timers (comp w)) ->
  timers (comp w) <> [] /\
  let c' := fireDue now (comp w) in
  step w (Clock now) = Some (mkWorld c' (inflight w)) /\
  status (gameState c') = WON /\ timers c' = [] /\ animationPath c' = [] /\
  nextQuestion c' = Some (true, stats (comp w)).
Proof.
  intros Hreach Hst Hdue. cbv zeta.
  destruct (reachable_GameInv _ _ _ Hreach) as (_ & _ & _ & Hanim & _).
  specialize (Hanim Hst). split; [exact Hanim|]. split; [reflexivity|].
  rewrite fireDue_spec.
  destruct (timers (comp w)) as [|d tm] eqn:Htm; [contradiction|].
  apply Forall_cons in Hdue as [Hd Hdue].
  cbn [existsb]. rewrite (proj2 (Z.leb_le d now) Hd). cbn [orb].
  assert (Hnone : List.filter (fun due => negb (due <=? now)) (d :: tm) = []).
  { cbn [List.filter]. rewrite (proj2 (Z.leb_le d now) Hd). cbn [negb].
    clear -Hdue. induction Hdue as [|x l Hx _ IH]; [reflexivity|].
    cbn [List.filter]. rewrite (proj2 (Z.leb_le x now) Hx). exact IH. }
  rewrite Hnone. repeat split.
Qed.

(** X20: the text of the tutorial bar is always defined: the step index
    stays inside [TUTORIAL_STEPS] whatever buttons are pressed. *)
Theorem X20_tutorial_text_defined rows cols w :
  reachable rows cols w ->
  0 <= tutorialStep (comp w) < Z.of_nat (length TUTORIAL_STEPS) /\
  is_Some (tutorialText (comp w)).
Proof.
  intros Hreach.
  destruct (reachable_GameInv _ _ _ Hreach) as (_ & _ & _ & _ & Htut & _).
  split; [exact Htut|]. unfold tutorialText, arr_get.
  destruct (Z.ltb_spec (tutorialStep (comp w)) 0); [lia|].
  apply lookup_lt_is_Some. lia.
Qed.

(** ** The countdown *)

(** X21: from a playing level with [t] seconds left, [k] firings of the
    countdown interval leave [t - k] seconds and the status PLAYING as long
    as [k < t]; the [t]-th firing sets the status to LOST and the clock to
    0, and later firings change nothing.  Nothing else in the component is
    touched. *)
Theorem X21_countdown_expires c k :
  status (gameState c) = PLAYING -> 1 <= timeRemaining (gameState c) ->
  let t := timeRemaining (gameState c) in
  let c' := Nat.iter k countdownTick c in
  (Z.of_nat k < t -> c' = setGameState (clockAt PLAYING (t - Z.of_nat k)) c) /\
  (t <= Z.of_nat k -> c' = setGameState (clockAt LOST 0) c).
Proof.
  intros Hst Ht. cbv zeta.
  destruct c as [sid [gr s e st sel tr att mv ro fp] tstep show ap con tm].
  cbn [gameState timeRemaining status] in *. subst st.
  unfold setGameState, clockAt. cbn.
  induction k as [|k [IHlt IHge]].
  - split; [|lia]. intros _. cbn. do 2 f_equal. lia.
  - rewrite Nat.iter_succ, Nat2Z.inj_succ. split; intros Hk.
    + rewrite IHlt by lia. unfold countdownTick, isPlaying, setGameState. cbn.
      destruct (Z.leb_spec (tr - Z.of_nat k) 1); [lia|].
      do 2 f_equal. lia.
    + destruct (Z.lt_ge_cases (Z.of_nat k) tr) as [Hlt | Hge].
      * rewrite IHlt by exact Hlt.
        unfold countdownTick, isPlaying, setGameState. cbn.
        destruct (Z.leb_spec (tr - Z.of_nat k) 1); [reflexivity | lia].
      * rewrite IHge by lia. reflexivity.
Qed.

End GameWorld.

Section GameWorldWitnesses.

Import PipePuzzle PathfinderGame.

Lemma sampleWorld_reachable : reachable 1 2 sampleWorld.
Proof.
  apply (sample_game_reachable
           [ StartSettles (Fulfilled sampleStart); TileClick (mkPosition 0 1);
             Rotate; Tick; Submit ]).
  vm_compute. reflexivity.
Qed.

Lemma sampleAnimating_reachable : reachable 1 2 sampleAnimating.
Proof.
  apply (reachable_next 1 2 sampleWorld
           (SubmitSettles 10000 (Fulfilled samplePath)));
    [exact sampleWorld_reachable | vm_compute; reflexivity].
Qed.

Lemma X16_level_time_witness :
  let g := gameState (comp sampleWorld) in
  0 <= timeRemaining g <= GAME_DURATION /\
  (status g = PLAYING -> 1 <= timeRemaining g) /\
  (status g = LOST -> timeRemaining g = 0) /\
  (forall success st,
     nextQuestion (comp sampleWorld) = Some (success, st) ->
     (success = true <-> status g = WON) /\
     0 <= s_time st <= GAME_DURATION /\
     (success = false -> s_time st = GAME_DURATION)).
Proof.
  apply (X16_level_time_in_range 1 2 sampleWorld).
  apply (sample_game_reachable
           [ StartSettles (Fulfilled sampleStart); TileClick (mkPosition 0 1);
             Rotate; Tick; Submit ]).
  vm_compute. reflexivity.
Defined.

Lemma X17_calls_carry_the_session_witness :
  Forall (fun q => isStartGame q = false ->
                   sessionOf q = Some (sessionId (comp sampleWorld)) /\
                   sessionId (comp sampleWorld) <> EmptyString)
         (inflight sampleWorld).
Proof.
  apply (X17_calls_carry_the_session 1 2 sampleWorld).
  apply (sample_game_reachable
           [ StartSettles (Fulfilled sampleStart); TileClick (mkPosition 0 1);
             Rotate; Tick; Submit ]).
  vm_compute. reflexivity.
Defined.

Lemma X18_accepted_submission_witness :
  let g := gameState (comp sampleAnimating) in
  let g' := gameState (countdownTick (comp sampleAnimating)) in
  (status g' = ANIMATING \/ status g' = WON) /\
  timeRemaining g' = timeRemaining g /\ moves g' = moves g /\
  selectedTile g' = selectedTile g /\
  sessionId (countdownTick (comp sampleAnimating)) =
    sessionId (comp sampleAnimating).
Proof.
  apply (X18_accepted_submission_is_final 1 2 sampleAnimating Tick
           (mkWorld (countdownTick (comp sampleAnimating))
              (inflight sampleAnimating))).
  - apply (sample_game_reachable
             [ StartSettles (Fulfilled sampleStart); TileClick (mkPosition 0 1);
               Rotate; Tick; Submit;
               SubmitSettles 10000 (Fulfilled samplePath) ]).
    vm_compute. reflexivity.
  - left. reflexivity.
  - reflexivity.
Defined.

Lemma X19_animation_ends_witness :
  timers (comp sampleAnimating) <> [] /\
  let c' := fireDue 12000 (comp sampleAnimating) in
  step sampleAnimating (Clock 12000) = Some (mkWorld c' (inflight sampleAnimating)) /\
  status (gameState c') = WON /\ timers c' = [] /\ animationPath c' = [] /\
  nextQuestion c' = Some (true, stats (comp sampleAnimating)).
Proof.
  apply (X19_animation_ends_in_won 1 2 sampleAnimating 12000).
  - apply (sample_game_reachable
             [ StartSettles (Fulfilled sampleStart); TileClick (mkPosition 0 1);
               Rotate; Tick; Submit;
               SubmitSettles 10000 (Fulfilled samplePath) ]).
    vm_compute. reflexivity.
  - reflexivity.
  - change (Forall (fun due => due <= 12000) [11600]).
    constructor; [lia | constructor].
Defined.

Lemma X20_tutorial_text_witness :
  0 <= tutorialStep (comp sampleWorld) < Z.of_nat (length TUTORIAL_STEPS) /\
  is_Some (tutorialText (comp sampleWorld)).
Proof.
  apply (X20_tutorial_text_defined 1 2 sampleWorld).
  apply (sample_game_reachable
           [ StartSettles (Fulfilled sampleStart); TileClick (mkPosition 0 1);
             Rotate; Tick; Submit ]).
  vm_compute. reflexivity.
Defined.

Lemma X21_countdown_witness :
  let c := comp sampleWorld in
  (Z.of_nat 3 < 239 ->
   Nat.iter 3 countdownTick c =
     setGameState (clockAt PLAYING (239 - Z.of_nat 3)) c) /\
  (239 <= Z.of_nat 3 ->
   Nat.iter 3 countdownTick c = setGameState (clockAt LOST 0) c).
Proof.
  apply (X21_countdown_expires (comp sampleWorld) 3).
  - reflexivity.
  - vm_compute. discriminate.
Defined.

(** LOST is not final in the same way: a submission that was in flight
    when the countdown expired and is accepted afterwards starts the
    animation and ends in WON. *)
Example lost_level_can_still_be_won :
  exists w1 w2,
    run sampleWorld (replicate 239 Tick) = Some w1 /\
    status (gameState (comp w1)) = LOST /\
    run w1 [ SubmitSettles 250000 (Fulfilled samplePath); Clock 252000 ]
      = Some w2 /\
    nextQuestion (comp w2) =
      Some (true, mkStats 1 0 0 GAME_DURATION).
Proof.
  eexists _, _. split; [vm_compute; reflexivity|].
  split; [reflexivity|]. split; [vm_compute; reflexivity|]. reflexivity.
Qed.

End GameWorldWitnesses.

(** * What the pipe game draws *)

(** ** The countdown display *)

Section ViewFacts.
Import PipePuzzle PipePuzzleView.

Lemma seconds_field s :
  0 <= s < 60 ->
  exists d1 d0,
    padStart 2 "0" (show_Z s) = String d1 (String d0 EmptyString) /\
    read_number (String d1 (String d0 EmptyString)) = Some s.
Proof.
  intros Hs.
  assert (Hn : exists n, s = Z.of_nat n /\ (n < 60)%nat)
    by (exists (Z.to_nat s); lia).
  destruct Hn as (n & -> & Hn).
  do 60 (destruct n as [|n]; [eexists _, _; split; vm_compute; reflexivity|]).
  lia.
Qed.

(** X22: the countdown display of a time that is not negative is the
    minutes, a colon and exactly two digits of seconds, and reading it
    back gives the time again: different times are displayed
    differently. *)
Theorem X22_countdown_display_reads_back t :
  0 <= t ->
  parseTime (formattedTime t) = Some t /\
  exists d1 d0,
    formattedTime t =
      String.append (show_Z (t / 60))
        (String ":" (String d1 (String d0 EmptyString))).
Proof.
  intros Ht.
  assert (Hrem : Z.rem t 60 = t mod 60) by (apply Z.rem_mod_nonneg; lia).
  destruct (seconds_field (Z.rem t 60)) as (d1 & d0 & Hpad & Hread).
  { rewrite Hrem. apply Z.mod_pos_bound. lia. }
  destruct (show_Z_nonneg (t / 60)) as (u & Hu & Hshow & Hval).
  { apply Z.div_pos; lia. }
  unfold formattedTime. cbv zeta. rewrite Hpad.
  split; [|exists d1, d0; reflexivity].
  unfold parseTime. rewrite Hshow.
  change (String.append ":" (String d1 (String d0 EmptyString)))
    with (String ":" (String d1 (String d0 EmptyString))).
  rewrite span_digits_uint by reflexivity.
  rewrite read_number_uint by exact Hu. cbn [mbind option_bind].
  change (strip_prefix ":" (String ":" (String d1 (String d0 EmptyString))))
    with (Some (String d1 (String d0 EmptyString))).
  cbn [mbind option_bind]. rewrite Hread. cbn [mbind option_bind].
  f_equal. rewrite Hval, Hrem. pose proof (Z.div_mod t 60). lia.
Qed.

End ViewFacts.

(** ** The arrows of a tile *)

Section TileFacts.
Import PipePuzzle PipePuzzleView.

(** X23: a tile that is not EMPTY is drawn as nine sub-cells in row
    order, never with an arrow in a corner cell and never with more than
    three arrows.  It shows exactly three arrows exactly when its first
    two openings exist and differ: then the arrows sit in the centre and in
    the edge cells of the two openings; on a STRAIGHT tile all three point
    out through the second opening, on a CORNER tile the first points in
    from the first opening, the last points out through the second, and
    the centre arrow has their [midAngle]. *)
Theorem X23_tile_shows_three_arrows tile cs :
  Tile tile = Some cs ->
  k_key <$> cs = cellKeys /\
  (forall key, key ∈ cornerKeys -> arrowAt key cs = None) /\
  (arrowCount cs <= 3)%nat /\
  (arrowCount cs = 3%nat <->
   exists d0 d1 rest, t_openings tile = d0 :: d1 :: rest /\ d0 <> d1) /\
  (forall d0 d1 rest,
     t_openings tile = d0 :: d1 :: rest -> d0 <> d1 ->
     let toward := Deg (inject_Z (TOWARD_CENTER d0)) in
     let away := Deg (inject_Z (AWAY_CENTER d1)) in
     match t_type tile with
     | STRAIGHT =>
         arrowAt (OPENING_CELL_MAP d0) cs = Some away /\
         arrowAt "1-1" cs = Some away /\
         arrowAt (OPENING_CELL_MAP d1) cs = Some away
     | _ =>
         arrowAt (OPENING_CELL_MAP d0) cs = Some toward /\
         arrowAt "1-1" cs =
           Some (Deg (midAngle (inject_Z (TOWARD_CENTER d0))
                               (inject_Z (AWAY_CENTER d1)))) /\
         arrowAt (OPENING_CELL_MAP d1) cs = Some away
     end).
Proof.
  destruct tile as [tid row col ty ops]. unfold Tile. cbn [t_type t_openings].
  intros Hcs.
  assert (Hty : ty <> EMPTY) by (intros ->; discriminate Hcs).
  assert (Hcells : cs = cells (mkTile tid row col ty ops))
    by (destruct ty; congruence).
  clear Hcs. subst cs.
  assert (Hcorner : forall (P : string -> Prop),
            P "0-0"%string -> P "0-2"%string -> P "2-0"%string -> P "2-2"%string ->
            forall key, key ∈ cornerKeys -> P key).
  { intros P H1 H2 H3 H4 key Hin. unfold cornerKeys in Hin.
    repeat (apply elem_of_cons in Hin as [-> | Hin]; [assumption|]).
    inversion Hin. }
  destruct ops as [|d0 [|d1 rest]].
  - destruct ty; try contradiction;
      (split; [reflexivity|]; split; [apply Hcorner; reflexivity|];
       split; [vm_compute; lia|]; split;
       [split; [intros H; vm_compute in H; discriminate H
               | intros (? & ? & ? & H & _); discriminate H]
       | intros ? ? ? H; discriminate H]).
  - destruct ty; try contradiction; destruct d0;
      (split; [reflexivity|]; split; [apply Hcorner; reflexivity|];
       split; [vm_compute; lia|]; split;
       [split; [intros H; vm_compute in H; discriminate H
               | intros (? & ? & ? & H & _); discriminate H]
       | intros ? ? ? H; discriminate H]).
  - destruct ty; try contradiction; destruct d0, d1;
      (split; [reflexivity|]; split; [apply Hcorner; reflexivity|];
       split; [vm_compute; lia|]; split;
       [split; [intros H; first [ vm_compute in H; discriminate H
                                | eexists _, _, _; split; [reflexivity | discriminate] ]
               | intros (? & ? & ? & H & Hne); first [ reflexivity | injection H as <- <- _; contradiction ] ]
       | intros ? ? ? H Hne; injection H as <- <- _;
         first [ contradiction | repeat split ] ]).
Qed.

End TileFacts.

(** ** The angle of the centre arrow *)

Section AngleFacts.
Import PipePuzzle PipePuzzleView.
Local Open Scope Q_scope.

Lemma js_rem_360 v :
  0 <= v ->
  0 <= js_rem v 360 /\ js_rem v 360 < 360 /\
  exists k : Z, js_rem v 360 == v - 360 * inject_Z k.
Proof.
  intros Hv. unfold js_rem, Qtrunc.
  assert (Hq : 0 <= v / 360).
  { apply Qle_shift_div_l; [reflexivity|]. lra. }
  destruct (Qle_bool 0 (v / 360)) eqn:Hb;
    [|apply Qle_bool_iff in Hq; congruence].
  pose proof (Qfloor_le (v / 360)) as Hlo.
  pose proof (Qlt_floor (v / 360)) as Hhi.
  rewrite inject_Z_plus in Hhi.
  set (k := inject_Z (Qfloor (v / 360))) in *.
  assert (Hdiv : v / 360 * 360 == v) by (field).
  split; [|split].
  - nra.
  - change (inject_Z 1) with 1 in Hhi. nra.
  - exists (Qfloor (v / 360)). fold k. ring.
Qed.

Lemma js_rem_half_turn a d :
  0 <= a -> -180 <= d -> d <= 180 ->
  let r := js_rem (a + d / 2 + 360) 360 in
  0 <= r /\ r < 360 /\ exists k : Z, r == a + d / 2 + 360 * inject_Z k.
Proof.
  intros Ha Hd0 Hd1. cbv zeta.
  assert (Hh : d / 2 * 2 == d) by field.
  set (h := d / 2) in *.
  destruct (js_rem_360 (a + h + 360)) as (Hr0 & Hr1 & k & Hk); [lra|].
  split; [exact Hr0|]. split; [exact Hr1|].
  exists (1 + - k)%Z. rewrite Hk, inject_Z_plus, inject_Z_opp.
  change (inject_Z 1) with 1. ring.
Qed.

(** X24: for two angles in [0, 360) the result of [midAngle] is again in
    [0, 360) and lies half way along the shorter arc from the first to the
    second: the second angle is [a + d] and the result [a + d / 2], up to
    full turns, for one [d] between -180 and 180. *)
Theorem X24_midAngle_bisects_shorter_arc a b :
  0 <= a -> a < 360 -> 0 <= b -> b < 360 ->
  let r := midAngle a b in
  0 <= r /\ r < 360 /\
  exists (d : Q) (j k : Z),
    -180 <= d /\ d <= 180 /\
    b == a + d + 360 * inject_Z j /\
    r == a + d / 2 + 360 * inject_Z k.
Proof.
  intros Ha0 Ha1 Hb0 Hb1. cbv zeta. unfold midAngle.
  destruct (Qle_bool (b - a) 180) eqn:H1; cbn [negb].
  - apply Qle_bool_iff in H1.
    destruct (Qle_bool (-180) (b - a)) eqn:H2; cbn [negb].
    + apply Qle_bool_iff in H2.
      destruct (js_rem_half_turn a (b - a) Ha0 H2 H1) as (Hr0 & Hr1 & k & Hk).
      split; [exact Hr0|]. split; [exact Hr1|].
      exists (b - a), 0%Z, k. split; [exact H2|]. split; [exact H1|].
      split; [ring | exact Hk].
    + assert (H2' : b - a < -180).
      { apply Qnot_le_lt. intros H. apply Qle_bool_iff in H. congruence. }
      destruct (js_rem_half_turn a (b - a + 360) Ha0) as (Hr0 & Hr1 & k & Hk);
        [lra | lra |].
      split; [exact Hr0|]. split; [exact Hr1|].
      exists (b - a + 360), (-1)%Z, k. split; [lra|]. split; [lra|].
      split; [ring | exact Hk].
  - assert (H1' : 180 < b - a).
    { apply Qnot_le_lt. intros H. apply Qle_bool_iff in H. congruence. }
    assert (H2 : Qle_bool (-180) (b - a - 360) = true)
      by (apply Qle_bool_iff; lra).
    rewrite H2. cbn [negb].
    destruct (js_rem_half_turn a (b - a - 360) Ha0) as (Hr0 & Hr1 & k & Hk);
      [lra | lra |].
    split; [exact Hr0|]. split; [exact Hr1|].
    exists (b - a - 360), 1%Z, k. split; [lra|]. split; [lra|].
    split; [ring | exact Hk].
Qed.

End AngleFacts.

(** ** The rocket *)

Section RocketFacts.
Import PipePuzzle PipePuzzleView.

Context {A : Type}.
Variable cellCenter : Z -> Z -> A.
Variables startOffset endOffset : A.

Lemma omap_lookup_seq {B} (h : nat -> A -> B) (ws : list A) : forall pre,
  omap (fun i => h i <$> (pre ++ ws) !! i) (seq (length pre) (length ws)) =
  imap (fun i w => h (length pre + i)%nat w) ws.
Proof.
  induction ws as [|w ws IH]; intros pre; [reflexivity|].
  cbn [length seq omap list_omap imap].
  rewrite list_lookup_middle by reflexivity. cbn [fmap option_fmap option_map].
  rewrite Nat.add_0_r. f_equal.
  specialize (IH (pre ++ [w])).
  rewrite <- app_assoc, length_app in IH. cbn [length app] in IH.
  rewrite Nat.add_1_r in IH. rewrite IH.
  apply imap_ext. intros i x _. cbn. f_equal. lia.
Qed.

Lemma rocketEffect_steps path :
  path <> [] ->
  rocketEffect cellCenter startOffset endOffset true path =
    (Some startOffset,
     imap (fun i w => (Z.of_nat (S i) * ANIMATION_STEP_MS, w))
          (map (fun p => cellCenter (c_row p) (c_col p)) path ++ [endOffset])).
Proof.
  intros Hne. unfold rocketEffect. cbn [negb orb].
  destruct path as [|p path]; [contradiction|]. cbn [length Nat.eqb].
  cbv zeta. set (ws := map _ (p :: path) ++ [endOffset]).
  replace (length (startOffset :: ws) - 1)%nat with (length ws)
    by (simpl; lia).
  f_equal.
  exact (omap_lookup_seq (fun i w => (Z.of_nat i * ANIMATION_STEP_MS, w)) ws
           [startOffset]).
Qed.

(** X25: without an animation, or with an empty path, the rocket effect
    shows no rocket and schedules nothing.  With a path of L cells it
    puts the rocket on the entry marker and schedules L + 1 moves: to the
    centre of the i-th path cell after i steps of [ANIMATION_STEP_MS], and
    to the exit marker after L + 1 steps, which is one step earlier than
    the delay of the WON callback for the same path. *)
Theorem X25_rocket_reaches_exit_before_win animating path :
  let L := Z.of_nat (length path) in
  let eff := rocketEffect cellCenter startOffset endOffset animating path in
  (animating = false \/ path = [] -> eff = (None, [])) /\
  (animating = true -> path <> [] ->
   eff.1 = Some startOffset /\
   length eff.2 = S (length path) /\
   (forall i p,
      path !! i = Some p ->
      eff.2 !! i = Some ((Z.of_nat i + 1) * ANIMATION_STEP_MS,
                         cellCenter (c_row p) (c_col p))) /\
   eff.2 !! length path = Some ((L + 1) * ANIMATION_STEP_MS, endOffset) /\
   Forall (fun t => 0 < t.1 <= (L + 1) * ANIMATION_STEP_MS) eff.2 /\
   (L + 1) * ANIMATION_STEP_MS + ANIMATION_STEP_MS = animationDelay L).
Proof.
  cbv zeta. split.
  - intros [-> | ->]; [reflexivity|]. unfold rocketEffect.
    destruct animating; reflexivity.
  - intros -> Hne. rewrite (rocketEffect_steps path Hne). cbn [fst snd].
    split; [reflexivity|]. split; [|split; [|split; [|split]]].
    + rewrite length_imap, length_app, length_map. simpl. lia.
    + intros i p Hp. rewrite list_lookup_imap.
      rewrite lookup_app_l by (rewrite length_map; eapply lookup_lt_Some; exact Hp).
      rewrite list_lookup_fmap, Hp. cbn. do 2 f_equal. lia.
    + rewrite list_lookup_imap.
      rewrite lookup_app_r by (rewrite length_map; lia).
      rewrite length_map, Nat.sub_diag. cbn. do 2 f_equal. lia.
    + apply Forall_lookup. intros i [t w] Hi.
      rewrite list_lookup_imap in Hi.
      destruct ((map _ path ++ [endOffset]) !! i) as [w'|] eqn:Hw;
        [|discriminate Hi].
      apply lookup_lt_Some in Hw. rewrite length_app, length_map in Hw.
      simpl in Hw. cbn in Hi. injection Hi as <- _. cbn [fst].
      unfold ANIMATION_STEP_MS. lia.
    + unfold animationDelay, ANIMATION_STEP_MS, ANIMATION_END_BUFFER_MS. lia.
Qed.

End RocketFacts.

Section ViewWitnesses.

Import PipePuzzle PipePuzzleView.

Lemma X22_countdown_display_witness :
  parseTime (formattedTime 125) = Some 125 /\
  exists d1 d0,
    formattedTime 125 =
      String.append (show_Z (125 / 60))
        (String ":" (String d1 (String d0 EmptyString))).
Proof. apply (X22_countdown_display_reads_back 125). lia. Defined.

Lemma X23_tile_arrows_witness :
  let cs := cells (mkTile "t1" 0 1 CORNER [LEFT; DOWN]) in
  arrowCount cs = 3%nat /\
  arrowAt "1-0" cs = Some (Deg (inject_Z 0)) /\
  arrowAt "1-1" cs = Some (Deg (midAngle (inject_Z 0) (inject_Z 90))) /\
  arrowAt "2-1" cs = Some (Deg (inject_Z 90)).
Proof.
  destruct (X23_tile_shows_three_arrows (mkTile "t1" 0 1 CORNER [LEFT; DOWN])
              (cells (mkTile "t1" 0 1 CORNER [LEFT; DOWN])) eq_refl)
    as (_ & _ & _ & Hthree & Harrows).
  split.
  - apply Hthree. exists LEFT, DOWN, []. split; [reflexivity | discriminate].
  - apply (Harrows LEFT DOWN []); [reflexivity | discriminate].
Defined.

Lemma X24_midAngle_witness :
  let r := midAngle 270 0 in
  (0 <= r)%Q /\ (r < 360)%Q /\
  exists (d : Q) (j k : Z),
    (-180 <= d)%Q /\ (d <= 180)%Q /\
    (0 == 270 + d + 360 * inject_Z j)%Q /\
    (r == 270 + d / 2 + 360 * inject_Z k)%Q.
Proof.
  apply (X24_midAngle_bisects_shorter_arc 270 0).
  - vm_compute. discriminate.
  - reflexivity.
  - vm_compute. discriminate.
  - reflexivity.
Defined.

Lemma X25_rocket_witness :
  let path := [ mkCell 0 0; mkCell 0 1 ] in
  let eff := rocketEffect (fun r c => (r, c)) (0, -1) (1, 1) true path in
  eff.1 = Some (0, -1) /\ length eff.2 = 3%nat /\
  eff.2 !! 2%nat = Some (1200, (1, 1)) /\
  1200 + ANIMATION_STEP_MS = animationDelay 2.
Proof.
  destruct (X25_rocket_reaches_exit_before_win (fun r c => (r, c)) (0, -1) (1, 1)
              true [ mkCell 0 0; mkCell 0 1 ])
    as (_ & Hrun).
  destruct (Hrun eq_refl ltac:(discriminate)) as (H1 & H2 & _ & H3 & _ & H4).
  cbv zeta. split; [exact H1|]. split; [exact H2|]. split; [exact H3 | exact H4].
Defined.

End ViewWitnesses.

(** * The assessment flow of the pipe game *)

Section FlowFacts.
Import PipePuzzle PathfinderGame AssessmentFlow.

Lemma LEVELS_length : Z.of_nat (length LEVELS) = 3.
Proof. reflexivity. Qed.

Lemma nextQuestion_recordOk rows cols w success st level :
  reachable rows cols w ->
  nextQuestion (comp w) = Some (success, st) ->
  recordOk (mkLevelResult level success (s_moves st) (s_rotations st)
              (s_flips st) (s_time st)).
Proof.
  intros Hreach Hnext.
  destruct (reachable_GameInv _ _ _ Hreach) as (Htr & _ & Hlost & _).
  unfold nextQuestion, stats in Hnext. unfold recordOk. cbn.
  destruct (status (gameState (comp w))) eqn:Hs; try discriminate Hnext;
    injection Hnext as <- <-; cbn.
  - split; [lia | discriminate].
  - rewrite (Hlost eq_refl). split; [lia|]. intros _. lia.
Qed.

Variable storage : option (list StoredEntry).

Lemma FlowInv_init : FlowInv (initialFlow storage).
Proof. split; [constructor|]. cbn. repeat split. Qed.

Lemma FlowInv_step f ev f' : FlowInv f -> flowStep f ev = Next f' -> FlowInv f'.
Proof.
  intros [Hrec Hinv] Hstep.
  destruct f as [stp lvl res gm calls pend sto]. cbn in Hrec, Hinv.
  destruct ev as [| |ev| |o timestamp]; cbn in Hstep.
  - destruct stp; try discriminate Hstep. injection Hstep as <-.
    split; [exact Hrec | exact Hinv].
  - destruct stp; try discriminate Hstep.
    destruct Hinv as (-> & -> & -> & -> & ->).
    cbn in Hstep. injection Hstep as <-.
    split; [constructor|]. cbn.
    split; [|repeat split].
    eexists _, _. split; [reflexivity|]. split; [reflexivity|].
    apply reachable_mount.
  - destruct stp; try discriminate Hstep.
    destruct gm as [w|]; [|discriminate Hstep].
    destruct (step w ev) as [w'|] eqn:Hw; [|discriminate Hstep].
    injection Hstep as <-.
    destruct Hinv as ((lv & w0 & Hlv & Hgame & Hreach) & Hlevels & -> & ->).
    injection Hgame as <-.
    split; [exact Hrec|]. cbn.
    split; [|repeat split; assumption].
    exists lv, w'. split; [exact Hlv|]. split; [reflexivity|].
    eapply reachable_next; eassumption.
  - destruct stp; try discriminate Hstep.
    destruct gm as [w|]; [|discriminate Hstep].
    destruct (nextQuestion (comp w)) as [[success st]|] eqn:Hnext;
      [|discriminate Hstep].
    destruct Hinv as ((lv & w0 & Hlv & Hgame & Hreach) & Hlevels & -> & ->).
    injection Hgame as <-.
    pose proof (nextQuestion_recordOk _ _ _ _ _ (lvl + 1) Hreach Hnext) as Hok.
    assert (Hlvl : 0 <= lvl < 3).
    { unfold arr_get in Hlv. destruct (Z.ltb_spec lvl 0); [discriminate Hlv|].
      apply lookup_lt_Some in Hlv. simpl in Hlv. lia. }
    unfold handleLevelComplete in Hstep. rewrite LEVELS_length in Hstep.
    cbn in Hstep.
    destruct (Z.ltb_spec lvl (3 - 1)) as [Hlt | Hge].
    + assert (Hnot : (lvl >=? 3 - 1) = false) by lia.
      rewrite Hnot in Hstep. cbn in Hstep.
      unfold enterGame in Hstep. cbn in Hstep.
      destruct (arr_get LEVELS (lvl + 1)) as [lv'|] eqn:Hlv';
        [|discriminate Hstep].
      injection Hstep as <-. split; cbn.
      * apply Forall_app. split; [exact Hrec | constructor; [exact Hok | constructor]].
      * split; [|split; [|split; reflexivity]].
        -- exists lv', (mount (l_rows lv') (l_cols lv')).
           split; [exact Hlv'|]. split; [reflexivity | apply reachable_mount].
        -- rewrite fmap_app, Hlevels. cbn.
           replace lvl with (lvl + 1 - 1) at 1 by lia.
           apply roundsUpTo_snoc. lia.
    + assert (Hlast : (lvl >=? 3 - 1) = true) by lia.
      rewrite Hlast in Hstep. cbn in Hstep. injection Hstep as <-.
      split; cbn.
      * apply Forall_app. split; [exact Hrec | constructor; [exact Hok | constructor]].
      * split; [|split; [reflexivity|split; [reflexivity | right; reflexivity]]].
        rewrite fmap_app, Hlevels.
        replace lvl with 2 by lia. reflexivity.
  - destruct pend as [|scores rest]; [discriminate Hstep|].
    assert (Hf' : FlowInv (setPendingSaves rest
                             (mkFlow stp lvl res gm calls (scores :: rest) sto))
                  /\ scores = res).
    { destruct stp; cbn in *.
      - destruct Hinv as (_ & _ & _ & _ & H). discriminate H.
      - destruct Hinv as (_ & _ & _ & _ & H). discriminate H.
      - destruct Hinv as (_ & _ & _ & H). discriminate H.
      - destruct Hinv as (Hl & Hg & Hc & [H | H]); [discriminate H|].
        injection H as -> ->. split; [|reflexivity].
        split; [exact Hrec|]. cbn. repeat split; try assumption. left. reflexivity. }
    destruct Hf' as [[Hrec' Hinv'] _].
    destruct o as [[]|err]; injection Hstep as <-;
      (split; [exact Hrec' | exact Hinv']).
Qed.

Lemma flowReachable_FlowInv f : flowReachable storage f -> FlowInv f.
Proof.
  induction 1 as [|f ev f' _ IH Hstep]; [apply FlowInv_init|].
  exact (FlowInv_step _ _ _ IH Hstep).
Qed.

(** ** Results and their saving *)

Lemma flowReachable_run f evs f' :
  flowReachable storage f -> flowRun f evs = Next f' -> flowReachable storage f'.
Proof.
  revert f. induction evs as [|ev evs IH]; intros f Hreach Hrun; cbn in Hrun.
  - injection Hrun as <-. exact Hreach.
  - destruct (flowStep f ev) as [f1| |] eqn:Hstep; try discriminate Hrun.
    eapply IH; [|exact Hrun]. eapply flow_next; eassumption.
Qed.

(** X26: the flow never raises: the level configuration is defined
    whenever the game step is drawn.  During the game step there is
    exactly one result for each level already left, numbered 1, 2, ... in
    order; on the results page there are the three results of levels 1, 2
    and 3.  The time of every recorded result is between 0 and
    GAME_DURATION, and is GAME_DURATION for a level that was not won. *)
Theorem X26_one_result_per_level f :
  flowReachable storage f ->
  (forall ev, flowStep f ev <> Raises) /\
  (f_step f = GAME ->
   is_Some (arr_get LEVELS (currentLevel f)) /\
   lr_level <$> results f = roundsUpTo (currentLevel f)) /\
  (f_step f = RESULTS -> lr_level <$> results f = [1; 2; 3]) /\
  Forall recordOk (results f).
Proof.
  intros Hreach. destruct (flowReachable_FlowInv f Hreach) as [Hrec Hinv].
  split; [|split; [|split; [|exact Hrec]]].
  - intros ev. destruct f as [stp lvl res gm calls pend sto]. cbn in Hinv.
    destruct ev as [| |ev| |o timestamp]; cbn.
    + destruct stp; discriminate.
    + destruct stp; try discriminate.
      destruct Hinv as (-> & _). discriminate.
    + destruct stp; try discriminate. destruct gm; [|discriminate].
      destruct (step w ev); discriminate.
    + destruct stp; try discriminate. destruct gm as [w|]; [|discriminate].
      destruct (nextQuestion (comp w)) as [[success st]|]; [|discriminate].
      destruct Hinv as ((lv & w0 & Hlv & _) & _).
      assert (Hlvl : 0 <= lvl < 3).
      { unfold arr_get in Hlv. destruct (Z.ltb_spec lvl 0); [discriminate Hlv|].
        apply lookup_lt_Some in Hlv. simpl in Hlv. lia. }
      unfold handleLevelComplete. rewrite LEVELS_length. cbn.
      destruct (Z.ltb_spec lvl (3 - 1)) as [Hlt | Hge]; cbn; [|discriminate].
      unfold enterGame. cbn.
      assert (Hcase : lvl = 0 \/ lvl = 1) by lia.
      destruct Hcase as [-> | ->]; discriminate.
    + destruct pend; [discriminate|]. destruct o; discriminate.
  - intros Hs. rewrite Hs in Hinv.
    destruct Hinv as ((lv & w & Hlv & _) & Hlevels & _).
    split; [rewrite Hlv; eexists; reflexivity | exact Hlevels].
  - intros Hs. rewrite Hs in Hinv. destruct Hinv as (Hlevels & _). exact Hlevels.
Qed.

(** X27: the results are saved exactly once, with all three levels, when
    the last level is left: before the results page no save call has been
    made, on it exactly one, whose argument is the result list shown.
    When that call fails, one entry with these results is appended to the
    list in local storage (created if absent) and the earlier entries are
    kept; when it succeeds, and on every other event, local storage is not
    touched. *)
Theorem X27_results_saved_once f :
  flowReachable storage f ->
  (f_step f <> RESULTS -> saveCalls f = [] /\ pendingSaves f = []) /\
  (f_step f = RESULTS ->
   saveCalls f = [ results f ] /\ length (results f) = 3%nat) /\
  (forall ev f',
     flowStep f ev = Next f' ->
     match ev with
     | SaveSettles o timestamp =>
         f_step f' = RESULTS /\ results f' = results f /\
         pendingSaves f' = [] /\ saveCalls f' = saveCalls f /\
         stored f' =
           match o with
           | Fulfilled _ => stored f
           | Rejected _ =>
               Some (default [] (stored f) ++ [ mkStored timestamp (results f) ])
           end
     | _ => stored f' = stored f
     end).
Proof.
  intros Hreach. destruct (flowReachable_FlowInv f Hreach) as [Hrec Hinv].
  destruct f as [stp lvl res gm calls pend sto]. cbn in Hinv.
  split; [|split].
  - intros Hs. destruct stp; cbn in *; try contradiction.
    + destruct Hinv as (_ & _ & _ & -> & ->). split; reflexivity.
    + destruct Hinv as (_ & _ & _ & -> & ->). split; reflexivity.
    + destruct Hinv as (_ & _ & -> & ->). split; reflexivity.
  - intros Hs. cbn in Hs. subst stp. destruct Hinv as (Hlevels & _ & -> & _).
    split; [reflexivity|]. cbn.
    apply (f_equal length) in Hlevels. rewrite length_fmap in Hlevels.
    exact Hlevels.
  - intros ev f' Hstep. destruct ev as [| |ev| |o timestamp]; cbn in Hstep.
    + destruct stp; try discriminate Hstep. injection Hstep as <-. reflexivity.
    + destruct stp; try discriminate Hstep. unfold enterGame in Hstep.
      cbn in Hstep. destruct (arr_get LEVELS lvl); [|discriminate Hstep].
      injection Hstep as <-. reflexivity.
    + destruct stp; try discriminate Hstep. destruct gm; [|discriminate Hstep].
      destruct (step w ev); [|discriminate Hstep].
      injection Hstep as <-. reflexivity.
    + destruct stp; try discriminate Hstep.
      destruct gm as [w|]; [|discriminate Hstep].
      destruct (nextQuestion (comp w)) as [[success st]|]; [|discriminate Hstep].
      unfold handleLevelComplete, enterGame in Hstep. cbn in Hstep.
      destruct (lvl >=? _); destruct (lvl <? _); cbn in Hstep;
        try destruct (arr_get LEVELS (lvl + 1)); try discriminate Hstep;
        injection Hstep as <-; reflexivity.
    + destruct pend as [|scores rest]; [discriminate Hstep|].
      destruct stp; cbn in Hinv.
      * destruct Hinv as (_ & _ & _ & _ & H). discriminate H.
      * destruct Hinv as (_ & _ & _ & _ & H). discriminate H.
      * destruct Hinv as (_ & _ & _ & H). discriminate H.
      * destruct Hinv as (_ & _ & _ & [H | H]); [discriminate H|].
        injection H as -> ->.
        destruct o as [[]|err]; injection Hstep as <-; cbn; repeat split.
Qed.

End FlowFacts.

Section FlowWitnesses.

Import PipePuzzle PathfinderGame AssessmentFlow.

Lemma sampleFlow_reachable : flowReachable None sampleFlow.
Proof.
  apply (flowReachable_run None (initialFlow None) sampleFlowTrace);
    [apply flow_init | vm_compute; reflexivity].
Qed.

Lemma X26_one_result_per_level_witness :
  lr_level <$> results sampleFlow = [1; 2; 3] /\
  Forall recordOk (results sampleFlow).
Proof.
  destruct (X26_one_result_per_level None sampleFlow) as (_ & _ & Hres & Hok).
  - apply (flowReachable_run None (initialFlow None) sampleFlowTrace);
      [apply flow_init | vm_compute; reflexivity].
  - split; [apply Hres; reflexivity | exact Hok].
Defined.

Lemma X27_results_saved_once_witness :
  saveCalls sampleFlow = [ results sampleFlow ] /\
  length (results sampleFlow) = 3%nat /\
  forall f',
    flowStep sampleFlow (SaveSettles (Rejected "offline") "2026-01-01T00:00:00.000Z")
      = Next f' ->
    stored f' =
      Some [ mkStored "2026-01-01T00:00:00.000Z" (results sampleFlow) ].
Proof.
  destruct (X27_results_saved_once None sampleFlow) as (_ & Hsaved & Hstep).
  - apply (flowReachable_run None (initialFlow None) sampleFlowTrace);
      [apply flow_init | vm_compute; reflexivity].
  - destruct (Hsaved eq_refl) as [Hcalls Hlen].
    split; [exact Hcalls|]. split; [exact Hlen|].
    intros f' Hf'.
    destruct (Hstep _ _ Hf') as (_ & _ & _ & _ & Hsto). exact Hsto.
Defined.

End FlowWitnesses.

(** * The application shell *)

Section AppFacts.
Import App.

(** ** Tracks handed out, held and stopped *)

Ltac track_cases t n H W L S Hc :=
  destruct (decide (t < n)%nat) as [Hlt | Hge];
    [specialize (Hc Hlt) | clear Hc];
  destruct (decide (t ∈ H)), (decide (t ∈ W)), (decide (t ∈ L)),
    (decide (t ∈ S)).

Lemma tracksOk_intro (H W L S : list Track) n :
  (forall t,
     (t ∈ H \/ t ∈ W \/ t ∈ L \/ t ∈ S -> (t < n)%nat) /\
     ((t < n)%nat -> (t ∈ S <-> ~ (t ∈ H \/ t ∈ W \/ t ∈ L))) /\
     (t ∈ H -> (t ∉ W) /\ (t ∉ L)) /\ (t ∈ W -> t ∉ L)) ->
  tracksOk H W L S n.
Proof.
  intros Hall. unfold tracksOk.
  split; [|split; [|split]]; intros t; destruct (Hall t) as (H1 & H2 & H3 & H4);
    assumption.
Qed.

Lemma tracksOk_at (H W L S : list Track) n t :
  tracksOk H W L S n ->
  (t ∈ H \/ t ∈ W \/ t ∈ L \/ t ∈ S -> (t < n)%nat) /\
  ((t < n)%nat -> (t ∈ S <-> ~ (t ∈ H \/ t ∈ W \/ t ∈ L))) /\
  (t ∈ H -> (t ∉ W) /\ (t ∉ L)) /\ (t ∈ W -> t ∉ L).
Proof.
  intros (Hb & Hc & Hd1 & Hd2).
  split; [apply Hb|]. split; [apply Hc|]. split; [apply Hd1 | apply Hd2].
Qed.

Lemma alloc_held (H W L S : list Track) n k :
  tracksOk H W L S n -> tracksOk (H ++ seq n k) W L S (k + n).
Proof.
  intros Hok. apply tracksOk_intro. intros t.
  destruct (tracksOk_at _ _ _ _ _ t Hok) as (Hb & Hc & Hd1 & Hd2).
  rewrite elem_of_app, elem_of_seq.
  track_cases t n H W L S Hc; intuition lia.
Qed.

Lemma alloc_webcam (H L S : list Track) n k :
  tracksOk H [] L S n -> tracksOk H (seq n k) L S (k + n).
Proof.
  intros Hok. apply tracksOk_intro. intros t.
  destruct (tracksOk_at _ _ _ _ _ t Hok) as (Hb & Hc & Hd1 & Hd2).
  rewrite elem_of_seq. rewrite elem_of_nil in *.
  track_cases t n H (@nil Track) L S Hc; intuition lia.
Qed.

Lemma alloc_leaked (H W L S : list Track) n k :
  tracksOk H W L S n -> tracksOk H W (L ++ seq n k) S (k + n).
Proof.
  intros Hok. apply tracksOk_intro. intros t.
  destruct (tracksOk_at _ _ _ _ _ t Hok) as (Hb & Hc & Hd1 & Hd2).
  rewrite elem_of_app, elem_of_seq.
  track_cases t n H W L S Hc; intuition lia.
Qed.

Lemma stop_held (H W L S : list Track) n :
  tracksOk H W L S n -> tracksOk [] W L (S ++ H) n.
Proof.
  intros Hok. apply tracksOk_intro. intros t.
  destruct (tracksOk_at _ _ _ _ _ t Hok) as (Hb & Hc & Hd1 & Hd2).
  rewrite elem_of_app, elem_of_nil.
  track_cases t n H W L S Hc; intuition lia.
Qed.

Lemma stop_webcam (H W L S : list Track) n :
  tracksOk H W L S n -> tracksOk H [] L (S ++ W) n.
Proof.
  intros Hok. apply tracksOk_intro. intros t.
  destruct (tracksOk_at _ _ _ _ _ t Hok) as (Hb & Hc & Hd1 & Hd2).
  rewrite elem_of_app, elem_of_nil.
  track_cases t n H W L S Hc; intuition lia.
Qed.

Lemma tracksOk_init : tracksOk [] [] [] [] 0.
Proof.
  apply tracksOk_intro. intros t. rewrite !elem_of_nil.
  split; [tauto|]. split; [lia|]. tauto.
Qed.

Lemma AppInv_init : AppInv initialApp.
Proof.
  unfold AppInv, initialApp, holding, webcam. cbn.
  split; [left; reflexivity|]. split; [split; [reflexivity | discriminate]|].
  split; [reflexivity|].
  split; [split; [discriminate | intros [s Hs]; discriminate Hs]|].
  split; [intros H; contradiction|]. split; [repeat split|].
  split; [discriminate | exact tracksOk_init].
Qed.

(** ** The invariant *)

(** Proof steps shared by the cases of the invariant. *)
Ltac split_inv := repeat match goal with |- _ /\ _ => split end.

Ltac tracks Hok :=
  first [ exact Hok
        | exact tracksOk_init
        | exact (alloc_held [] _ _ _ _ 1 Hok)
        | exact (alloc_held _ _ _ _ _ 1 Hok)
        | exact (alloc_webcam _ _ _ _ 2 Hok)
        | exact (alloc_leaked _ _ _ _ _ 2 Hok)
        | exact (stop_held _ _ _ _ _ Hok)
        | exact (stop_webcam _ _ _ _ _ Hok)
        | rewrite <- app_assoc; exact (stop_held _ _ _ _ _ Hok) ].

Ltac app_leaf Hok :=
  cbn;
  first [ assumption | reflexivity | discriminate
        | (left; reflexivity) | (right; eexists; reflexivity)
        | (split; intros; first [ discriminate | eexists; reflexivity
                                | match goal with H : is_Some None |- _ =>
                                    destruct H; discriminate end ])
        | (intros; first [assumption | reflexivity | contradiction | congruence])
        | (eexists; split; reflexivity)
        | (eexists; split; [reflexivity|];
           first [ left; split; [eexists; reflexivity | reflexivity]
                 | right; split; reflexivity ])
        | match goal with
          | |- isChecking ?c = false => destruct c; first [reflexivity | congruence]
          end
        | tracks Hok
        | tauto
        | (intros ? [= <-]; cbn; intros;
           first [reflexivity | discriminate | assumption | congruence]) ].

Ltac break :=
  repeat match goal with
         | H : _ /\ _ |- _ => destruct H
         | H : exists _, _ |- _ => destruct H
         end.

Ltac finish Hok :=
  cbv beta iota zeta delta
    [runChecks checksPassed secureFailed
     handleVisibilityChange getUserMedia stopTracks alert
     mountProctoring webcamSettled unmountProctoring lateWebcamSettled
     setScreen setMediaStream setIsLoading setSystemCheck setVideoCheck
     setAudioCheck setSecureBrowserCheck setRuns setRecordings
     setRecordingErrors setProctoring setLatePending setLeaked
     screen mediaStream isLoading systemCheck videoCheck audioCheck
     secureBrowserCheck runs nextTrack stopped recordings recordingErrors
     alerts proctoring latePending leaked
     pr_srcObject pr_error pr_pending
     statusesAt held head fst snd recordingAttempted];
  unfold anyChecking, allPassed; cbn;
  split_inv; try solve [app_leaf Hok].

Lemma AppInv_step a ev a' : AppInv a -> step a ev = Some a' -> AppInv a'.
Proof.
  intros Hinv Hstep.
  assert (Hreload : ev = Reload -> AppInv a').
  { intros ->. injection Hstep as <-. exact AppInv_init. }
  destruct a as [scr ms load sysc vidc audc secc rs nt stp recs errs al
                   pr late lk].
  unfold AppInv, holding, webcam, recordingAttempted in *. cbn in Hinv.
  destruct Hinv as (Hruns & Hstat & Hload & Hall & Hscr & Hrec & Hpr & Hok).
  destruct Hruns as [-> | [r ->]].
  - unfold statusesAt, anyChecking, allPassed in *.
    cbn in Hstat, Hload, Hok, Hall. subst load. clear Hscr.
    destruct Hstat as [Hnone Hsec].
    destruct ev; cbn in Hstep; try discriminate Hstep;
      try exact (Hreload eq_refl); clear Hreload.
    + destruct scr; try discriminate Hstep. injection Hstep as <-.
      finish Hok.
    + destruct scr; try discriminate Hstep.
      unfold allPassed, anyChecking in Hstep. cbn in Hstep.
      rewrite Hnone in Hstep.
      destruct (isPassed sysc && isPassed vidc && isPassed audc && isPassed secc)
        eqn:Hp; [discriminate Hstep|].
      injection Hstep as <-.
      assert (Hms : ms = None).
      { destruct ms as [m|]; [|reflexivity].
        discriminate (proj2 Hall (ex_intro _ m eq_refl)). }
      subst ms.
      finish Hok.
      * intros ->. destruct sysc, vidc, audc; discriminate Hnone.
      * intros Heq. discriminate (Hsec Heq).
    + destruct scr; try discriminate Hstep.
      unfold allPassed in Hstep. cbn in Hstep.
      destruct (isPassed sysc && isPassed vidc && isPassed audc && isPassed secc)
        eqn:Hp; [|discriminate Hstep].
      cbn in Hstep. injection Hstep as <-.
      destruct (proj1 Hall eq_refl) as [s ->].
      destruct Hrec as (-> & -> & -> & -> & ->).
      unfold proceedToAssessment, startRecording, allPassed. cbn. rewrite Hp.
      destruct support as [[] [] []]; cbn; finish Hok.
    + destruct scr; try discriminate Hstep. injection Hstep as <-.
      finish Hok.
    + destruct scr; try discriminate Hstep. injection Hstep as <-.
      finish Hok.
    + destruct scr; try discriminate Hstep; injection Hstep as <-.
      * destruct pr as [[[src|] err []]|]; finish Hok.
      * finish Hok.
    + injection Hstep as <-. destruct hidden; destruct scr;
        finish Hok.
    + destruct scr; try discriminate Hstep.
      destruct pr; try discriminate Hstep. injection Hstep as <-.
      finish Hok.
    + destruct pr as [[src err pend]|]; try discriminate Hstep.
      injection Hstep as <-.
      destruct scr; try (destruct Hrec as (_ & _ & Hn & _); discriminate Hn);
        try (destruct Hrec as (_ & Hn); discriminate Hn).
      destruct src, pend; finish Hok.
    + destruct pr as [[src err pend]|]; try discriminate Hstep.
      destruct pend; try discriminate Hstep. injection Hstep as <-.
      pose proof (Hpr _ eq_refl eq_refl) as Hsrc. cbn in Hsrc. subst src.
      cbn in Hok.
      destruct scr; try (destruct Hrec as (_ & _ & Hn & _); discriminate Hn);
        try (destruct Hrec as (_ & Hn); discriminate Hn).
      destruct granted; finish Hok.
    + destruct late as [|late]; try discriminate Hstep.
      injection Hstep as <-.
      destruct scr;
        try (destruct Hrec as (_ & _ & _ & Hn & _); discriminate Hn);
        destruct granted; finish Hok.
  - cbn in Hload, Hok. subst load.
    specialize (Hscr ltac:(discriminate)). subst scr.
    destruct Hrec as (-> & -> & -> & -> & ->).
    unfold allPassed in Hall. cbn in Hall.
    destruct r; cbn in Hstat;
      [ destruct Hstat as (-> & -> & -> & Hs1 & Hs2)
      | destruct Hstat as (-> & -> & -> & Hs1 & Hs2)
      | destruct Hstat as (-> & -> & -> & Hs1 & Hs2)
      | destruct Hstat as (-> & -> & -> & ->)
      | destruct Hstat as (-> & -> & -> & ->) ];
      cbn in Hall;
      (assert (Hms : ms = None)
         by (destruct ms as [m|]; [|reflexivity];
             discriminate (proj2 Hall (ex_intro _ m eq_refl))));
      subst ms; clear Hall;
      destruct ev; cbn in Hstep; unfold allPassed, anyChecking in Hstep;
      cbn in Hstep; rewrite ?orb_true_r, ?andb_false_r in Hstep;
      try discriminate Hstep; try exact (Hreload eq_refl);
      repeat match goal with b : bool |- _ => destruct b end;
      cbn in Hstep; try discriminate Hstep; injection Hstep as <-;
      finish Hok.
Qed.

(** ** Check runs, the way into the assessment, and tracks *)

Lemma reachable_AppInv a : reachable a -> AppInv a.
Proof.
  induction 1 as [|a ev a' _ IH Hstep]; [apply AppInv_init|].
  exact (AppInv_step _ _ _ IH Hstep).
Qed.

Lemma app_reachable_run a evs a' :
  reachable a -> run a evs = Some a' -> reachable a'.
Proof.
  revert a. induction evs as [|ev evs IH]; intros a Hreach Hrun; simpl in Hrun.
  - injection Hrun as <-. exact Hreach.
  - destruct (step a ev) as [a1|] eqn:Hstep; [|discriminate Hrun].
    simpl in Hrun. eapply IH; [|exact Hrun].
    eapply reachable_next; eassumption.
Qed.

(** X28: [runChecks] is never entered twice: at most one invocation is
    in progress at any time, and [isLoading] tells whether one is.  While
    one is in progress the page is the system-check page, one of the four
    checks shows "checking" and not all have passed, so both the run
    button and the start button are disabled; when none is in progress no
    check shows "checking". *)
Theorem X28_one_check_run_at_a_time a :
  reachable a ->
  (runs a = [] \/ exists r, runs a = [r]) /\
  (isLoading a = true <-> runs a <> []) /\
  (runs a <> [] ->
   screen a = SYSTEM_CHECKS /\ anyChecking a = true /\ allPassed a = false /\
   step a RunChecks = None /\
   forall support, step a (Proceed support) = None) /\
  (runs a = [] -> anyChecking a = false).
Proof.
  intros Hreach.
  destruct (reachable_AppInv a Hreach)
    as (Hruns & Hstat & Hload & _ & Hscr & _).
  split; [exact Hruns|]. split; [|split].
  - rewrite Hload. destruct (runs a); cbn; split; congruence.
  - intros Hne. specialize (Hscr Hne).
    assert (Hbusy : anyChecking a = true /\ allPassed a = false).
    { destruct Hruns as [Hnil | [r Hr]]; [contradiction|].
      rewrite Hr in Hstat. unfold anyChecking, allPassed.
      destruct r; cbn in Hstat;
        [ destruct Hstat as (-> & -> & -> & _)
        | destruct Hstat as (-> & -> & -> & _)
        | destruct Hstat as (-> & -> & -> & _)
        | destruct Hstat as (-> & -> & -> & ->)
        | destruct Hstat as (-> & -> & -> & ->) ];
        cbn; rewrite ?orb_true_r; split; reflexivity. }
    destruct Hbusy as [Hbusy Hnot].
    split; [exact Hscr|]. split; [exact Hbusy|]. split; [exact Hnot|].
    unfold step. rewrite Hscr, Hbusy, Hnot. split; [reflexivity|].
    intros support. reflexivity.
  - intros Hnil. rewrite Hnil in Hstat. exact (proj1 Hstat).
Qed.

(** X29: the assessment is entered only after all four checks have
    passed.  On the launcher and in both games all checks are passed, no
    check run is in progress, the combined stream exists, and
    [startRecording] has run exactly once, on that stream: either one
    recorder was started on it, or creating or starting the recorder threw,
    the error was logged once and the assessment goes on without a
    recorder.  Before that no recorder has been started.  In every state
    the checks have all passed exactly when the combined stream exists.
    Pressing the start button in a browser without [MediaRecorder] raises
    and leaves the page as it is; in any other browser it leads to the
    launcher. *)
Theorem X29_assessment_needs_all_checks a :
  reachable a ->
  (allPassed a = true <-> is_Some (mediaStream a)) /\
  match screen a with
  | WELCOME | SYSTEM_CHECKS => recordings a = [] /\ recordingErrors a = 0%nat
  | _ => allPassed a = true /\ isLoading a = false /\ recordingAttempted a
  end /\
  forall support a', step a (Proceed support) = Some a' ->
    if hasMediaRecorder support
    then screen a' = LAUNCHER /\
         (recorderStarts support = true <-> recordings a' <> [])
    else a' = a.
Proof.
  intros Hreach.
  destruct (reachable_AppInv a Hreach)
    as (_ & _ & Hload & Hall & Hscr & Hrec & _).
  split; [exact Hall|].
  assert (Hidle : screen a <> SYSTEM_CHECKS -> isLoading a = false).
  { intros Hs. rewrite Hload. destruct (runs a) as [|r rs]; [reflexivity|].
    exfalso. apply Hs, Hscr. discriminate. }
  assert (Hgate : forall P : Prop,
    (exists s, mediaStream a = Some s) -> screen a <> SYSTEM_CHECKS ->
    allPassed a = true /\ isLoading a = false).
  { intros _ (s & Hms) Hs. split; [|exact (Hidle Hs)].
    apply Hall. rewrite Hms. eexists. reflexivity. }
  split.
  - destruct (screen a) eqn:Hs.
    + destruct Hrec as (H1 & H2 & _). split; assumption.
    + destruct Hrec as (H1 & H2 & _). split; assumption.
    + destruct Hrec as [Hrec _].
      destruct (Hgate True) as [H1 H2];
        [destruct Hrec as (s & Hms & _); eexists; exact Hms | discriminate|].
      split; [exact H1|]. split; [exact H2 | exact Hrec].
    + destruct (Hgate True) as [H1 H2];
        [destruct Hrec as (s & Hms & _); eexists; exact Hms | discriminate|].
      split; [exact H1|]. split; [exact H2 | exact Hrec].
    + destruct Hrec as [Hrec _].
      destruct (Hgate True) as [H1 H2];
        [destruct Hrec as (s & Hms & _); eexists; exact Hms | discriminate|].
      split; [exact H1|]. split; [exact H2 | exact Hrec].
  - intros support a' Hstep. unfold step in Hstep.
    destruct (screen a) eqn:Hs; try discriminate Hstep.
    destruct (allPassed a) eqn:Hp; [|discriminate Hstep].
    destruct (negb (isLoading a)); [|discriminate Hstep].
    cbn in Hstep. injection Hstep as <-.
    destruct (proj1 Hall eq_refl) as [s Hms].
    destruct Hrec as (Hrecs & _).
    unfold proceedToAssessment, startRecording. rewrite Hp, Hms.
    destruct support as [[] vp9 []]; cbn.
    + split; [reflexivity|]. rewrite Hrecs. cbn.
      split; [discriminate | reflexivity].
    + split; [reflexivity|]. rewrite Hrecs.
      split; [discriminate | intros Hne; contradiction].
    + reflexivity.
    + reflexivity.
Qed.

Lemma not_live a t : t ∈ stopped a -> t ∉ liveTracks a.
Proof.
  intros Hs Hl. unfold liveTracks in Hl.
  rewrite list_elem_of_In, List.filter_In in Hl. destruct Hl as [_ Hl].
  rewrite negb_true_iff, bool_decide_eq_false in Hl. exact (Hl Hs).
Qed.

(** X30: where the camera and microphone tracks are.  The tracks handed
    out and not stopped are exactly those held by the check run in
    progress or, when none is in progress, those of the combined stream,
    those shown in the mounted webcam box of the pipe puzzle, and those
    that were attached to a webcam box after it had been unmounted.  A
    webcam box is mounted on the pipe-puzzle screen only.  After a check
    run that failed, every track it obtained has been stopped.  Tracks are
    left behind by an unmounted webcam box by no other event than the
    late grant of its request; a box that is unmounted, by a change of
    page or by the way back, stops the tracks it shows. *)
Theorem X30_live_tracks_are_in_use a :
  reachable a ->
  (forall t,
     t ∈ liveTracks a <-> t ∈ holding a \/ t ∈ webcam a \/ t ∈ leaked a) /\
  (proctoring a <> None -> screen a = PIPE_PUZZLE) /\
  (runs a = [] -> allPassed a = false -> liveTracks a = []) /\
  (forall ev a', step a ev = Some a' ->
     ev = LateWebcamSettles true \/ forall t, t ∈ leaked a' -> t ∈ leaked a) /\
  (forall a', step a ProctoringUnmounts = Some a' \/ step a Back = Some a' ->
     forall t, t ∈ webcam a -> t ∉ liveTracks a').
Proof.
  intros Hreach.
  destruct (reachable_AppInv a Hreach)
    as (Hruns & _ & _ & Hall & Hscr & Hrec & _ & Hok).
  assert (Hlive : forall t,
    t ∈ liveTracks a <-> t ∈ holding a \/ t ∈ webcam a \/ t ∈ leaked a).
  { intros t. destruct (tracksOk_at _ _ _ _ _ t Hok) as (Hb & Hc & _).
    unfold liveTracks.
    rewrite list_elem_of_In, List.filter_In, <- list_elem_of_In, elem_of_seq.
    rewrite negb_true_iff, bool_decide_eq_false. split.
    - intros [[_ Ht] Hnot]. cbn in Ht.
      destruct (decide (t ∈ holding a)) as [Hin | Hout]; [left; exact Hin|].
      destruct (decide (t ∈ webcam a)) as [Hin | Hout2];
        [right; left; exact Hin|].
      destruct (decide (t ∈ leaked a)) as [Hin | Hout3];
        [right; right; exact Hin|].
      exfalso. apply Hnot, (Hc Ht). tauto.
    - intros Hin.
      assert (Ht : (t < nextTrack a)%nat) by (apply Hb; tauto).
      split; [cbn; lia|]. intros Hs. apply (Hc Ht) in Hs. exact (Hs Hin). }
  split; [exact Hlive|]. split; [|split; [|split]].
  - intros Hne. destruct (screen a); try reflexivity; exfalso; apply Hne.
    + exact (proj1 (proj2 (proj2 Hrec))).
    + exact (proj1 (proj2 (proj2 Hrec))).
    + exact (proj2 Hrec).
    + exact (proj2 Hrec).
  - intros Hnil Hnot.
    assert (Hms : mediaStream a = None).
    { destruct (mediaStream a) as [s|] eqn:Hms; [|reflexivity].
      rewrite (proj2 Hall (ex_intro _ s eq_refl)) in Hnot. discriminate Hnot. }
    assert (Hnone : holding a = [] /\ webcam a = [] /\ leaked a = []).
    { unfold holding, webcam. rewrite Hnil, Hms.
      destruct (screen a);
        try (destruct Hrec as (_ & _ & -> & _ & ->); repeat split);
        exfalso;
        [ destruct Hrec as [(s & Hs & _) _] | destruct Hrec as (s & Hs & _)
        | destruct Hrec as [(s & Hs & _) _] ]; congruence. }
    destruct Hnone as (Hn1 & Hn2 & Hn3).
    destruct (liveTracks a) as [|t l] eqn:Hl; [reflexivity|].
    exfalso. assert (Hin : t ∈ t :: l) by left.
    apply Hlive in Hin. rewrite Hn1, Hn2, Hn3 in Hin.
    destruct Hin as [Hin | [Hin | Hin]]; inversion Hin.
  - intros ev a' Hstep.
    destruct a as [scr ms load sysc vidc audc secc rs nt stp recs errs al
                     pr late lk].
    cbn in Hruns.
    destruct ev; cbn in Hstep;
      try (destruct scr; try discriminate Hstep; injection Hstep as <-;
           right; intros t Ht; exact Ht).
    all: try (destruct Hruns as [-> | [r ->]]; [discriminate Hstep|];
              destruct r; try discriminate Hstep;
              repeat match goal with b : bool |- _ => destruct b end;
              cbn in Hstep; injection Hstep as <-;
              right; intros t Ht; exact Ht).
    + destruct scr; try discriminate Hstep.
      match type of Hstep with
      | (if ?c then _ else _) = _ => destruct c; [|discriminate Hstep]
      end.
      injection Hstep as <-. right. intros t Ht. exact Ht.
    + destruct scr; try discriminate Hstep.
      match type of Hstep with
      | (if ?c then _ else _) = _ => destruct c; [|discriminate Hstep]
      end.
      injection Hstep as <-. right. intros t.
      unfold proceedToAssessment, startRecording. cbn.
      repeat match goal with
             | |- context [if ?c then _ else _] => destruct c; cbn
             | |- context [match ?m with Some _ => _ | None => _ end] =>
                 destruct m; cbn
             end;
        intros Ht; exact Ht.
    + destruct scr; try discriminate Hstep; injection Hstep as <-;
        right; intros t Ht; [|exact Ht].
      destruct pr as [[[src|] err []]|]; exact Ht.
    + injection Hstep as <-. right. intros t.
      destruct hidden, scr; intros Ht; exact Ht.
    + destruct scr; try discriminate Hstep.
      destruct pr; try discriminate Hstep. injection Hstep as <-.
      right. intros t Ht. exact Ht.
    + destruct pr as [[[src|] err []]|]; try discriminate Hstep;
        injection Hstep as <-; right; intros t Ht; exact Ht.
    + destruct pr as [[src err []]|]; try discriminate Hstep.
      injection Hstep as <-. right. intros t.
      destruct granted; intros Ht; exact Ht.
    + destruct late; try discriminate Hstep. injection Hstep as <-.
      destruct granted; [left; reflexivity|]. right. intros t Ht. exact Ht.
    + injection Hstep as <-. right. intros t Ht. inversion Ht.
  - intros a' Hstep t Ht. apply not_live.
    destruct a as [scr ms load sysc vidc audc secc rs nt stp recs errs al
                     pr late lk].
    unfold webcam in Ht. cbn in Ht, Hrec, Hstep.
    destruct pr as [[[src|] err pend]|]; cbn in Ht; try (inversion Ht; fail).
    assert (Hst : a' = setScreen LAUNCHER
                         (unmountProctoring
                            (mkApp scr ms load sysc vidc audc secc rs nt stp
                               recs errs al
                               (Some (mkProctoring (Some src) err pend))
                               late lk)) \/
                  a' = unmountProctoring
                         (mkApp scr ms load sysc vidc audc secc rs nt stp
                            recs errs al
                            (Some (mkProctoring (Some src) err pend))
                            late lk)).
    { destruct Hstep as [Hstep | Hstep].
      - right. injection Hstep as <-. reflexivity.
      - left. destruct scr; try discriminate Hstep.
        + injection Hstep as <-. reflexivity.
        + destruct Hrec as [_ Hn]. discriminate Hn. }
    destruct Hst as [-> | ->]; destruct pend; cbn;
      apply elem_of_app; right; exact Ht.
Qed.

(** The request of a webcam box that is answered after the box has been
    unmounted leaves two tracks running on the launcher that nothing will
    stop: they belong neither to the combined stream nor to a mounted
    box. *)
Example webcam_request_outlives_its_box :
  exists a,
    run initialApp sampleLateWebcam = Some a /\
    screen a = LAUNCHER /\ proctoring a = None /\
    mediaStream a = Some [ 1; 2 ]%nat /\
    liveTracks a = [ 1; 2; 3; 4 ]%nat /\ leaked a = [ 3; 4 ]%nat.
Proof. eexists. split; [vm_compute; reflexivity|]. repeat split. Qed.

(** A box whose request was answered while it was mounted stops its
    tracks when it is unmounted. *)
Example webcam_stream_stopped_with_its_box :
  exists a,
    run initialApp (sampleWebcam ++ [ Back ]) = Some a /\
    screen a = LAUNCHER /\ liveTracks a = [ 1; 2 ]%nat /\
    stopped a = [ 0; 3; 4 ]%nat /\ leaked a = [].
Proof. eexists. split; [vm_compute; reflexivity|]. repeat split. Qed.

End AppFacts.

Section AppWitnesses.

Import App.

Lemma sampleApp_reachable : reachable sampleApp.
Proof.
  apply (app_reachable_run initialApp
           (sampleChecks ++ [ Proceed workingRecorder; OpenBubbleSort ]));
    [apply reachable_init | vm_compute; reflexivity].
Qed.

Lemma X28_one_check_run_witness :
  let a := default initialApp (run initialApp [ TakeTest; RunChecks ]) in
  (isLoading a = true <-> runs a <> []) /\
  step a RunChecks = None /\
  forall support, step a (Proceed support) = None.
Proof.
  destruct (X28_one_check_run_at_a_time
              (default initialApp (run initialApp [ TakeTest; RunChecks ])))
    as (_ & Hload & Hbusy & _).
  - apply (app_reachable_run initialApp [ TakeTest; RunChecks ]);
      [apply reachable_init | vm_compute; reflexivity].
  - split; [exact Hload|].
    destruct (Hbusy ltac:(discriminate)) as (_ & _ & _ & H1 & H2).
    split; [exact H1 | exact H2].
Defined.

Lemma X29_assessment_needs_all_checks_witness :
  allPassed sampleApp = true /\ isLoading sampleApp = false /\
  recordingAttempted sampleApp.
Proof.
  destruct (X29_assessment_needs_all_checks sampleApp) as (_ & Hgate & _).
  - apply (app_reachable_run initialApp
             (sampleChecks ++ [ Proceed workingRecorder; OpenBubbleSort ]));
      [apply reachable_init | vm_compute; reflexivity].
  - exact Hgate.
Defined.

Lemma X30_live_tracks_witness :
  let a := default initialApp (run initialApp sampleWebcam) in
  screen a = PIPE_PUZZLE /\
  forall t, t ∈ liveTracks a <-> t ∈ [ 1; 2 ]%nat \/ t ∈ [ 3; 4 ]%nat \/ t ∈ [].
Proof.
  destruct (X30_live_tracks_are_in_use
              (default initialApp (run initialApp sampleWebcam)))
    as (Hlive & Hscreen & _).
  - apply (app_reachable_run initialApp sampleWebcam);
      [apply reachable_init | vm_compute; reflexivity].
  - split; [apply Hscreen; discriminate | exact Hlive].
Defined.

End AppWitnesses.

